(** * GoPalPDF-Translator: document structure reconstruction

    A shallow embedding of the geometry algorithms and of the Word
    import of [src/services/pdfService.ts], and of the translation pass,
    the calls of the service, the language detection and the preview's
    page and zoom of [src/types.ts], with the properties the design
    document states about them and further properties of the code.

    Numbers.  The program computes on IEEE doubles.  The embedding uses
    exact rationals ([Q]) for the page geometry and real numbers ([R])
    for the auto-fit arithmetic, which needs a square root.  Not-a-number,
    infinities and rounding error are outside the model; the page
    geometry of the examples is in integers and halves, on which the
    arithmetic of doubles is exact.

    Strings.  A JavaScript string is a sequence of UTF-16 code units and
    [length] counts code units, so a string is a [list N]. *)

From Stdlib Require Import Ascii String.
From Stdlib Require Import QArith Qround ZArith List Bool Lia Lqa.
From Stdlib Require Import Permutation.
From Stdlib Require Import Reals Lra Qreals Zfloor.
Import ListNotations.


(* ################################################################## *)
(** * Part I: the program *)

(* ================================================================== *)
(** ** JavaScript numbers, idealised as rationals *)

Module Num.

Definition ltb (a b : Q) : bool := negb (Qle_bool b a).
Definition leb (a b : Q) : bool := Qle_bool a b.
Definition eqb (a b : Q) : bool := Qeq_bool a b.

(** [Math.abs], [Math.max], [Math.min]. *)
Definition abs (a : Q) : Q := if ltb a 0 then - a else a.
Definition max (a b : Q) : Q := if ltb a b then b else a.
Definition min (a b : Q) : Q := if ltb b a then b else a.

(** [Math.round]: the nearest integer, halves going up. *)
Definition round (a : Q) : Z := Qfloor (a + (1 # 2)).

(** [l.reduce((a,b)=>a+b, 0)] and [l.length] as a number. *)
Definition sum (l : list Q) : Q := fold_left Qplus l 0.
Definition len {A} (l : list A) : Q := inject_Z (Z.of_nat (length l)).

End Num.

(* ================================================================== *)
(** ** JavaScript strings, as UTF-16 code units *)

Module Str.

Definition jschar := N.
Definition jsstring := list jschar.

(** An ASCII literal as a JavaScript string. *)
Definition lit (s : String.string) : jsstring :=
  List.map N_of_ascii (String.list_ascii_of_string s).

Definition eqb (a b : jsstring) : bool :=
  if list_eq_dec N.eq_dec a b then true else false.

(** White space and line terminators: what [String.prototype.trim]
    strips and what [\s] matches. *)
Definition isSpace (c : jschar) : bool :=
  (((9 <=? c) && (c <=? 13)) || (c =? 32) || (c =? 160) || (c =? 5760)
   || ((8192 <=? c) && (c <=? 8202)) || (c =? 8232) || (c =? 8233)
   || (c =? 8239) || (c =? 8287) || (c =? 12288) || (c =? 65279))%N.

(** [\d]. *)
Definition isDigit (c : jschar) : bool := ((48 <=? c) && (c <=? 57))%N.

Definition hyphen : jschar := 45%N.
Definition space : jschar := 32%N.
Definition asterisk : jschar := 42%N.
Definition dot : jschar := 46%N.
Definition closeParen : jschar := 41%N.
Definition bullet : jschar := 8226%N.        (* U+2022 *)
Definition blackCircle : jschar := 9679%N.   (* U+25CF *)

Fixpoint trimStart (s : jsstring) : jsstring :=
  match s with
  | c :: s' => if isSpace c then trimStart s' else s
  | [] => []
  end.

Definition trimEnd (s : jsstring) : jsstring := rev (trimStart (rev s)).

Definition trim (s : jsstring) : jsstring := trimEnd (trimStart s).

(** [s.endsWith(c)] for a one-character needle. *)
Definition endsWith (s : jsstring) (c : jschar) : bool :=
  match rev s with
  | d :: _ => (c =? d)%N
  | [] => false
  end.

(** [s.slice(0, -1)]. *)
Definition dropLast (s : jsstring) : jsstring := removelast s.

(** [s.toLowerCase().includes('bold')]: the only characters whose lower
    case is one of b, o, l, d are those letters and their capitals. *)
Definition isLetter (lower : N) (c : jschar) : bool :=
  ((c =? lower) || (c =? lower - 32))%N.

Fixpoint includesBold (s : jsstring) : bool :=
  match s with
  | b :: ((o :: l :: d :: _) as s') =>
      (isLetter 98 b && isLetter 111 o && isLetter 108 l && isLetter 100 d)
      || includesBold s'
  | _ => false
  end.

End Str.

(* ================================================================== *)
(** ** The document structure model ([src/types.ts]) *)

Module T.

Import Str.

Inductive Alignment := Left | Center | Right | Justify.

Inductive PathMethod := Rect | Line.

Record Geometry := mkGeometry {
  x : Q;
  y : Q;
  width : Q;
  height : Q
}.

(** The fields of [PdfTextItem] besides its type tag and geometry;
    optional fields are options. *)
Record TextProps := mkTextProps {
  text : jsstring;
  fontSize : Q;
  fontName : jsstring;
  isBold : option bool;
  letterSpacing : option Q;
  isParagraphStart : option bool;
  indent : option Q;
  alignment : option Alignment
}.

Record PdfTableCell := mkCell {
  cellText : jsstring;
  isHeader : option bool;
  colSpan : option Q;
  rowSpan : option Q;
  align : option Alignment
}.

Record PdfTableRow := mkRow { cells : list PdfTableCell }.

Inductive Detail :=
| Text (p : TextProps)
| Image (data : jsstring)
| Path (method : PathMethod) (lineWidth : Q) (strokeColor : option jsstring)
| Table (rows : list PdfTableRow) (hasBorders : bool).

(** One member of the union
    [PdfTextItem | PdfImageItem | PdfPathItem | PdfTableItem]. *)
Record PdfItem := mkItem {
  geom : Geometry;
  detail : Detail
}.

Inductive ItemType := text_t | image_t | path_t | table_t.

Definition type (i : PdfItem) : ItemType :=
  match detail i with
  | Text _ => text_t
  | Image _ => image_t
  | Path _ _ _ => path_t
  | Table _ _ => table_t
  end.

Record PdfPage := mkPage {
  items : list PdfItem;
  pageWidth : Q;
  pageHeight : Q
}.

Record PdfStructure := mkStructure { pages : list PdfPage }.

(** The data model's invariant on geometry: extents are not negative. *)
Definition wellSized (i : PdfItem) : Prop :=
  0 <= width (geom i) /\ 0 <= height (geom i).

End T.

(* ================================================================== *)
(** ** [Array.prototype.sort] with a comparator *)

Section JsSort.

Variable A : Type.
(** The comparator: negative when the first argument goes first. *)
Variable cmp : A -> A -> Q.

(** The sort is stable: an element moves behind exactly those it
    compares greater than. *)
Fixpoint insertSorted (a : A) (l : list A) : list A :=
  match l with
  | [] => [a]
  | b :: l' => if Num.leb (cmp a b) 0 then a :: l else b :: insertSorted a l'
  end.

Definition jsSort (l : list A) : list A := fold_right insertSorted [] l.

End JsSort.

Arguments insertSorted {A} cmp a l.
Arguments jsSort {A} cmp l.

Section SortKeys.

Variable A : Type.
Variable key : A -> Q.

(** A comparator that is the difference of a key, as [(a, b) => a.k - b.k]. *)
Definition byKey (a b : A) : Q := key a - key b.

(** The keys of a list ascend. *)
Fixpoint keysAscend (l : list A) : Prop :=
  match l with
  | [] => True
  | a :: tl => Forall (fun b => key a <= key b) tl /\ keysAscend tl
  end.

End SortKeys.

Arguments byKey {A} key a b.
Arguments keysAscend {A} key l.

(* ================================================================== *)
(** ** Line-spacing statistics ([calculateLineSpacingStats]) *)

Module Stats.

Record LineSpacingStats := mkStats {
  stdLineHeight : Q;
  paraGapThreshold : Q
}.

Definition defaults : LineSpacingStats := mkStats 14 20.

Definition keepGap (gap : Q) : bool := Num.ltb 5 gap && Num.ltb gap 300.

(** The first loop: the gaps between consecutive coordinates that pass
    the filter, in order. *)
Fixpoint collectGaps (yCoords : list Q) : list Q :=
  match yCoords with
  | a :: (b :: _) as tl =>
      let gap := Num.abs (a - b) in
      if keepGap gap then gap :: collectGaps tl else collectGaps tl
  | _ => []
  end.

(** The [frequency] object.  Its keys are rounded gaps, small
    non-negative integers, which [Object.entries] lists in ascending
    numeric order: the table is kept sorted by key. *)
Definition Frequency := list (Z * nat).

(** [frequency[k] = (frequency[k] || 0) + 1]. *)
Fixpoint bump (k : Z) (frequency : Frequency) : Frequency :=
  match frequency with
  | [] => [(k, 1%nat)]
  | (k', c) :: tl =>
      if (k =? k')%Z then (k', S c) :: tl
      else if (k <? k')%Z then (k, 1%nat) :: frequency
      else (k', c) :: bump k tl
  end.

Definition tally (gaps : list Q) : Frequency :=
  fold_left (fun frequency g => bump (Num.round g) frequency) gaps [].

(** The loop over [Object.entries(frequency)], from [mode] and
    [maxFreq]. *)
Fixpoint pickMode (entries : Frequency) (mode : Z) (maxFreq : nat) : Z * nat :=
  match entries with
  | [] => (mode, maxFreq)
  | (gap, freq) :: tl =>
      if (maxFreq <? freq)%nat then pickMode tl gap freq
      else pickMode tl mode maxFreq
  end.

Definition modeOf (gaps : list Q) : Z := fst (pickMode (tally gaps) 0%Z 0%nat).

Definition mean (gaps : list Q) : Q := Num.sum gaps / Num.len gaps.

Definition calculateLineSpacingStats (yCoords : list Q) : LineSpacingStats :=
  if (length yCoords <? 2)%nat then defaults else
  let gaps := collectGaps yCoords in
  if (length gaps =? 0)%nat then defaults else
  let mode := modeOf gaps in
  let std := if (8 <? mode)%Z then inject_Z mode else mean gaps in
  mkStats std (std * (3 # 2)).

(** *** Vocabulary of the specification *)

(** The absolute gaps between consecutive coordinates, unfiltered. *)
Fixpoint consecutiveGaps (yCoords : list Q) : list Q :=
  match yCoords with
  | a :: (b :: _) as tl => Num.abs (a - b) :: consecutiveGaps tl
  | _ => []
  end.

(** How often [v] occurs among the rounded gaps. *)
Definition occurrences (v : Z) (gaps : list Q) : nat :=
  count_occ Z.eq_dec (map Num.round gaps) v.

(** [m] is the mode of the rounded gaps: the most frequent value, and the
    least one when several are as frequent. *)
Definition isMode (m : Z) (gaps : list Q) : Prop :=
  In m (map Num.round gaps) /\
  (forall v, (occurrences v gaps <= occurrences m gaps)%nat) /\
  (forall v, (v < m)%Z -> (occurrences v gaps < occurrences m gaps)%nat).

(** The count recorded for [k] in a table. *)
Fixpoint lookup (k : Z) (frequency : Frequency) : nat :=
  match frequency with
  | [] => 0%nat
  | (k', c) :: tl => if (k =? k')%Z then (c + lookup k tl)%nat else lookup k tl
  end.

(** The keys of a table are above [b] and ascend strictly. *)
Fixpoint keysAbove (b : Z) (frequency : Frequency) : Prop :=
  match frequency with
  | [] => True
  | (k, _) :: tl => (b < k)%Z /\ keysAbove k tl
  end.

Definition ascending (frequency : Frequency) : Prop :=
  match frequency with
  | [] => True
  | (k, _) :: tl => keysAbove k tl
  end.

End Stats.

(* ================================================================== *)
(** ** Reading-order reconstruction ([reorderItemsByReadingFlow]) *)

Module ReadingOrder.

Import T.

Definition MIN_COL_GAP : Q := 14.
Definition MIN_ROW_GAP : Q := 6.

Inductive Axis := X | Y.

Definition isContributor (i : PdfItem) : bool :=
  match type i with
  | text_t | image_t | table_t => true
  | path_t => false
  end.

Definition getContributors (lst : list PdfItem) : list PdfItem :=
  filter isContributor lst.

Record Interval := mkInterval { s : Q; e : Q }.

Definition project (axis : Axis) (i : PdfItem) : Interval :=
  match axis with
  | X => mkInterval (x (geom i)) (x (geom i) + width (geom i))
  | Y => mkInterval (y (geom i)) (y (geom i) + height (geom i))
  end.

Definition minSize (axis : Axis) : Q :=
  match axis with X => MIN_COL_GAP | Y => MIN_ROW_GAP end.

(** The loop that fuses overlapping intervals; [current] is the interval
    being widened, the result is the array [merged] after the final
    push. *)
Fixpoint mergeIntervals (current : Interval) (rest : list Interval)
  : list Interval :=
  match rest with
  | [] => [current]
  | next :: rest' =>
      if Num.ltb (s next) (e current - (1 # 10))
      then mergeIntervals
             (mkInterval (s current) (Num.max (e current) (e next))) rest'
      else current :: mergeIntervals next rest'
  end.

(** The loop over consecutive merged intervals, carrying [bestGap] and
    [maxGapSize]. *)
Fixpoint scanGaps (minSz : Q) (merged : list Interval)
         (bestGap : option Q) (maxGapSize : Q) : option Q :=
  match merged with
  | a :: (b :: _) as tl =>
      let gapSize := s b - e a in
      if Num.ltb minSz gapSize && Num.ltb maxGapSize gapSize
      then scanGaps minSz tl (Some ((e a + s b) / 2)) gapSize
      else scanGaps minSz tl bestGap maxGapSize
  | _ => bestGap
  end.

Definition findSplit (lst : list PdfItem) (axis : Axis) : option Q :=
  let contributors := getContributors lst in
  if (length contributors <? 2)%nat then None else
  let intervals :=
    jsSort (fun a b => s a - s b) (map (project axis) contributors) in
  match intervals with
  | [] => None
  | first :: rest => scanGaps (minSize axis) (mergeIntervals first rest) None 0
  end.

Definition centerX (i : PdfItem) : Q := x (geom i) + width (geom i) / 2.
Definition centerY (i : PdfItem) : Q := y (geom i) + height (geom i) / 2.

Definition center (axis : Axis) : PdfItem -> Q :=
  match axis with X => centerX | Y => centerY end.

(** The comparator of the final sort of an atomic list. *)
Definition atomicCmp (a b : PdfItem) : Q :=
  if Num.ltb 6 (Num.abs (y (geom a) - y (geom b)))
  then y (geom a) - y (geom b)
  else x (geom a) - x (geom b).

(** The two [filter] calls of a split: centres before the split point,
    and centres at or after it. *)
Definition before (axis : Axis) (split : Q) (lst : list PdfItem) :=
  filter (fun i => Num.ltb (center axis i) split) lst.
Definition after (axis : Axis) (split : Q) (lst : list PdfItem) :=
  filter (fun i => Num.leb split (center axis i)) lst.

(** [[...a, ...b]] of two recursive results. *)
Definition concat2 (a b : option (list PdfItem)) : option (list PdfItem) :=
  match a, b with
  | Some l, Some r => Some (l ++ r)
  | _, _ => None
  end.

(** [recursiveOrder], with a bound on the depth of the recursion;
    [None] means the bound was reached before the recursion ended. *)
Fixpoint recursiveOrder (fuel : nat) (lst : list PdfItem)
  : option (list PdfItem) :=
  match fuel with
  | O => None
  | S fuel' =>
      if (length lst <=? 1)%nat then Some lst else
      match findSplit lst X with
      | Some splitX =>
          concat2 (recursiveOrder fuel' (before X splitX lst))
                  (recursiveOrder fuel' (after X splitX lst))
      | None =>
          match findSplit lst Y with
          | Some splitY =>
              concat2 (recursiveOrder fuel' (before Y splitY lst))
                      (recursiveOrder fuel' (after Y splitY lst))
          | None => Some (jsSort atomicCmp lst)
          end
      end
  end.

(** The depth of the recursion on [n] items is at most [n] when every
    split shortens the list, so [S n] levels are allowed. *)
Definition reorderItemsByReadingFlow (items : list PdfItem)
  : option (list PdfItem) :=
  recursiveOrder (S (length items)) items.

(** Intervals in the order the merging loop leaves them: starts
    ascend, each starts no more than the tolerance before its predecessor
    ends, and none ends before it starts. *)
Fixpoint chained (l : list Interval) : Prop :=
  match l with
  | [] => True
  | a :: tl =>
      s a <= e a /\
      match tl with
      | [] => True
      | b :: _ => s a <= s b /\ e a - (1 # 10) <= s b
      end /\
      chained tl
  end.

(** Intervals sorted by start, none ending before it starts. *)
Fixpoint ascendingStarts (l : list Interval) : Prop :=
  match l with
  | [] => True
  | a :: tl => s a <= e a /\ Forall (fun b => s a <= s b) tl /\ ascendingStarts tl
  end.

(** A plain text item at a given place. *)
Definition textAt (gx gy gw gh : Q) : PdfItem :=
  mkItem (mkGeometry gx gy gw gh)
         (Text (mkTextProps (Str.lit "x") 12 (Str.lit "F") None None None
                            None None)).

(** A rectangle path with the given box. *)
Definition pathAt (gx gy gw gh : Q) : PdfItem :=
  mkItem (mkGeometry gx gy gw gh) (Path Rect 1 None).

End ReadingOrder.

(* ================================================================== *)
(** ** Paragraph merging ([mergeTextBlocks]) *)

Module Merger.

Import T Str.

Definition isBulletGlyph (c : jschar) : bool :=
  ((c =? bullet) || (c =? blackCircle) || (c =? hyphen) || (c =? asterisk))%N.

(** [/^[•●\-\*]\s/.test(t)]. *)
Definition bulletMarker (t : jsstring) : bool :=
  match t with
  | c :: w :: _ => isBulletGlyph c && isSpace w
  | _ => false
  end.

Fixpoint skipDigits (t : jsstring) : jsstring :=
  match t with
  | c :: t' => if isDigit c then skipDigits t' else t
  | [] => []
  end.

(** [/^\d+[\.\)]\s/.test(t)]. *)
Definition numberMarker (t : jsstring) : bool :=
  match t with
  | d :: t' =>
      isDigit d &&
      match skipDigits t' with
      | p :: w :: _ => ((p =? dot) || (p =? closeParen))%N && isSpace w
      | _ => false
      end
  | [] => false
  end.

Definition isList (t : jsstring) : bool := bulletMarker t || numberMarker t.

(** The fusion test on [current] and [next], both text items. *)
Definition canMerge (cg : Geometry) (cp : TextProps)
           (ng : Geometry) (np : TextProps) : bool :=
  let sameFont := Str.eqb (fontName cp) (fontName np) in
  let sameSize := Num.ltb (Num.abs (fontSize cp - fontSize np)) 2 in
  let lineSpacing := y ng - y cg in
  let isContinuousVertical :=
    Num.ltb 0 lineSpacing && Num.ltb lineSpacing (fontSize cp * (5 # 2)) in
  let isAlignedLeft := Num.ltb (Num.abs (x cg - x ng)) 20 in
  let isFlowing :=
    Num.leb (x cg - 40) (x ng)
    && Num.leb (x ng + width ng) (x cg + width cg + 40) in
  sameFont && sameSize && isContinuousVertical
  && (isAlignedLeft || isFlowing) && negb (isList (text np)).

(** The text of the merged item. *)
Definition mergedText (a b : jsstring) : jsstring :=
  if endsWith (trim a) hyphen
  then dropLast (trim a) ++ b
  else a ++ [space] ++ b.

Definition orZero (v : option Q) : Q :=
  match v with Some q => q | None => 0 end.

(** [current] after the assignments of the merging branch. *)
Definition fuse (cg : Geometry) (cp : TextProps)
           (ng : Geometry) (np : TextProps) : PdfItem :=
  let newX := Num.min (x cg) (x ng) in
  let newWidth := Num.max (x cg + width cg) (x ng + width ng) - newX in
  let newHeight := (y ng + height ng) - y cg in
  let hanging := Num.ltb (x ng) (x cg - 5) in
  mkItem
    (mkGeometry (if hanging then x ng else x cg) (y cg) newWidth newHeight)
    (Text (mkTextProps
             (mergedText (text cp) (text np))
             (fontSize cp) (fontName cp) (isBold cp) (letterSpacing cp)
             (isParagraphStart cp)
             (if hanging
              then Some (orZero (indent cp) + (x cg - x ng))
              else indent cp)
             (alignment cp))).

(** The loop of [mergeTextBlocks] from [current] over the remaining
    items; the result is [merged] after the final push. *)
Fixpoint mergeFrom (current : PdfItem) (rest : list PdfItem) : list PdfItem :=
  match rest with
  | [] => [current]
  | next :: rest' =>
      match detail current, detail next with
      | Text cp, Text np =>
          if canMerge (geom current) cp (geom next) np
          then mergeFrom (fuse (geom current) cp (geom next) np) rest'
          else current :: mergeFrom next rest'
      | _, _ => current :: mergeFrom next rest'
      end
  end.

Definition mergeTextBlocks (items : list PdfItem) : list PdfItem :=
  match items with
  | [] => []
  | first :: rest => mergeFrom first rest
  end.

(** *** Vocabulary of the specification *)

(** The text starts with a list marker: a bullet glyph, or digits and a
    dot or closing parenthesis, followed by white space. *)
Definition ListMarker (t : jsstring) : Prop :=
  (exists c w rest,
     t = c :: w :: rest /\
     In c [bullet; blackCircle; hyphen; asterisk] /\ isSpace w = true) \/
  (exists digits p w rest,
     t = digits ++ p :: w :: rest /\
     digits <> [] /\ Forall (fun c => isDigit c = true) digits /\
     (p = dot \/ p = closeParen) /\ isSpace w = true).

(** The five fusion criteria. *)
Definition Mergeable (cg : Geometry) (cp : TextProps)
           (ng : Geometry) (np : TextProps) : Prop :=
  fontName cp = fontName np /\
  Num.abs (fontSize cp - fontSize np) < 2 /\
  (0 < y ng - y cg /\ y ng - y cg < fontSize cp * (5 # 2)) /\
  (Num.abs (x cg - x ng) < 20 \/
   (x cg - 40 <= x ng /\ x ng + width ng <= x cg + width cg + 40)) /\
  ~ ListMarker (text np).

(** [m] is the rectangular union of [a] above and [b]. *)
Definition IsUnion (m a b : Geometry) : Prop :=
  x m == Num.min (x a) (x b) /\
  x m + width m == Num.max (x a + width a) (x b + width b) /\
  y m == y a /\
  y m + height m == Num.max (y a + height a) (y b + height b).

(** A line of text in font "F". *)
Definition line (t : string) (gx gy gw gh size : Q) : PdfItem :=
  mkItem (mkGeometry gx gy gw gh)
         (Text (mkTextProps (lit t) size (lit "F") None None None None None)).

Definition isText (i : PdfItem) : bool :=
  match detail i with Text _ => true | _ => false end.

(** No two neighbours of the list are both text items. *)
Fixpoint noTextPair (items : list PdfItem) : bool :=
  match items with
  | a :: (b :: _) as tl => negb (isText a && isText b) && noTextPair tl
  | _ => true
  end.

End Merger.

(* ================================================================== *)
(** ** Line grouping (the text loop of [extractPdfStructure]) *)

Module LineGrouper.

Import T Str.

(** One entry of [textContent.items]. *)
Record Run := mkRun {
  str : jsstring;
  transform4 : Q;      (* transform[4], the run's x *)
  transform5 : Q;      (* transform[5], the run's baseline *)
  glyphSize : Q;       (* Math.sqrt(transform[0] ** 2 + transform[1] ** 2) *)
  runWidth : Q;        (* width *)
  runFontName : jsstring   (* fontName; empty when absent *)
}.

(** [!item.str || item.str.trim().length === 0]. *)
Definition isBlank (t : jsstring) : bool :=
  match trim t with [] => true | _ => false end.

(** [Math.round(item.transform[5] * 2) / 2]. *)
Definition lineKey (r : Run) : Q := inject_Z (Num.round (transform5 r * 2)) / 2.

(** The keys of [lineMap], in insertion order. *)
Definition addKey (keys : list Q) (k : Q) : list Q :=
  if existsb (Num.eqb k) keys then keys else keys ++ [k].

Definition lineKeys (runs : list Run) : list Q :=
  fold_left (fun keys r => addKey keys (lineKey r)) runs [].

Definition sortedKeys (runs : list Run) : list Q :=
  jsSort (fun a b => b - a) (lineKeys runs).

(** [lineMap.get(y)], sorted by x. *)
Definition lineItems (runs : list Run) (y : Q) : list Run :=
  jsSort (fun a b => transform4 a - transform4 b)
         (filter (fun r => Num.eqb (lineKey r) y) runs).

(** The alignment given to a new group at [x] of width [w] on a page
    [vw] wide. *)
Definition alignmentFor (vw x w : Q) : option Alignment :=
  let pageMid := vw / 2 in
  let centerDev := Num.abs ((x + w / 2) - pageMid) in
  if Num.ltb centerDev 15 then Some Center
  else if Num.ltb (vw * (65 # 100)) x then Some Right
  else None.

(** The state of the loop.  [currentGroup] is the object pushed last onto
    [pageItems] and still being widened; [pushed] holds the items pushed
    before it, which no longer change. *)
Record Cursor := mkCursor {
  pushed : list PdfItem;
  currentGroup : option (Geometry * TextProps);
  previousY : Q;
  previousX : Q
}.

Definition asItem (g : Geometry * TextProps) : PdfItem :=
  mkItem (fst g) (Text (snd g)).

Definition pageItems (st : Cursor) : list PdfItem :=
  pushed st ++ match currentGroup st with Some g => [asItem g] | None => [] end.

(** The [else] branch: a new group starts at [item]. *)
Definition newGroup (vw vh paraGapThreshold y : Q) (st : Cursor) (item : Run)
  : Geometry * TextProps :=
  let x := transform4 item in
  let fontSize := glyphSize item in
  let started := negb (Num.eqb (previousY st) (-1)) in
  let gap := if started then Num.abs (previousY st - y) else 0 in
  let isNewParagraph := negb started || Num.ltb paraGapThreshold gap in
  let diff := x - previousX st in
  let currentIndent :=
    if isNewParagraph && negb (Num.eqb (previousX st) (-1))
       && Num.ltb 10 diff && Num.ltb diff 80
    then diff else 0 in
  (mkGeometry x (vh - y - fontSize) (runWidth item) fontSize,
   mkTextProps (str item) fontSize
     (match runFontName item with [] => lit "sans-serif"%string | n => n end)
     (Some (includesBold (runFontName item)))
     None
     (Some isNewParagraph)
     (Some currentIndent)
     (alignmentFor vw x (runWidth item))).

(** [currentGroup] after a run is appended to it. *)
Definition extend (g : Geometry * TextProps) (item : Run)
  : Geometry * TextProps :=
  let (cg, cp) := g in
  let x := transform4 item in
  let charWidth := runWidth item / Num.len (str item) in
  let gap := x - (T.x cg + width cg) in
  let spaced :=
    if Num.ltb (charWidth * (3 # 10)) gap then text cp ++ [space] else text cp in
  (mkGeometry (T.x cg) (y cg) ((x + runWidth item) - T.x cg) (height cg),
   mkTextProps (spaced ++ str item) (fontSize cp) (fontName cp) (isBold cp)
     (letterSpacing cp) (isParagraphStart cp) (indent cp) (alignment cp)).

Definition joins (g : Geometry * TextProps) (item : Run) : bool :=
  let charWidth := runWidth item / Num.len (str item) in
  let splitThreshold := Num.max (charWidth * (5 # 2)) 12 in
  Num.ltb (transform4 item - (x (fst g) + width (fst g))) splitThreshold.

(** The body of [lineItems.forEach]. *)
Definition processRun (vw vh paraGapThreshold y : Q) (st : Cursor) (item : Run)
  : Cursor :=
  match currentGroup st with
  | Some g =>
      if joins g item
      then mkCursor (pushed st) (Some (extend g item))
                    (previousY st) (previousX st)
      else mkCursor (pushed st ++ [asItem g])
                    (Some (newGroup vw vh paraGapThreshold y st item))
                    y (transform4 item)
  | None =>
      mkCursor (pushed st)
               (Some (newGroup vw vh paraGapThreshold y st item))
               y (transform4 item)
  end.

(** The body of [sortedY.forEach]: [currentGroup] starts as [null]. *)
Definition processLine (vw vh paraGapThreshold : Q) (runs : list Run)
           (st : Cursor) (y : Q) : Cursor :=
  fold_left (processRun vw vh paraGapThreshold y) (lineItems runs y)
            (mkCursor (pageItems st) None (previousY st) (previousX st)).

(** The text items of a page [vw] by [vh], from its runs. *)
Definition groupText (vw vh : Q) (content : list Run) : list PdfItem :=
  let runs := filter (fun r => negb (isBlank (str r))) content in
  let sortedY := sortedKeys runs in
  let stats := Stats.calculateLineSpacingStats sortedY in
  pageItems
    (fold_left (processLine vw vh (Stats.paraGapThreshold stats) runs)
               sortedY (mkCursor [] None (-1) (-1))).

(** *** Vocabulary of the specification *)

(** [it] is a text item started by a run [r] of the page: it has the
    run's left edge, its text begins with the run's text, and its
    alignment is the one decided for that run alone. *)
Definition StartedBy (vw : Q) (content : list Run) (it : PdfItem) : Prop :=
  exists g p r suffix,
    it = mkItem g (Text p) /\ In r content /\
    x g = transform4 r /\ text p = str r ++ suffix /\
    alignment p = alignmentFor vw (transform4 r) (runWidth r).

(** The invariant of the loop: every item pushed so far is started by
    a run of the page. *)
Definition wellStarted (vw : Q) (content : list Run) (st : Cursor) : Prop :=
  Forall (StartedBy vw content) (pageItems st).

(** A produced item is a text item whose text is not blank, with a font
    name, and with the indent the grouper allows: none, or one strictly
    between 10 and 80 on an item that starts a paragraph. *)
Definition groupedText (it : PdfItem) : Prop :=
  exists g p d,
    it = mkItem g (Text p) /\
    isBlank (text p) = false /\ fontName p <> [] /\
    indent p = Some d /\
    (d = 0 \/ (10 < d /\ d < 80 /\ isParagraphStart p = Some true)).

(** Nothing is produced yet, or the first item produced starts a
    paragraph without indent. *)
Definition opensParagraph (st : Cursor) : Prop :=
  (pageItems st = [] /\ Num.eqb (previousY st) (-1) = true /\
   Num.eqb (previousX st) (-1) = true) \/
  (exists g p rest,
     pageItems st = mkItem g (Text p) :: rest /\
     isParagraphStart p = Some true /\ indent p = Some 0).

(** Two runs on one line, close enough to be fused; the first alone is
    centred on a page 600 wide. *)
Definition helloWorld : list Run :=
  [mkRun (lit "Hello") 280 700 12 40 (lit "F");
   mkRun (lit "world") 325 700 12 30 (lit "F")].

(** The runs that are not blank, and the order in which the loops take
    them: the lines from the greatest key down, each from left to right. *)
Definition kept (content : list Run) : list Run :=
  filter (fun r => negb (isBlank (str r))) content.

Definition processed (content : list Run) : list Run :=
  flat_map (lineItems (kept content)) (sortedKeys (kept content)).

(** [t] is [acc] followed by the texts of [rs] in order, each after one
    space or none. *)
Fixpoint gluedFrom (acc : jsstring) (rs : list Run) (t : jsstring) : Prop :=
  match rs with
  | [] => t = acc
  | r :: rs' =>
      gluedFrom (acc ++ str r) rs' t
      \/ gluedFrom ((acc ++ [space]) ++ str r) rs' t
  end.

(** The item is the text of the runs of [seg], in order, and starts where
    the first of them starts. *)
Definition madeOf (seg : list Run) (it : PdfItem) : Prop :=
  match seg, detail it with
  | r :: rest, Text p =>
      x (geom it) = transform4 r /\ gluedFrom (str r) rest (text p)
  | _, _ => False
  end.

(** [a] comes before [b] in reading order: it is on a line with a
    greater key, or on the same line and not right of [b]. *)
Definition precedes (a b : Run) : Prop :=
  lineKey b < lineKey a
  \/ (lineKey a == lineKey b /\ transform4 a <= transform4 b).

(** Every run of the list precedes all the runs after it. *)
Fixpoint inReadingOrder (l : list Run) : Prop :=
  match l with
  | [] => True
  | a :: tl => Forall (precedes a) tl /\ inReadingOrder tl
  end.

(** The keys descend strictly. *)
Fixpoint descending (keys : list Q) : Prop :=
  match keys with
  | [] => True
  | k :: keys' => Forall (fun k' => k' < k) keys' /\ descending keys'
  end.

(** The items so far are made of the runs taken so far, cut into
    segments. *)
Definition segmented (st : Cursor) (taken : list Run) : Prop :=
  exists segs, concat segs = taken /\ Forall2 madeOf segs (pageItems st).

(** No two keys of the list are equal. *)
Fixpoint apart (keys : list Q) : Prop :=
  match keys with
  | [] => True
  | k :: keys' => Forall (fun k' => Num.eqb k k' = false) keys' /\ apart keys'
  end.

(** The runs of [runs] on the lines of [keys], line by line. *)
Definition byLine (keys : list Q) (runs : list Run) : list Run :=
  flat_map (fun y => filter (fun r => Num.eqb (lineKey r) y) runs) keys.

Definition onLines (keys : list Q) (r : Run) : bool :=
  existsb (Num.eqb (lineKey r)) keys.

End LineGrouper.

(* ================================================================== *)
(** ** Auto-fit of a text item ([renderStructureToElement]) *)

Module AutoFit.

Import T Str.
Local Open Scope R_scope.

Section Renderer.

(** [measureTextWidth(text, fontStack, fontSize, isBold)] for the font
    stack in use: the canvas measurement is not part of the program. *)
Variable measureTextWidth : jsstring -> R -> bool -> R.
Variable scale : R.
Variable userLineSpacing : R.

Definition scaled (val : Q) : R := Q2R val * scale.

(** [!!item.isBold]. *)
Definition truthy (b : option bool) : bool :=
  match b with Some true => true | _ => false end.

Definition estimatedLines (t : jsstring) (bold : bool)
           (containerW scaledFontSize : R) : Z :=
  Zceil (measureTextWidth t scaledFontSize bold / (containerW * 0.95)).

Definition requiredHeight (t : jsstring) (bold : bool)
           (containerW scaledFontSize : R) : R :=
  IZR (estimatedLines t bold containerW scaledFontSize)
  * (scaledFontSize * userLineSpacing).

(** The value of [scaledFontSize] after the two tests. *)
Definition fitFontSize (t : jsstring) (bold : bool)
           (containerW containerH scaledFontSize : R) : R :=
  let fullTextWidth := measureTextWidth t scaledFontSize bold in
  let lines := estimatedLines t bold containerW scaledFontSize in
  let required := requiredHeight t bold containerW scaledFontSize in
  if Rlt_dec (containerH * 1.1) required then
    Rmax (scaledFontSize * sqrt (containerH / required)) (scaledFontSize * 0.6)
  else if Z.eq_dec lines 1 then
    if Rlt_dec containerW fullTextWidth then
      Rmax (scaledFontSize * (containerW / fullTextWidth)) (scaledFontSize * 0.6)
    else scaledFontSize
  else scaledFontSize.

(** The font size a text item is drawn with. *)
Definition itemFontSize (g : Geometry) (p : TextProps) : R :=
  fitFontSize (text p) (truthy (isBold p))
              (scaled (width g)) (scaled (height g)) (scaled (fontSize p)).

End Renderer.

(** A measurement for examples: half the font size for each character. *)
Definition halfEm (t : jsstring) (size : R) (bold : bool) : R :=
  size * 0.5 * INR (length t).

End AutoFit.

(* ================================================================== *)
(** ** Translation of a structure ([translatePdfStructure]) *)

Module Translate.

Import T Str.

(** What one guarded call of the translation service comes to.  A call
    either throws, fatally ([GeminiError] with code [FATAL]) or not
    (any other error, an empty response for a batch, unparseable JSON), or
    yields parsed JSON: for a batch an array, of strings by the response
    schema, or something that is not an array; for a table its new rows.
    The parsed answer for a table is stored as the rows without a test
    (an empty response stores no rows); the response schema makes it an
    array of rows, and an answer of another shape would leave the typed
    document model, so [TableReply] has no case for it and no statement
    is made about it. *)
Inductive TextReply :=
| TextThrows (fatal : bool)
| TextArray (translatedBatch : list jsstring)
| TextNotArray.

Inductive TableReply :=
| TableThrows (fatal : bool)
| TableRows (rows : list PdfTableRow).

(** A computation that returns or rethrows the fatal error. *)
Inductive Outcome (A : Type) :=
| Returned (a : A)
| Thrown.

Arguments Returned {A} a.
Arguments Thrown {A}.

Definition bind {A B} (m : Outcome A) (k : A -> Outcome B) : Outcome B :=
  match m with
  | Returned a => k a
  | Thrown => Thrown
  end.

Notation "x <- m ;; k" := (bind m (fun x => k))
  (at level 61, m at next level, right associativity).

Definition BATCH_SIZE : nat := 40.

(** [(pageItems[idx] as PdfTextItem).text = t]; [idx] always comes from
    [textIndices], which lists text items only. *)
Definition setText (t : jsstring) (i : PdfItem) : PdfItem :=
  match detail i with
  | Text p =>
      mkItem (geom i)
        (Text (mkTextProps t (fontSize p) (fontName p) (isBold p)
                 (letterSpacing p) (isParagraphStart p) (indent p)
                 (alignment p)))
  | _ => i
  end.

(** [(pageItems[idx] as PdfTableItem).rows = rows], on a table item. *)
Definition setRows (rows : list PdfTableRow) (i : PdfItem) : PdfItem :=
  match detail i with
  | Table _ hasBorders => mkItem (geom i) (Table rows hasBorders)
  | _ => i
  end.

Fixpoint update (idx : nat) (f : PdfItem -> PdfItem) (l : list PdfItem)
         {struct l} : list PdfItem :=
  match l, idx with
  | [], _ => []
  | i :: l', O => f i :: l'
  | i :: l', S n => i :: update n f l'
  end.

(** The first [forEach]: the indices and texts of the text items whose
    text is not blank. *)
Fixpoint collectTexts (idx : nat) (pageItems : list PdfItem)
  : list (nat * jsstring) :=
  match pageItems with
  | [] => []
  | i :: rest =>
      match detail i with
      | Text p =>
          match trim (text p) with
          | [] => collectTexts (S idx) rest
          | _ => (idx, text p) :: collectTexts (S idx) rest
          end
      | _ => collectTexts (S idx) rest
      end
  end.

(** The values of [i] in [for (i = 0; i < n; i += BATCH_SIZE)]. *)
Definition batchStarts (n : nat) : list nat :=
  map (fun k => k * BATCH_SIZE)%nat (seq 0 ((n + BATCH_SIZE - 1) / BATCH_SIZE)).

(** [translatedBatch.forEach((text, bIdx) => ...)]: with [limit], only
    positions below it are written (the branch for a length mismatch). *)
Definition assign (textIndices : list nat) (i : nat) (limit : option nat)
           (translatedBatch : list jsstring) (pageItems : list PdfItem)
  : list PdfItem :=
  fold_left
    (fun items '(bIdx, t) =>
       let inside :=
         match limit with Some n => (bIdx <? n)%nat | None => true end in
       if inside then
         match nth_error textIndices (i + bIdx) with
         | Some originalIdx => update originalIdx (setText t) items
         | None => items
         end
       else items)
    (combine (seq 0 (length translatedBatch)) translatedBatch)
    pageItems.

Section Service.

(** The translation service, by the position of the call: page index and
    batch start for text, page index and item index for a table. *)
Variable translateBatch : nat -> nat -> list jsstring -> TextReply.
Variable translateTable : nat -> nat -> list PdfTableRow -> TableReply.

(** One iteration of the batch loop. *)
Definition textStep (pIdx : nat) (textIndices : list nat)
           (textContents : list jsstring) (pageItems : list PdfItem) (i : nat)
  : Outcome (list PdfItem) :=
  let batch := firstn BATCH_SIZE (skipn i textContents) in
  match translateBatch pIdx i batch with
  | TextThrows true => Thrown
  | TextThrows false => Returned pageItems
  | TextNotArray => Returned pageItems
  | TextArray translatedBatch =>
      if (length translatedBatch =? length batch)%nat
      then Returned (assign textIndices i None translatedBatch pageItems)
      else Returned
             (assign textIndices i (Some (length batch)) translatedBatch pageItems)
  end.

Fixpoint textLoop (pIdx : nat) (textIndices : list nat)
         (textContents : list jsstring) (starts : list nat)
         (pageItems : list PdfItem) : Outcome (list PdfItem) :=
  match starts with
  | [] => Returned pageItems
  | i :: rest =>
      items' <- textStep pIdx textIndices textContents pageItems i ;;
      textLoop pIdx textIndices textContents rest items'
  end.

(** One iteration of the table loop, at index [i]. *)
Definition tableStep (pIdx : nat) (pageItems : list PdfItem) (i : nat)
  : Outcome (list PdfItem) :=
  match nth_error pageItems i with
  | Some item =>
      match detail item with
      | Table rows _ =>
          match translateTable pIdx i rows with
          | TableThrows true => Thrown
          | TableThrows false => Returned pageItems
          | TableRows rows' => Returned (update i (setRows rows') pageItems)
          end
      | _ => Returned pageItems
      end
  | None => Returned pageItems
  end.

Fixpoint tableLoop (pIdx : nat) (indices : list nat)
         (pageItems : list PdfItem) : Outcome (list PdfItem) :=
  match indices with
  | [] => Returned pageItems
  | i :: rest =>
      items' <- tableStep pIdx pageItems i ;;
      tableLoop pIdx rest items'
  end.

(** The body of the loop over pages; [JSON.parse(JSON.stringify(...))]
    copies the items, which are values here. *)
Definition translatePage (pIdx : nat) (page : PdfPage) : Outcome PdfPage :=
  let pageItems := items page in
  let texts := collectTexts 0 pageItems in
  let textIndices := map fst texts in
  let textContents := map snd texts in
  items1 <- textLoop pIdx textIndices textContents
                     (batchStarts (length textContents)) pageItems ;;
  items2 <- tableLoop pIdx (seq 0 (length items1)) items1 ;;
  Returned (mkPage items2 (pageWidth page) (pageHeight page)).

Fixpoint translatePages (pIdx : nat) (ps : list PdfPage)
  : Outcome (list PdfPage) :=
  match ps with
  | [] => Returned []
  | page :: rest =>
      page' <- translatePage pIdx page ;;
      newPages <- translatePages (S pIdx) rest ;;
      Returned (page' :: newPages)
  end.

Definition translatePdfStructure (structure : PdfStructure)
  : Outcome PdfStructure :=
  newPages <- translatePages 0 (pages structure) ;;
  Returned (mkStructure newPages).

End Service.

(** What translation leaves alone in an item: everything but the text
    of a text item and the rows of a table. *)
Definition sameFrame (a b : PdfItem) : Prop :=
  type a = type b /\ geom a = geom b /\
  match detail a, detail b with
  | Text p, Text q =>
      fontSize p = fontSize q /\ fontName p = fontName q /\
      isBold p = isBold q /\ letterSpacing p = letterSpacing q /\
      isParagraphStart p = isParagraphStart q /\ indent p = indent q /\
      alignment p = alignment q
  | Table _ hb, Table _ hb' => hb = hb'
  | da, db => da = db
  end.

Definition samePageFrame (p q : PdfPage) : Prop :=
  pageWidth p = pageWidth q /\ pageHeight p = pageHeight q /\
  Forall2 sameFrame (items p) (items q).

(** The service never fails fatally. *)
Definition neverFatal (translateBatch : nat -> nat -> list jsstring -> TextReply)
           (translateTable : nat -> nat -> list PdfTableRow -> TableReply)
  : Prop :=
  (forall pIdx i batch, translateBatch pIdx i batch <> TextThrows true) /\
  (forall pIdx i rows, translateTable pIdx i rows <> TableThrows true).

(** *** Vocabulary of the specification *)



(** A service that translates every text by [f] and every table by [g],
    and what such a translation makes of an item. *)
Definition eachText (f : jsstring -> jsstring)
           (pIdx i : nat) (batch : list jsstring) : TextReply :=
  TextArray (map f batch).

Definition eachTable (g : list PdfTableRow -> list PdfTableRow)
           (pIdx i : nat) (rows : list PdfTableRow) : TableReply :=
  TableRows (g rows).

Definition textThrough (f : jsstring -> jsstring) (i : PdfItem) : PdfItem :=
  match detail i with
  | Text p => match trim (text p) with [] => i | _ => setText (f (text p)) i end
  | _ => i
  end.

Definition tableThrough (g : list PdfTableRow -> list PdfTableRow)
           (i : PdfItem) : PdfItem :=
  match detail i with
  | Table rows _ => setRows (g rows) i
  | _ => i
  end.

Definition pageThrough (f : jsstring -> jsstring)
           (g : list PdfTableRow -> list PdfTableRow) (page : PdfPage)
  : PdfPage :=
  mkPage (map (fun i => tableThrough g (textThrough f i)) (items page))
         (pageWidth page) (pageHeight page).

(** The writes of a run of index and text pairs, in order. *)
Definition applyAll (f : jsstring -> jsstring)
           (pairs : list (nat * jsstring)) (pageItems : list PdfItem)
  : list PdfItem :=
  fold_left (fun its '(idx, t) => update idx (setText (f t)) its)
            pairs pageItems.

(** The batches of the loop over [textContents]. *)
Definition batches (textContents : list jsstring) : list (list jsstring) :=
  map (fun i => firstn BATCH_SIZE (skipn i textContents))
      (batchStarts (length textContents)).

(** A page with a text, an image and a table, and three services: one
    that answers every text with the same word and every table with one
    cell, one that answers a batch with a single word, and one that
    always fails fatally. *)
Definition samplePage : PdfPage :=
  mkPage
    [Merger.line "Hello" 50 100 200 12 12;
     mkItem (mkGeometry 0 200 90 90) (Image (lit "placeholder"));
     mkItem (mkGeometry 50 300 500 50)
            (Table [mkRow [mkCell (lit "yes") (Some true) None None None]] true);
     Merger.line "World" 50 400 200 12 12]
    600 800.

Definition echoBatch (pIdx i : nat) (batch : list jsstring) : TextReply :=
  TextArray (map (fun _ => lit "Bonjour") batch).

Definition shortBatch (pIdx i : nat) (batch : list jsstring) : TextReply :=
  TextArray [lit "Bonjour"].

Definition fatalBatch (pIdx i : nat) (batch : list jsstring) : TextReply :=
  TextThrows true.

Definition echoTable (pIdx i : nat) (rows : list PdfTableRow) : TableReply :=
  TableRows [mkRow [mkCell (lit "oui") (Some true) None None None]].

End Translate.

(* ================================================================== *)
(** ** One page of [extractPdfStructure] *)

Module PagePipeline.

Import T Str.

(** One entry of the operator list: [fnArray[j]] with [argsArray[j]].
    Only a transform and the two image-painting operators are looked
    at. *)
Inductive Op :=
| OpTransform (a b c d tx ty : Q)
| OpPaintImage
| OpOther.

(** [currentTransform], as the six numbers of the last transform. *)
Record Matrix := mkMatrix { m0 : Q; m1 : Q; m2 : Q; m3 : Q; m4 : Q; m5 : Q }.

Definition identity : Matrix := mkMatrix 1 0 0 1 0 0.

(** The image pushed for a painting operator under [currentTransform]. *)
Definition imageItem (vh : Q) (t : Matrix) : PdfItem :=
  let imgW := Num.abs (m0 t) in
  let imgH := Num.abs (m3 t) in
  mkItem (mkGeometry (m4 t) (vh - m5 t - imgH) imgW imgH)
         (Image (lit "placeholder")).

(** The loop over the operator list. *)
Fixpoint imageItems (vh : Q) (currentTransform : Matrix) (ops : list Op)
  : list PdfItem :=
  match ops with
  | [] => []
  | OpTransform a b c d tx ty :: rest =>
      imageItems vh (mkMatrix a b c d tx ty) rest
  | OpPaintImage :: rest =>
      imageItem vh currentTransform :: imageItems vh currentTransform rest
  | OpOther :: rest => imageItems vh currentTransform rest
  end.

(** The body of the loop over pages, from the viewport, the text content
    and the operator list: group, collect images, reorder, merge. *)
Definition extractPage (vw vh : Q) (content : list LineGrouper.Run)
           (ops : list Op) : option PdfPage :=
  let pageItems :=
    LineGrouper.groupText vw vh content ++ imageItems vh identity ops in
  match ReadingOrder.reorderItemsByReadingFlow pageItems with
  | Some sortedPageItems =>
      Some (mkPage (Merger.mergeTextBlocks sortedPageItems) vw vh)
  | None => None
  end.

(** Runs as the extractor supplies them: widths and font sizes are not
    negative. *)
Definition plainRun (r : LineGrouper.Run) : Prop :=
  0 <= LineGrouper.runWidth r /\ 0 <= LineGrouper.glyphSize r.

End PagePipeline.

(* ================================================================== *)
(** ** Calls of the service with retries ([callGeminiWithRetry]) *)

Module Retry.

Import Str.

(** [s.includes(needle)]. *)
Fixpoint startsWith (needle s : jsstring) : bool :=
  match needle, s with
  | [], _ => true
  | _ :: _, [] => false
  | c :: needle', d :: s' => (c =? d)%N && startsWith needle' s'
  end.

Fixpoint includes (needle s : jsstring) : bool :=
  startsWith needle s
  || match s with
     | [] => false
     | _ :: s' => includes needle s'
     end.

(** What the handler reads of a caught error: [status], the first of
    [err.status], [err.error.code], [err.response.status] that is set
    (a number here), and [msg], the lower-cased message. *)
Record ApiError := mkError {
  status : option Z;
  msg : jsstring
}.

Definition statusIs (e : ApiError) (n : Z) : bool :=
  match status e with Some k => (k =? n)%Z | None => false end.

Definition mentions (e : ApiError) (needle : string) : bool :=
  includes (lit needle) (msg e).

(** The test before [throw new GeminiError(..., "FATAL", err)]. *)
Definition isFatal (e : ApiError) : bool :=
  statusIs e 401 || statusIs e 403 || statusIs e 400
  || mentions e "safety" || mentions e "blocked".

Definition isRateLimit (e : ApiError) : bool :=
  statusIs e 429 || mentions e "quota" || mentions e "rate limit".

Definition isServerIssue (e : ApiError) : bool :=
  match status e with Some k => (500 <=? k)%Z | None => false end
  || mentions e "overloaded" || mentions e "unavailable".

Definition isNetwork (e : ApiError) : bool :=
  mentions e "network" || mentions e "fetch".

Definition isRetryable (e : ApiError) : bool :=
  isRateLimit e || isServerIssue e || isNetwork e.

Inductive Code := FATAL | ERROR | RETRY_LIMIT_EXCEEDED.

(** What a call of [fn] comes to. *)
Inductive Attempt (A : Type) :=
| Resolved (a : A)
| Rejected (e : ApiError).

Arguments Resolved {A} a.
Arguments Rejected {A} e.

(** How [callGeminiWithRetry] ends: with the value of [fn], with a
    [GeminiError] of some code for an original error, or, when no call was
    made at all, with the [TypeError] of [mapGeminiError(undefined)]. *)
Inductive Ending (A : Type) :=
| Value (a : A)
| Raised (code : Code) (originalError : ApiError)
| TypeError.

Arguments Value {A} a.
Arguments Raised {A} code originalError.
Arguments TypeError {A}.

(** The statement after the loop. *)
Definition limitExceeded {A} (lastError : option ApiError) : Ending A :=
  match lastError with
  | Some e => Raised RETRY_LIMIT_EXCEEDED e
  | None => TypeError
  end.

Section Loop.

Variable A : Type.
(** [fn], by the number of calls made before. *)
Variable fn : nat -> Attempt A.
Variable maxRetries : nat.

(** The loop from [i] with [remaining] iterations to go; the result comes
    with the number of calls of [fn] made. *)
Fixpoint retryFrom (remaining i : nat) (lastError : option ApiError)
  : Ending A * nat :=
  match remaining with
  | O => (limitExceeded lastError, O)
  | S remaining' =>
      match fn i with
      | Resolved a => (Value a, 1%nat)
      | Rejected e =>
          if isFatal e then (Raised FATAL e, 1%nat)
          else if isRetryable e then
            if (i =? maxRetries - 1)%nat
            then (limitExceeded (Some e), 1%nat)
            else let (ending, calls) := retryFrom remaining' (S i) (Some e) in
                 (ending, S calls)
          else if (2 <=? i)%nat then (Raised ERROR e, 1%nat)
          else let (ending, calls) := retryFrom remaining' (S i) (Some e) in
               (ending, S calls)
      end
  end.

Definition callGeminiWithRetry : Ending A * nat :=
  retryFrom maxRetries 0 None.

(** The calls from [i] up to [k] were all answered by an error that the
    loop retries: not fatal, and transient or among the first two. *)
Definition retriedBefore (i k : nat) : Prop :=
  forall j, (i <= j < k)%nat ->
    exists e, fn j = Rejected e /\ isFatal e = false
              /\ (isRetryable e = true \/ (j < 2)%nat).

(** What an ending says about the last call made, number [last]. *)
Definition endsAt (last : nat) (ending : Ending A) : Prop :=
  match ending with
  | Value a => fn last = Resolved a
  | Raised FATAL e => fn last = Rejected e /\ isFatal e = true
  | Raised ERROR e =>
      fn last = Rejected e /\ isFatal e = false /\ isRetryable e = false
      /\ (2 <= last)%nat
  | Raised RETRY_LIMIT_EXCEEDED e =>
      fn last = Rejected e /\ isFatal e = false
      /\ (isRetryable e = true \/ (last < 2)%nat)
      /\ S last = maxRetries
  | TypeError => False
  end.

Definition loopSpec (i remaining : nat) (lastError : option ApiError)
           (r : Ending A * nat) : Prop :=
  match snd r with
  | O => remaining = O /\ fst r = limitExceeded lastError
  | S k => (S k <= remaining)%nat /\ retriedBefore i (i + k)
           /\ endsAt (i + k) (fst r)
  end.

End Loop.

Arguments retryFrom {A} fn maxRetries remaining i lastError.
Arguments callGeminiWithRetry {A} fn maxRetries.
Arguments retriedBefore {A} fn i k.
Arguments endsAt {A} fn maxRetries last ending.
Arguments loopSpec {A} fn maxRetries i remaining lastError r.

(** A service that always answers with the same error, and three errors. *)
Definition alwaysRejects (A : Type) (e : ApiError) : nat -> Attempt A :=
  fun _ => Rejected e.

Definition overloaded : ApiError := mkError (Some 503%Z) (lit "overloaded").
Definition oddError : ApiError := mkError None (lit "something odd").

End Retry.

(* ================================================================== *)
(** ** Language detection ([detectScriptBasedLanguage],
       [detectLanguageFromStructure]) *)

Module Detect.

Import Str T.

(** A character class [[\ulo-\uhi]]. *)
Definition between (lo hi : N) (c : jschar) : bool :=
  ((lo <=? c) && (c <=? hi))%N.

(** [[a-zA-Z]]. *)
Definition isLatin (c : jschar) : bool :=
  between 97 122 c || between 65 90 c.

(** [[a-zA-Z\u0900-\u0D7F]]. *)
Definition isRelevant (c : jschar) : bool :=
  isLatin c || between 0x0900 0x0D7F c.

Record Script := mkScript {
  name : jsstring;
  regex : jschar -> bool;
  count : nat
}.

Definition unknown : jsstring := lit "Unknown".

Definition scripts : list Script :=
  [ mkScript (lit "Hindi") (between 0x0900 0x097F) 0;
    mkScript (lit "Bengali") (between 0x0980 0x09FF) 0;
    mkScript (lit "Tamil") (between 0x0B80 0x0BFF) 0;
    mkScript (lit "Telugu") (between 0x0C00 0x0C7F) 0;
    mkScript (lit "Gujarati") (between 0x0A80 0x0AFF) 0;
    mkScript (lit "Malayalam") (between 0x0D00 0x0D7F) 0;
    mkScript (lit "Kannada") (between 0x0C80 0x0CFF) 0;
    mkScript (lit "Punjabi") (between 0x0A00 0x0A7F) 0;
    mkScript (lit "Odia") (between 0x0B00 0x0B7F) 0;
    mkScript (lit "English") isLatin 0 ].

(** [if (script.regex.test(char)) script.count++]. *)
Definition bump (c : jschar) (s : Script) : Script :=
  if regex s c then mkScript (name s) (regex s) (S (count s)) else s.

(** The two nested loops over the sample and the scripts. *)
Definition tally (sample : jsstring) : list Script :=
  fold_left (fun scs c => map (bump c) scs) sample scripts.

(** [text.replace(/[^a-zA-Z\u0900-\u0D7F]/g, '').slice(0, 1000)]. *)
Definition cleaned (text : jsstring) : jsstring :=
  firstn 1000 (filter isRelevant text).

(** [(a, b) => b.count - a.count]. *)
Definition byCount (a b : Script) : Q :=
  inject_Z (Z.of_nat (count b)) - inject_Z (Z.of_nat (count a)).

(** The table of scripts is not empty, so the sorted array has a first
    element. *)
Definition detectScriptBasedLanguage (text : jsstring) : jsstring :=
  match jsSort byCount (tally (cleaned text)) with
  | best :: _ => if (5 <? count best)%nat then name best else unknown
  | [] => unknown
  end.

(** The characters of a script among those looked at. *)
Definition countIn (s : Script) (text : jsstring) : nat :=
  length (filter (regex s) (cleaned text)).

(** The count of a script after the loops. *)
Definition counted (sample : jsstring) (s : Script) : Script :=
  mkScript (name s) (regex s) (count s + length (filter (regex s) sample)).

(** The first element after the sort has the greatest count. *)
Definition headGreatest (l : list Script) : Prop :=
  match l with
  | [] => True
  | b :: tl => Forall (fun s => (count s <= count b)%nat) tl
  end.

Definition maxChars : nat := 4000.

(** [item.type === 'text' && item.text], then the test of
    [/[a-zA-Z\u0900-\u0D7F]/]. *)
Definition sampled (item : PdfItem) : option jsstring :=
  match detail item with
  | Text p =>
      match text p with
      | [] => None
      | _ => if existsb isRelevant (text p) then Some (text p) else None
      end
  | _ => None
  end.

(** The loop over the items of a page, with its [break]. *)
Fixpoint sampleItems (l : list PdfItem) (sample : jsstring) : jsstring :=
  match l with
  | [] => sample
  | item :: rest =>
      let sample' :=
        match sampled item with
        | Some t => sample ++ t ++ [space]
        | None => sample
        end in
      if (maxChars <=? length sample')%nat then sample'
      else sampleItems rest sample'
  end.

(** The loop over the pages, with its [break]. *)
Fixpoint samplePages (l : list PdfPage) (sample : jsstring) : jsstring :=
  match l with
  | [] => sample
  | page :: rest =>
      let sample' := sampleItems (items page) sample in
      if (maxChars <=? length sample')%nat then sample'
      else samplePages rest sample'
  end.

Definition sampleText (structure : PdfStructure) : jsstring :=
  trim (samplePages (firstn 4 (pages structure)) []).

(** What the call of the service comes to: [Failed] when
    [callGeminiWithRetry] throws, the response has no text or
    [JSON.parse] throws; otherwise the two fields of the parsed object. *)
Inductive Reply :=
| Failed
| Answered (language : jsstring) (confidence : Q).

Record Detection := mkDetection {
  language : jsstring;
  confidence : Q
}.

(** [if (scriptLang !== 'Unknown') return {language: scriptLang,
    confidence}], and what follows it. *)
Definition orScript (sample : jsstring) (conf : Q) (otherwise : Detection)
  : Detection :=
  let scriptLang := detectScriptBasedLanguage sample in
  if negb (eqb scriptLang unknown) then mkDetection scriptLang conf
  else otherwise.

Section Service.

(** The service, by the sample sent. *)
Variable ai : jsstring -> Reply.

Definition detectLanguageFromStructure (structure : PdfStructure)
  : Detection :=
  let sample := sampleText structure in
  if (length sample <? 5)%nat
  then orScript sample (5 # 10) (mkDetection unknown 0)
  else
    match ai (firstn 4000 sample) with
    | Answered l c =>
        if eqb l unknown || Num.ltb c (4 # 10)
        then orScript sample (8 # 10) (mkDetection l c)
        else mkDetection l c
    | Failed => orScript sample (7 # 10) (mkDetection unknown 0)
    end.

End Service.

(** A page with one text item, and two services. *)
Definition pageOf (t : jsstring) : PdfStructure :=
  mkStructure
    [ mkPage [ mkItem (mkGeometry 50 50 100 12)
                      (Text (mkTextProps t 12 (lit "F") None None None None None)) ]
             595 842 ].

Definition noService : jsstring -> Reply := fun _ => Failed.
Definition unsureService : jsstring -> Reply := fun _ => Answered unknown 0.

End Detect.

(* ================================================================== *)
(** ** The text of a response ([sanitizeJsonResponse]) *)

Module Response.

Import Str.

Definition backtick : jschar := 96%N.
Definition fence : jsstring := [backtick; backtick; backtick].

(** [(?:json)?] under the flag [i]: the four letters in either case, when
    they are there. *)
Definition isJsonTag (tag : jsstring) : bool :=
  match tag with
  | [j; s; o; n] =>
      isLetter 106 j && isLetter 115 s && isLetter 111 o && isLetter 110 n
  | _ => false
  end.

Definition dropJson (s : jsstring) : jsstring :=
  if isJsonTag (firstn 4 s) then skipn 4 s else s.

(** [cleaned.replace(/^```(?:json)?\s*/i, "")]. *)
Definition stripOpening (s : jsstring) : jsstring :=
  if Retry.startsWith fence s then trimStart (dropJson (skipn 3 s)) else s.

(** [cleaned.replace(/\s*```$/, "")]: the match is the fence that ends the
    string with all the white space before it. *)
Definition stripClosing (s : jsstring) : jsstring :=
  if Retry.startsWith fence (rev s)
  then trimEnd (firstn (length s - 3) s) else s.

Definition sanitizeJsonResponse (text : jsstring) : jsstring :=
  let cleaned := trim text in
  let cleaned :=
    if Retry.startsWith fence cleaned
    then stripClosing (stripOpening cleaned) else cleaned in
  trim cleaned.

(** White space only. *)
Definition blank (ws : jsstring) : bool := forallb isSpace ws.

(** A string that neither begins nor ends with white space. *)
Definition tight (s : jsstring) : bool :=
  match s with c :: _ => negb (isSpace c) | [] => true end
  && match rev s with c :: _ => negb (isSpace c) | [] => true end.

(** What follows the opening fence: the tag [json], or no tag and then
    something that does not begin with a j. *)
Definition opening (tag after : jsstring) : bool :=
  isJsonTag tag
  || match tag, after with
     | [], c :: _ => negb (isLetter 106 c)
     | [], [] => true
     | _ :: _, _ => false
     end.

End Response.

(* ================================================================== *)
(** ** The preview's page and zoom ([InlinePreview]) *)

Module Preview.

Import T.

Inductive ViewMode := single | scroll.

Record View := mkView {
  currentPage : Z;
  zoom : Q
}.

(** [useState(1)], [useState(1.0)]. *)
Definition initial : View := mkView 1 1.

(** [Math.min(Math.max(1, currentPage), totalPages)]. *)
Definition safePage (totalPages currentPage : Z) : Z :=
  Z.min (Z.max 1 currentPage) totalPages.

(** [pages[i]]: [undefined] outside the array. *)
Definition pageAt (l : list PdfPage) (i : Z) : option PdfPage :=
  if (i <? 0)%Z then None else nth_error l (Z.to_nat i).

(** The pages of [displayStructure]. *)
Definition displayStructure (structure : PdfStructure) (viewMode : ViewMode)
           (currentPage : Z) : list (option PdfPage) :=
  match viewMode with
  | scroll => map Some (pages structure)
  | single =>
      let totalPages := Z.of_nat (length (pages structure)) in
      [pageAt (pages structure) (safePage totalPages currentPage - 1)]
  end.

Inductive Handler := goToNext | goToPrev | zoomIn | zoomOut.

Definition handle (totalPages : Z) (v : View) (h : Handler) : View :=
  match h with
  | goToNext => mkView (Z.min totalPages (currentPage v + 1)) (zoom v)
  | goToPrev => mkView (Z.max 1 (currentPage v - 1)) (zoom v)
  | zoomIn => mkView (currentPage v) (Num.min 3 (zoom v + (25 # 100)))
  | zoomOut => mkView (currentPage v) (Num.max (5 # 10) (zoom v - (25 # 100)))
  end.

(** The view after a sequence of clicks on a document of [totalPages]
    pages. *)
Definition after (totalPages : Z) (clicks : list Handler) : View :=
  fold_left (handle totalPages) clicks initial.

(** What every click keeps: a page of the document, and a zoom that is a
    number of quarters from 50% to 300%. *)
Definition inRange (totalPages : Z) (v : View) : Prop :=
  (1 <= currentPage v <= totalPages)%Z
  /\ exists k : Z, (2 <= k <= 12)%Z /\ zoom v == inject_Z k * (25 # 100).

(** A document of [n] pages, each 100 by 100 with no item. *)
Definition blankPages (n : nat) : PdfStructure :=
  mkStructure (repeat (mkPage [] 100 100) n).

(** What [calculateScale] sets. *)
Record Layout := mkLayout {
  finalScale : Q;
  visualWidth : Q;
  marginLeft : Q
}.

Section Rounding.

(** The arithmetic of this function does not stay exact on doubles even
    for whole-number widths (the quotient of two widths is rounded, and
    so is its product with a width), so each operation is followed by
    the rounding [fl] of its exact result to a double. *)
Variable fl : Q -> Q.

Definition calculateScale (naturalWidth clientWidth zoom : Q) : Layout :=
  let availableWidth := fl (clientWidth - 32) in
  let baseScale := fl (availableWidth / naturalWidth) in
  let baseScale := Num.min 1 baseScale in
  let finalScale := fl (baseScale * zoom) in
  let visualWidth := fl (naturalWidth * finalScale) in
  mkLayout finalScale visualWidth
    (if Num.ltb visualWidth availableWidth
     then fl (fl (availableWidth - visualWidth) / 2) else 0).

End Rounding.

(** What is used of rounding to the nearest double: it keeps the order
    of numbers and leaves 0 and 1 as they are. *)
Definition rounds (fl : Q -> Q) : Prop :=
  (forall a b, a <= b -> fl a <= fl b) /\ fl 0 == 0 /\ fl 1 == 1.

(** A rounding to the nearest multiple of 1/1024, halves going up. *)
Definition toGrid (q : Q) : Q :=
  inject_Z (Qfloor (q * 1024 + (1 # 2))) / 1024.

End Preview.

(* ================================================================== *)
(** ** Word documents ([extractDocxStructure]) *)

Module Docx.

Import Str T.

Local Open Scope string_scope.

(** The nodes of the HTML that the converter gives: elements, with their
    upper-case [nodeName], the two attributes that are read and their
    children, and text nodes. *)
#[local] Unset Elimination Schemes.

Inductive Node :=
| Element (nodeName : string) (colspan rowspan : option jsstring)
          (childNodes : list Node)
| TextNode (data : jsstring).

#[local] Set Elimination Schemes.

Definition isNamed (n : string) (node : Node) : bool :=
  match node with
  | Element name _ _ _ => String.eqb name n
  | TextNode _ => false
  end.

(** [node.textContent]. *)
Fixpoint textContent (node : Node) : jsstring :=
  match node with
  | Element _ _ _ childNodes => flat_map textContent childNodes
  | TextNode data => data
  end.

(** The nodes below a node, in document order, as [querySelectorAll]
    visits them. *)
Fixpoint descendants (node : Node) : list Node :=
  match node with
  | Element _ _ _ childNodes =>
      flat_map (fun child => child :: descendants child) childNodes
  | TextNode _ => []
  end.

Definition querySelectorAll (matches : Node -> bool) (node : Node)
  : list Node :=
  filter matches (descendants node).

Definition pageWidth : Q := 59528 # 100.
Definition pageHeight : Q := 84189 # 100.
Definition margin : Q := 50.
Definition fontSize : Q := 12.
Definition lineHeight : Q := fontSize * (15 # 10).

(** [pages], [currentPageItems] and [currentY]. *)
Record DocState := mkDocState {
  pages : list PdfPage;
  currentPageItems : list PdfItem;
  currentY : Q
}.

Definition pushNewPage (st : DocState) : DocState :=
  mkDocState (pages st ++ [mkPage (currentPageItems st) pageWidth pageHeight])
             [] margin.

(** [if (currentY + extent > pageHeight - margin) pushNewPage()]. *)
Definition makeRoom (extent : Q) (st : DocState) : DocState :=
  if Num.ltb (pageHeight - margin) (currentY st + extent)
  then pushNewPage st else st.

Definition textItem (tagName : string) (txt : jsstring) (top : Q) : PdfItem :=
  mkItem (mkGeometry margin top (pageWidth - margin * 2) fontSize)
         (Text (mkTextProps txt fontSize (lit "sans-serif")
                  (Some (String.eqb tagName "STRONG" || String.eqb tagName "B"))
                  None (Some true) None None)).

Definition addParagraph (tagName : string) (txt : jsstring) (st : DocState)
  : DocState :=
  let st := makeRoom lineHeight st in
  mkDocState (pages st)
             (currentPageItems st ++ [textItem tagName txt (currentY st)])
             (currentY st + lineHeight).

Definition tableItem (rows : list PdfTableRow) (top h : Q) : PdfItem :=
  mkItem (mkGeometry margin top (pageWidth - margin * 2) h) (Table rows true).

Definition addTable (rows : list PdfTableRow) (st : DocState) : DocState :=
  let h := inject_Z (Z.of_nat (length rows)) * 25 in
  let st := makeRoom h st in
  mkDocState (pages st)
             (currentPageItems st ++ [tableItem rows (currentY st) h])
             (currentY st + (h + 20)).

Section Parsing.

(** [parseInt] on the text of an attribute. *)
Variable parseInt : jsstring -> Q.

(** [td.getAttribute(name) || '1']. *)
Definition orOne (attribute : option jsstring) : jsstring :=
  match attribute with
  | Some (c :: s) => c :: s
  | _ => lit "1"
  end.

Definition cellOf (td : Node) : PdfTableCell :=
  match td with
  | Element _ colspan rowspan _ =>
      mkCell (trim (textContent td)) (Some (isNamed "TH" td))
             (Some (parseInt (orOne colspan)))
             (Some (parseInt (orOne rowspan))) None
  | TextNode _ => mkCell (trim (textContent td)) (Some false) None None None
  end.

(** The loop over the [tr] of a table; a row without cell is left out. *)
Definition rowsOf (table : Node) : list PdfTableRow :=
  flat_map
    (fun tr =>
       match map cellOf
                 (querySelectorAll
                    (fun n => isNamed "TD" n || isNamed "TH" n) tr) with
       | [] => []
       | cells => [mkRow cells]
       end)
    (querySelectorAll (isNamed "TR") table).

Fixpoint processNode (st : DocState) (node : Node) {struct node} : DocState :=
  match node with
  | TextNode _ => st
  | Element name _ _ childNodes =>
      if String.eqb name "P" then
        match trim (textContent node) with
        | [] => st
        | txt => addParagraph name txt st
        end
      else if String.eqb name "TABLE" then
        match rowsOf node with
        | [] => st
        | rows => addTable rows st
        end
      else fold_left processNode childNodes st
  end.

(** From the children of [doc.body] to the structure. *)
Definition extractDocxStructure (body : list Node) : PdfStructure :=
  let st := fold_left processNode body (mkDocState [] [] margin) in
  mkStructure
    (match currentPageItems st, pages st with
     | [], _ :: _ => pages st
     | _, _ =>
         pages st ++ [mkPage (currentPageItems st) pageWidth pageHeight]
     end).

(** The paragraphs and tables of a document, in document order. *)
Inductive Block :=
| Paragraph (txt : jsstring)
| Grid (rows : list PdfTableRow).

Fixpoint blocksOf (node : Node) : list Block :=
  match node with
  | TextNode _ => []
  | Element name _ _ childNodes =>
      if String.eqb name "P" then
        match trim (textContent node) with
        | [] => []
        | txt => [Paragraph txt]
        end
      else if String.eqb name "TABLE" then
        match rowsOf node with
        | [] => []
        | rows => [Grid rows]
        end
      else flat_map blocksOf childNodes
  end.

End Parsing.

Definition blockOf (it : PdfItem) : option Block :=
  match detail it with
  | Text p => Some (Paragraph (text p))
  | Table rows _ => Some (Grid rows)
  | _ => None
  end.

(** The distance from the top of an item to the top of the next. *)
Definition advance (it : PdfItem) : Q :=
  match detail it with
  | Text _ => lineHeight
  | _ => height (geom it) + 20
  end.

(** The items of a page are placed one below the other from [top], each
    where the one before it ends its advance, down to [bottom]. *)
Fixpoint placed (top : Q) (l : list PdfItem) (bottom : Q) : Prop :=
  match l with
  | [] => bottom == top
  | it :: l' => y (geom it) == top /\ placed (top + advance it) l' bottom
  end.

(** What an item of a Word document is like. *)
Definition framed (it : PdfItem) : Prop :=
  x (geom it) = margin /\ width (geom it) = pageWidth - margin * 2
  /\ margin <= y (geom it)
  /\ match detail it with
     | Text p =>
         height (geom it) = fontSize /\ T.fontSize p = fontSize
         /\ text p <> [] /\ trim (text p) = text p
         /\ y (geom it) + lineHeight <= pageHeight - margin
         /\ isBold p = Some false /\ isParagraphStart p = Some true
     | Table rows hasBorders =>
         rows <> [] /\ hasBorders = true
         /\ height (geom it) == inject_Z (Z.of_nat (length rows)) * 25
         /\ (y (geom it) + height (geom it) <= pageHeight - margin
             \/ y (geom it) == margin)
     | _ => False
     end.

Definition wellPaged (page : PdfPage) : Prop :=
  T.pageWidth page = pageWidth /\ T.pageHeight page = pageHeight
  /\ Forall framed (items page)
  /\ exists bottom, placed margin (items page) bottom.

(** The state between two nodes. *)
Definition steady (st : DocState) : Prop :=
  Forall wellPaged (pages st)
  /\ Forall framed (currentPageItems st)
  /\ placed margin (currentPageItems st) (currentY st)
  /\ margin <= currentY st.

(** The items laid out so far, in the order of the pages. *)
Definition content (st : DocState) : list PdfItem :=
  flat_map items (pages st) ++ currentPageItems st.

(** The first item is a table of 30 rows or more: more than fits between
    the margins of a page. *)
Definition firstTall (l : list PdfItem) : bool :=
  match l with
  | it :: _ =>
      match detail it with
      | Table rows _ => (30 <=? length rows)%nat
      | _ => false
      end
  | [] => false
  end.

(** Which pages are empty, between two nodes. *)
Definition paging (st : DocState) : Prop :=
  (currentPageItems st = [] -> pages st = [] /\ currentY st == margin)
  /\ Forall (fun page => items page <> []) (tl (pages st))
  /\ match pages st with
     | [] => firstTall (currentPageItems st) = false
     | first :: _ => items first = [] <-> firstTall (content st) = true
     end.

(** The document has no paragraph and no table, or begins with a table of
    30 rows or more. *)
Definition startsTall (blocks : list Block) : Prop :=
  match blocks with
  | [] => True
  | Grid rows :: _ => (30 <= length rows)%nat
  | Paragraph _ :: _ => False
  end.

(** A document that is one table of [n] rows of one cell. *)
Definition tableOf (n : nat) : list Node :=
  [ Element "TABLE" None None
      (repeat (Element "TR" None None
                 [Element "TD" None None [TextNode (lit "a")]]) n) ].

End Docx.

(* ################################################################## *)
(** * Part II: properties *)

(* ================================================================== *)
(** ** Comparisons of rationals *)

Module NumFacts.

Import Num.

Lemma ltb_lt a b : ltb a b = true <-> a < b.
Proof.
  unfold ltb. rewrite negb_true_iff. split; intro H.
  - apply Qnot_le_lt. intro L. apply Qle_bool_iff in L. congruence.
  - destruct (Qle_bool b a) eqn:E; trivial.
    apply Qle_bool_iff in E. apply Qlt_not_le in H. contradiction.
Qed.

Lemma ltb_ge a b : ltb a b = false <-> b <= a.
Proof.
  unfold ltb. rewrite negb_false_iff. apply Qle_bool_iff.
Qed.

Lemma leb_le a b : leb a b = true <-> a <= b.
Proof. apply Qle_bool_iff. Qed.

Lemma ltb_cases a b :
  (ltb a b = true /\ a < b) \/ (ltb a b = false /\ b <= a).
Proof.
  destruct (ltb a b) eqn:E; [left | right]; split; trivial.
  - now apply ltb_lt.
  - now apply ltb_ge.
Qed.

Lemma abs_lt a c : abs a < c <-> - c < a /\ a < c.
Proof.
  unfold abs.
  destruct (ltb_cases a 0) as [[-> H] | [-> H]]; split; intros; Lqa.lra.
Qed.

Lemma abs_nonneg a : 0 <= abs a.
Proof.
  unfold abs. destruct (ltb_cases a 0) as [[-> H] | [-> H]]; Lqa.lra.
Qed.

Lemma max_cases a b : (max a b = b /\ a < b) \/ (max a b = a /\ b <= a).
Proof.
  unfold max. destruct (ltb_cases a b) as [[-> H] | [-> H]]; auto.
Qed.

Lemma min_cases a b : (min a b = b /\ b < a) \/ (min a b = a /\ a <= b).
Proof.
  unfold min. destruct (ltb_cases b a) as [[-> H] | [-> H]]; auto.
Qed.

End NumFacts.

(** Linear arithmetic on rationals where halves are written as divisions
    by two. *)
Ltac qhalf :=
  unfold Qdiv in *; change (/ 2)%Q with (1 # 2)%Q in *; Lqa.lra.

(* ================================================================== *)
(** ** The sort permutes *)

Section JsSortFacts.

Variable A : Type.
Variable cmp : A -> A -> Q.

Lemma insertSorted_perm a l : Permutation (a :: l) (insertSorted cmp a l).
Proof.
  induction l as [| b l IH]; simpl.
  - apply Permutation_refl.
  - destruct (Num.leb (cmp a b) 0).
    + apply Permutation_refl.
    + eapply perm_trans; [apply perm_swap |]. now apply perm_skip.
Qed.

Lemma jsSort_perm l : Permutation l (jsSort cmp l).
Proof.
  induction l as [| a l IH]; simpl.
  - constructor.
  - eapply perm_trans; [apply perm_skip, IH | apply insertSorted_perm].
Qed.

End JsSortFacts.

(** The sort keeps the order of elements that compare equal. *)
Example jsSort_is_stable :
  jsSort (fun a b => fst a - fst b) [(3, 1); (1, 2); (3, 3); (1, 4)]
  = [(1, 2); (1, 4); (3, 1); (3, 3)].
Proof. reflexivity. Qed.

(* ================================================================== *)
(** ** Numbers and strings on examples *)

Module StrFacts.

Import Str.

Example round_half_up :
  Num.round (25 # 2) = 13%Z /\ Num.round (-5 # 2) = (-2)%Z /\
  Num.round (134 # 10) = 13%Z.
Proof. repeat split. Qed.

Example trim_both_ends :
  trim (lit "  inter- ") = lit "inter-" /\ trim (lit "   ") = [] /\
  trim (lit "a b") = lit "a b".
Proof. repeat split. Qed.

Example endsWith_hyphen :
  endsWith (lit "inter-") hyphen = true /\ endsWith (lit "inter") hyphen = false /\
  dropLast (lit "inter-") = lit "inter".
Proof. repeat split. Qed.

Example includesBold_any_case :
  includesBold (lit "Arial-BoldMT") = true /\
  includesBold (lit "HELVETICA-BOLD") = true /\
  includesBold (lit "Times-Roman") = false.
Proof. repeat split. Qed.

End StrFacts.

(* ================================================================== *)
(** ** Reading order: conservation, termination, column priority *)

Module ReadingOrderFacts.

Import T ReadingOrder.

(** *** A split is a partition *)

(** An item goes to exactly one side of a split point. *)
Lemma split_perm axis split lst :
  Permutation lst (before axis split lst ++ after axis split lst).
Proof.
  unfold before, after, Num.ltb, Num.leb.
  induction lst as [| i lst IH]; simpl; [constructor |].
  destruct (Qle_bool split (center axis i)); simpl.
  - now apply Permutation_cons_app.
  - now apply perm_skip.
Qed.

Lemma split_length axis split lst :
  (length (before axis split lst) + length (after axis split lst)
   = length lst)%nat.
Proof.
  rewrite <- length_app. symmetry.
  apply Permutation_length, split_perm.
Qed.

(** *** Where a split point lies *)

(** A split point is the midpoint of a gap wider than the minimum
    between two merged intervals. *)
Lemma scanGaps_inv minSz merged : forall best mx sp,
  scanGaps minSz merged best mx = Some sp ->
  best = Some sp \/
  exists a b, In a merged /\ In b merged /\
              minSz < s b - e a /\ sp = (e a + s b) / 2.
Proof.
  induction merged as [| a tl IH]; intros best mx sp H; simpl in H.
  - now left.
  - destruct tl as [| b tl'].
    + now left.
    + destruct (Num.ltb minSz (s b - e a)) eqn:E1;
        destruct (Num.ltb mx (s b - e a)) eqn:E2; simpl in H;
        apply IH in H; destruct H as [H | (a' & b' & Ha & Hb & Hg & Hs)];
        try (now left);
        try (right; exists a', b'; repeat split; simpl; auto; fail).
      right. exists a, b. injection H as <-.
      apply NumFacts.ltb_lt in E1. repeat split; simpl; auto.
Qed.

(** Every merged interval starts where an input interval starts and
    ends where an input interval ends. *)
Lemma mergeIntervals_ends rest : forall current m,
  In m (mergeIntervals current rest) ->
  (exists iv, In iv (current :: rest) /\ s iv = s m) /\
  (exists iv, In iv (current :: rest) /\ e iv = e m).
Proof.
  induction rest as [| next rest IH]; intros current m H; simpl in H.
  - destruct H as [<- | []]. split; exists current; simpl; auto.
  - destruct (Num.ltb (s next) (e current - (1 # 10))).
    + apply IH in H. destruct H as [(i1 & H1 & E1) (i2 & H2 & E2)]. split.
      * destruct H1 as [<- | H1]; [exists current | exists i1]; simpl; auto.
      * destruct H2 as [<- | H2]; [| exists i2; simpl; auto].
        simpl in E2.
        destruct (NumFacts.max_cases (e current) (e next)) as [[Q _] | [Q _]];
          rewrite Q in E2; [exists next | exists current]; simpl; auto.
    + destruct H as [<- | H].
      * split; exists current; simpl; auto.
      * apply IH in H. destruct H as [(i1 & H1 & E1) (i2 & H2 & E2)].
        split; [exists i1 | exists i2]; simpl; auto.
Qed.

Lemma minSize_pos axis : 0 < minSize axis.
Proof. destruct axis; reflexivity. Qed.

(** A split point found on well-sized items has an item on each side. *)
Lemma findSplit_sides lst axis sp :
  Forall wellSized lst ->
  findSplit lst axis = Some sp ->
  (exists i, In i lst /\ center axis i < sp) /\
  (exists i, In i lst /\ sp <= center axis i).
Proof.
  intros WS H. unfold findSplit in H.
  destruct (length (getContributors lst) <? 2)%nat; [discriminate |].
  set (ivs := map (project axis) (getContributors lst)) in *.
  destruct (jsSort (fun a b => s a - s b) ivs) as [| first rest] eqn:ES;
    [discriminate |].
  apply scanGaps_inv in H.
  destruct H as [H | (a & b & Ha & Hb & Hg & ->)]; [discriminate |].
  assert (src : forall iv, In iv (first :: rest) ->
                exists i, In i lst /\ wellSized i /\ iv = project axis i).
  { intros iv Hiv. rewrite <- ES in Hiv.
    apply (Permutation_in _ (Permutation_sym (jsSort_perm _ _ ivs))) in Hiv.
    apply in_map_iff in Hiv. destruct Hiv as (i & <- & Hi).
    apply filter_In in Hi. destruct Hi as [Hi _].
    exists i. repeat split; trivial;
      now apply (proj1 (Forall_forall _ _) WS). }
  pose proof (minSize_pos axis) as Hpos.
  apply mergeIntervals_ends in Ha. destruct Ha as [_ (ia & Hia & Ea)].
  apply mergeIntervals_ends in Hb. destruct Hb as [(ib & Hib & Eb) _].
  apply src in Hia. destruct Hia as (i & Hi & [Wi Hgt] & ->).
  apply src in Hib. destruct Hib as (j & Hj & [Wj Hgj] & ->).
  rewrite <- Ea, <- Eb in *. clear Ea Eb.
  split; [exists i | exists j]; (split; [assumption |]);
    destruct axis; simpl in *; unfold centerX, centerY; qhalf.
Qed.

Lemma filter_shorter (A : Type) (f : A -> bool) (l : list A) (a : A) :
  In a l -> f a = false -> (length (filter f l) < length l)%nat.
Proof.
  induction l as [| b l IH]; simpl; intros Hin Hf; [contradiction |].
  pose proof (filter_length_le f l) as Hle.
  destruct Hin as [-> | Hin].
  - rewrite Hf. lia.
  - specialize (IH Hin Hf). destruct (f b); simpl; lia.
Qed.

(** Both halves of a split of well-sized items are shorter than the
    list. *)
Lemma split_shorter lst axis sp :
  Forall wellSized lst ->
  findSplit lst axis = Some sp ->
  (length (before axis sp lst) < length lst)%nat /\
  (length (after axis sp lst) < length lst)%nat.
Proof.
  intros WS H.
  destruct (findSplit_sides lst axis sp WS H) as [(i & Hi & Li) (j & Hj & Lj)].
  split.
  - apply (filter_shorter _ _ _ j Hj). apply NumFacts.ltb_ge. exact Lj.
  - apply (filter_shorter _ _ _ i Hi).
    destruct (Num.leb sp (center axis i)) eqn:E; trivial.
    apply NumFacts.leb_le in E. Lqa.lra.
Qed.

Lemma wellSized_filter (f : PdfItem -> bool) lst :
  Forall wellSized lst -> Forall wellSized (filter f lst).
Proof.
  intro H. apply Forall_forall. intros i Hi.
  apply filter_In in Hi. destruct Hi as [Hi _].
  revert i Hi. now apply Forall_forall.
Qed.

Lemma concat2_some a b out :
  concat2 a b = Some out ->
  exists l r, a = Some l /\ b = Some r /\ out = l ++ r.
Proof.
  destruct a as [l |], b as [r |]; simpl; intro H; try discriminate.
  injection H as <-. now exists l, r.
Qed.

(** Whatever the bound, a result is a permutation of the input. *)
Lemma recursiveOrder_perm fuel : forall lst out,
  recursiveOrder fuel lst = Some out -> Permutation lst out.
Proof.
  induction fuel as [| fuel IH]; intros lst out H; simpl in H;
    [discriminate |].
  destruct (length lst <=? 1)%nat.
  { injection H as <-. apply Permutation_refl. }
  assert (halves : forall axis sp,
    concat2 (recursiveOrder fuel (before axis sp lst))
            (recursiveOrder fuel (after axis sp lst)) = Some out ->
    Permutation lst out).
  { intros axis sp Hc. apply concat2_some in Hc.
    destruct Hc as (l & r & Hl & Hr & ->).
    eapply perm_trans; [apply (split_perm axis sp) |].
    apply Permutation_app; auto. }
  destruct (findSplit lst X) as [sx |]; [now apply (halves X sx) |].
  destruct (findSplit lst Y) as [sy |]; [now apply (halves Y sy) |].
  injection H as <-. apply jsSort_perm.
Qed.

(** On well-sized items the recursion ends within [length lst] levels
    below the first. *)
Lemma recursiveOrder_ends fuel : forall lst,
  Forall wellSized lst -> (length lst <= fuel)%nat ->
  exists out, recursiveOrder (S fuel) lst = Some out.
Proof.
  induction fuel as [| fuel IH]; intros lst WS Hlen.
  - simpl. destruct (Nat.leb_spec (length lst) 1); [eauto | lia].
  - change (recursiveOrder (S (S fuel)) lst) with
      (if (length lst <=? 1)%nat then Some lst else
       match findSplit lst X with
       | Some splitX =>
           concat2 (recursiveOrder (S fuel) (before X splitX lst))
                   (recursiveOrder (S fuel) (after X splitX lst))
       | None =>
           match findSplit lst Y with
           | Some splitY =>
               concat2 (recursiveOrder (S fuel) (before Y splitY lst))
                       (recursiveOrder (S fuel) (after Y splitY lst))
           | None => Some (jsSort atomicCmp lst)
           end
       end).
    destruct (length lst <=? 1)%nat; [eauto |].
    assert (halves : forall axis sp, findSplit lst axis = Some sp ->
      exists out,
        concat2 (recursiveOrder (S fuel) (before axis sp lst))
                (recursiveOrder (S fuel) (after axis sp lst)) = Some out).
    { intros axis sp Hs.
      destruct (split_shorter lst axis sp WS Hs) as [Hb Ha].
      destruct (IH (before axis sp lst)) as [l Hl];
        [now apply wellSized_filter | lia |].
      destruct (IH (after axis sp lst)) as [r Hr];
        [now apply wellSized_filter | lia |].
      rewrite Hl, Hr. simpl. eauto. }
    destruct (findSplit lst X) as [sx |] eqn:EX; [now apply (halves X sx) |].
    destruct (findSplit lst Y) as [sy |] eqn:EY; [now apply (halves Y sy) |].
    eauto.
Qed.

(** One level of the recursion. *)
Lemma recursiveOrder_S fuel lst :
  recursiveOrder (S fuel) lst =
  if (length lst <=? 1)%nat then Some lst else
  match findSplit lst X with
  | Some splitX =>
      concat2 (recursiveOrder fuel (before X splitX lst))
              (recursiveOrder fuel (after X splitX lst))
  | None =>
      match findSplit lst Y with
      | Some splitY =>
          concat2 (recursiveOrder fuel (before Y splitY lst))
                  (recursiveOrder fuel (after Y splitY lst))
      | None => Some (jsSort atomicCmp lst)
      end
  end.
Proof. reflexivity. Qed.

(** A result does not depend on the bound that allowed it. *)
Lemma recursiveOrder_more fuel : forall lst out,
  recursiveOrder fuel lst = Some out ->
  recursiveOrder (S fuel) lst = Some out.
Proof.
  induction fuel as [| fuel IH]; intros lst out H; [discriminate |].
  rewrite recursiveOrder_S in H. rewrite recursiveOrder_S.
  destruct (length lst <=? 1)%nat; trivial.
  assert (halves : forall axis sp,
    concat2 (recursiveOrder fuel (before axis sp lst))
            (recursiveOrder fuel (after axis sp lst)) = Some out ->
    concat2 (recursiveOrder (S fuel) (before axis sp lst))
            (recursiveOrder (S fuel) (after axis sp lst)) = Some out).
  { intros axis sp Hc. apply concat2_some in Hc.
    destruct Hc as (l & r & Hl & Hr & ->).
    now rewrite (IH _ _ Hl), (IH _ _ Hr). }
  destruct (findSplit lst X) as [sx |]; [now apply halves |].
  destruct (findSplit lst Y) as [sy |]; [now apply halves |].
  exact H.
Qed.

Lemma recursiveOrder_stable fuel fuel' lst out :
  recursiveOrder fuel lst = Some out -> (fuel <= fuel')%nat ->
  recursiveOrder fuel' lst = Some out.
Proof.
  intros H Hle. induction Hle; [exact H | now apply recursiveOrder_more].
Qed.

(** *** Conservation *)

(** C1.  On any list of items of the data model (extents not negative),
    the reconstructor returns: the recursion ends within the bound, and at
    every larger bound with the same result.  What it returns is a
    permutation of its input: every item exactly once, none dropped, none
    repeated. *)
Theorem reorder_is_permutation (items : list PdfItem) :
  Forall wellSized items ->
  exists out,
    reorderItemsByReadingFlow items = Some out /\
    Permutation items out /\
    forall fuel, (length items < fuel)%nat ->
                 recursiveOrder fuel items = Some out.
Proof.
  intro WS.
  destruct (recursiveOrder_ends (length items) items WS (Nat.le_refl _))
    as [out H].
  exists out. split; [exact H |]. split.
  - now apply (recursiveOrder_perm (S (length items))).
  - intros fuel Hf. apply (recursiveOrder_stable (S (length items))); auto.
Qed.

Lemma wellSized_textAt gx gy gw gh :
  0 <= gw -> 0 <= gh -> wellSized (textAt gx gy gw gh).
Proof. intros; split; assumption. Qed.

Lemma reorder_is_permutation_witness :
  exists out,
    reorderItemsByReadingFlow [textAt 150 0 100 10; textAt 0 0 100 10]
    = Some out /\
    Permutation [textAt 150 0 100 10; textAt 0 0 100 10] out /\
    forall fuel, (2 < fuel)%nat ->
      recursiveOrder fuel [textAt 150 0 100 10; textAt 0 0 100 10] = Some out.
Proof.
  apply (reorder_is_permutation [textAt 150 0 100 10; textAt 0 0 100 10]).
  repeat constructor; simpl; discriminate.
Defined.

(** Without the data model's invariant the recursion need not end: two
    items of negative width on the same spot are split at a point that
    leaves both on one side, at every level. *)
Remark negative_width_never_ends fuel :
  recursiveOrder fuel [textAt 0 0 (-100) 10; textAt 0 0 (-100) 10] = None.
Proof.
  set (l := [textAt 0 0 (-100) 10; textAt 0 0 (-100) 10]).
  assert (HX : findSplit l X = Some ((-100 + 0) / 2)) by reflexivity.
  assert (HA : after X ((-100 + 0) / 2) l = l) by reflexivity.
  induction fuel as [| fuel IH]; [reflexivity |].
  rewrite recursiveOrder_S, HX, HA, IH. simpl.
  now destruct (recursiveOrder fuel []).
Qed.

(** *** Column priority *)

(** Two columns of two rows each, given row by row, are read column by
    column. *)
Example two_columns_two_rows :
  reorderItemsByReadingFlow
    [textAt 0 0 100 10; textAt 150 0 100 10;
     textAt 0 30 100 10; textAt 150 30 100 10]
  = Some [textAt 0 0 100 10; textAt 0 30 100 10;
          textAt 150 0 100 10; textAt 150 30 100 10].
Proof. reflexivity. Qed.

(** C5.  Whenever a list of two or more items has an x-split, the result
    is the left part's order followed by the right part's, whatever a
    y-split would have been; a y-split is used only when there is no
    x-split.  Two boxes side by side, 50 apart, come out left then right,
    and two stacked boxes, 50 apart, come out top then bottom, in either
    input order and whatever the items are. *)
Theorem column_priority :
  (forall fuel lst splitX,
     (1 < length lst)%nat -> findSplit lst X = Some splitX ->
     recursiveOrder (S fuel) lst
     = concat2 (recursiveOrder fuel (before X splitX lst))
               (recursiveOrder fuel (after X splitX lst))) /\
  (forall fuel lst splitY,
     (1 < length lst)%nat ->
     findSplit lst X = None -> findSplit lst Y = Some splitY ->
     recursiveOrder (S fuel) lst
     = concat2 (recursiveOrder fuel (before Y splitY lst))
               (recursiveOrder fuel (after Y splitY lst))) /\
  (forall d1 d2,
     let l := mkItem (mkGeometry 0 0 100 10) d1 in
     let r := mkItem (mkGeometry 150 0 100 10) d2 in
     reorderItemsByReadingFlow [l; r] = Some [l; r] /\
     reorderItemsByReadingFlow [r; l] = Some [l; r]) /\
  (forall d1 d2,
     let t := mkItem (mkGeometry 0 0 100 10) d1 in
     let b := mkItem (mkGeometry 0 60 100 10) d2 in
     reorderItemsByReadingFlow [t; b] = Some [t; b] /\
     reorderItemsByReadingFlow [b; t] = Some [t; b]).
Proof.
  repeat split.
  - intros fuel lst splitX Hlen HX. rewrite recursiveOrder_S, HX.
    destruct (Nat.leb_spec (length lst) 1); [lia | reflexivity].
  - intros fuel lst splitY Hlen HX HY. rewrite recursiveOrder_S, HX, HY.
    destruct (Nat.leb_spec (length lst) 1); [lia | reflexivity].
  - destruct d1, d2; reflexivity.
  - destruct d1, d2; reflexivity.
  - destruct d1, d2; reflexivity.
  - destruct d1, d2; reflexivity.
Qed.

End ReadingOrderFacts.

(* ================================================================== *)
(** ** Line-spacing statistics *)

Module StatsFacts.

Import Stats.

Lemma keepGap_iff g : keepGap g = true <-> 5 < g /\ g < 300.
Proof.
  unfold keepGap. rewrite andb_true_iff, !NumFacts.ltb_lt. tauto.
Qed.

(** The first loop is a filter of the consecutive gaps. *)
Lemma collectGaps_filter yCoords :
  collectGaps yCoords = filter keepGap (consecutiveGaps yCoords).
Proof.
  induction yCoords as [| a [| b tl] IH]; trivial.
  change (collectGaps (a :: b :: tl)) with
    (if keepGap (Num.abs (a - b))
     then Num.abs (a - b) :: collectGaps (b :: tl)
     else collectGaps (b :: tl)).
  change (consecutiveGaps (a :: b :: tl)) with
    (Num.abs (a - b) :: consecutiveGaps (b :: tl)).
  simpl filter. now rewrite IH.
Qed.

(** *** The frequency table *)

Lemma keysAbove_weaken b b' tbl :
  (b' <= b)%Z -> keysAbove b tbl -> keysAbove b' tbl.
Proof.
  destruct tbl as [| [k c] tl]; simpl; trivial. intros ? [? ?]. split; [lia | trivial].
Qed.

Lemma bump_keysAbove k : forall tbl b,
  (b < k)%Z -> keysAbove b tbl -> keysAbove b (bump k tbl).
Proof.
  induction tbl as [| [k' c] tl IH]; intros b Hb H; simpl in *.
  - auto.
  - destruct H as [H1 H2].
    destruct (Z.eqb_spec k k'); [simpl; auto |].
    destruct (Z.ltb_spec k k'); simpl; [auto |].
    split; [trivial |]. apply IH; [lia | trivial].
Qed.

Lemma bump_ascending k tbl : ascending tbl -> ascending (bump k tbl).
Proof.
  destruct tbl as [| [k' c] tl]; simpl; trivial. intro H.
  destruct (Z.eqb_spec k k'); [trivial |].
  destruct (Z.ltb_spec k k'); simpl; [auto |].
  apply bump_keysAbove; [lia | trivial].
Qed.

Lemma bump_lookup k v : forall tbl,
  lookup v (bump k tbl)
  = (lookup v tbl + if Z.eq_dec k v then 1 else 0)%nat.
Proof.
  induction tbl as [| [k' c] tl IH]; simpl.
  - destruct (Z.eqb_spec v k), (Z.eq_dec k v); try congruence; lia.
  - destruct (Z.eqb_spec k k') as [-> | Hk].
    + simpl. destruct (Z.eqb_spec v k'), (Z.eq_dec k' v); try congruence; lia.
    + destruct (Z.ltb_spec k k'); simpl.
      * destruct (Z.eqb_spec v k), (Z.eqb_spec v k'), (Z.eq_dec k v);
          try congruence; lia.
      * rewrite IH.
        destruct (Z.eqb_spec v k'), (Z.eq_dec k v); try congruence; lia.
Qed.

Lemma tally_from v : forall gaps tbl,
  lookup v (fold_left (fun f g => bump (Num.round g) f) gaps tbl)
  = (lookup v tbl + occurrences v gaps)%nat.
Proof.
  unfold occurrences.
  induction gaps as [| g gaps IH]; intro tbl; simpl.
  - lia.
  - rewrite IH, bump_lookup.
    destruct (Z.eq_dec (Num.round g) v); lia.
Qed.

Lemma tally_lookup v gaps : lookup v (tally gaps) = occurrences v gaps.
Proof. unfold tally. now rewrite tally_from. Qed.

Lemma tally_ascending gaps : ascending (tally gaps).
Proof.
  unfold tally. generalize (I : ascending []).
  generalize (@nil (Z * nat)) as tbl.
  induction gaps as [| g gaps IH]; intros tbl H; simpl; trivial.
  apply IH, bump_ascending, H.
Qed.

Lemma keysAbove_key b tbl k c : keysAbove b tbl -> In (k, c) tbl -> (b < k)%Z.
Proof.
  revert b. induction tbl as [| [k' c'] tl IH]; intros b H Hin; simpl in *.
  - contradiction.
  - destruct H as [H1 H2]. destruct Hin as [E | Hin].
    + injection E as <- <-. trivial.
    + specialize (IH _ H2 Hin). lia.
Qed.

Lemma keysAbove_absent b tbl v : keysAbove b tbl -> (v <= b)%Z -> lookup v tbl = 0%nat.
Proof.
  revert b. induction tbl as [| [k c] tl IH]; intros b H Hv; simpl in *; trivial.
  destruct H as [H1 H2].
  destruct (Z.eqb_spec v k); [lia |]. apply (IH k); [trivial | lia].
Qed.

Lemma keysAbove_ascending b tbl : keysAbove b tbl -> ascending tbl.
Proof. destruct tbl as [| [k c] tl]; simpl; tauto. Qed.

(** In a table with ascending keys an entry is the count of its key. *)
Lemma entry_lookup tbl k c : ascending tbl -> In (k, c) tbl -> lookup k tbl = c.
Proof.
  induction tbl as [| [k' c'] tl IH]; intros H Hin; simpl in *.
  - contradiction.
  - destruct Hin as [E | Hin].
    + injection E as <- <-. rewrite Z.eqb_refl.
      rewrite (keysAbove_absent k' tl k'); [lia | trivial | lia].
    + pose proof (keysAbove_key _ _ _ _ H Hin).
      destruct (Z.eqb_spec k k'); [lia |].
      apply IH; [now apply (keysAbove_ascending k') | trivial].
Qed.

Lemma lookup_entry tbl v : lookup v tbl <> 0%nat -> exists c, In (v, c) tbl.
Proof.
  induction tbl as [| [k c] tl IH]; simpl; intro H; [congruence |].
  destruct (Z.eqb_spec v k) as [-> | _].
  - exists c. now left.
  - destruct (IH H) as [c' Hc]. exists c'. now right.
Qed.

(** The keys of the table are rounded kept gaps, integers from 5 to
    300: keys that [Object.entries] lists in ascending order. *)
Lemma bump_keys k tbl k' c :
  In (k', c) (bump k tbl) -> k' = k \/ exists c', In (k', c') tbl.
Proof.
  induction tbl as [| [k0 c0] tl IH]; simpl.
  - intros [E | []]. injection E as <- <-. now left.
  - destruct (Z.eqb_spec k k0) as [-> | _].
    + intros [E | H]; [injection E as <- <-; now left | right; eauto].
    + destruct (Z.ltb_spec k k0) as [Hlt | Hge].
      * intros [E | H]; [injection E as <- <-; now left | right; eauto].
      * intros [E | H]; [right; eauto |].
        destruct (IH H) as [-> | [c' Hc]]; [now left | right; eauto].
Qed.

Lemma round_kept g : keepGap g = true -> (5 <= Num.round g <= 300)%Z.
Proof.
  intro H. apply keepGap_iff in H. destruct H as [H5 H300].
  unfold Num.round. split.
  - change 5%Z with (Qfloor 5). apply Qfloor_resp_le. Lqa.lra.
  - change 300%Z with (Qfloor (300 + (1 # 2))). apply Qfloor_resp_le. Lqa.lra.
Qed.

Lemma tally_keys yCoords k c :
  In (k, c) (tally (collectGaps yCoords)) -> (5 <= k <= 300)%Z.
Proof.
  rewrite collectGaps_filter. unfold tally.
  assert (gen : forall gaps tbl,
            Forall (fun g => keepGap g = true) gaps ->
            In (k, c) (fold_left (fun f g => bump (Num.round g) f) gaps tbl) ->
            (5 <= k <= 300)%Z \/ exists c', In (k, c') tbl).
  { induction gaps as [| g gaps IH]; intros tbl F H; simpl in H; [eauto |].
    inversion F as [| ? ? Hg F']; subst.
    destruct (IH _ F' H) as [? | [c' Hc]]; [now left |].
    destruct (bump_keys _ _ _ _ Hc) as [-> | ?]; [left | now right].
    now apply round_kept. }
  intro H. destruct (gen _ [] (proj2 (Forall_forall _ _)
                                  (fun g Hg => proj2 (proj1 (filter_In _ _ _) Hg))) H)
    as [? | [c' []]]; trivial.
Qed.

(** *** The choice of the mode *)

(** The loop returns its starting pair, or an entry more frequent than
    the start, at least as frequent as every entry, and more frequent
    than every entry of smaller key. *)
Lemma pickMode_spec : forall entries m f,
  ascending entries ->
  (f <= snd (pickMode entries m f))%nat /\
  (forall k c, In (k, c) entries -> (c <= snd (pickMode entries m f))%nat) /\
  (pickMode entries m f = (m, f) \/
   (In (pickMode entries m f) entries /\
    (f < snd (pickMode entries m f))%nat /\
    forall k c, In (k, c) entries -> (k < fst (pickMode entries m f))%Z ->
                (c < snd (pickMode entries m f))%nat)).
Proof.
  induction entries as [| [k0 c0] tl IH]; intros m f Asc.
  - simpl. repeat split; auto. intros k c [].
  - simpl in Asc. pose proof (keysAbove_ascending _ _ Asc) as Asc'.
    simpl pickMode. destruct (Nat.ltb_spec f c0) as [Hlt | Hge].
    + destruct (IH k0 c0 Asc') as (H1 & H2 & H3).
      set (r := pickMode tl k0 c0) in *.
      split; [lia |]. split.
      * intros k c [E | Hin]; [injection E as <- <-; trivial | eauto].
      * right. destruct H3 as [E | (Hin & Hf & Hsm)].
        -- rewrite E. simpl. split; [now left |]. split; [trivial |].
           intros k c [E' | Hin] Hk.
           ++ injection E' as <- <-. lia.
           ++ pose proof (keysAbove_key _ _ _ _ Asc Hin). lia.
        -- split; [now right |]. split; [lia |].
           intros k c [E' | Hin'] Hk.
           ++ injection E' as <- <-. lia.
           ++ eauto.
    + destruct (IH m f Asc') as (H1 & H2 & H3).
      set (r := pickMode tl m f) in *.
      split; [trivial |]. split.
      * intros k c [E | Hin]; [injection E as <- <-; lia | eauto].
      * destruct H3 as [E | (Hin & Hf & Hsm)]; [now left | right].
        split; [now right |]. split; [trivial |].
        intros k c [E' | Hin'] Hk.
        -- injection E' as <- <-. lia.
        -- eauto.
Qed.

(** The value the code takes as mode is the mode of the rounded gaps. *)
Lemma modeOf_isMode gaps : gaps <> [] -> isMode (modeOf gaps) gaps.
Proof.
  intro Hne. unfold modeOf.
  pose proof (tally_ascending gaps) as Asc.
  destruct (pickMode_spec (tally gaps) 0%Z 0%nat Asc) as (_ & Hmax & Hsel).
  set (r := pickMode (tally gaps) 0%Z 0%nat) in *.
  assert (Hpos : (0 < snd r)%nat).
  { destruct gaps as [| g gaps]; [congruence |].
    assert (Hocc : occurrences (Num.round g) (g :: gaps) <> 0%nat).
    { unfold occurrences. simpl.
      destruct (Z.eq_dec (Num.round g) (Num.round g)); [lia | congruence]. }
    rewrite <- tally_lookup in Hocc.
    destruct (lookup_entry _ _ Hocc) as [c Hc].
    pose proof (entry_lookup _ _ _ Asc Hc). specialize (Hmax _ _ Hc). lia. }
  destruct Hsel as [E | (Hin & _ & Hsm)]; [rewrite E in Hpos; simpl in Hpos; lia |].
  assert (Hr : occurrences (fst r) gaps = snd r).
  { rewrite <- tally_lookup. apply entry_lookup; trivial. now destruct r. }
  assert (bound : forall v, occurrences v gaps <> 0%nat ->
                  exists c, In (v, c) (tally gaps) /\ c = occurrences v gaps).
  { intros v Hv. rewrite <- tally_lookup in Hv.
    destruct (lookup_entry _ _ Hv) as [c Hc]. exists c. split; trivial.
    rewrite <- tally_lookup. symmetry. now apply entry_lookup. }
  repeat split.
  - apply (count_occ_In Z.eq_dec). unfold occurrences in Hr. lia.
  - intro v. rewrite Hr.
    destruct (Nat.eq_dec (occurrences v gaps) 0) as [-> | Hv]; [lia |].
    destruct (bound v Hv) as (c & Hc & <-). eauto.
  - intros v Hlt. rewrite Hr.
    destruct (Nat.eq_dec (occurrences v gaps) 0) as [-> | Hv]; [lia |].
    destruct (bound v Hv) as (c & Hc & <-). eauto.
Qed.

(** *** The statistics *)

Lemma stats_none yCoords :
  collectGaps yCoords = [] -> calculateLineSpacingStats yCoords = defaults.
Proof.
  intro H. unfold calculateLineSpacingStats. rewrite H.
  now destruct (length yCoords <? 2)%nat.
Qed.

Lemma stats_some yCoords :
  collectGaps yCoords <> [] ->
  calculateLineSpacingStats yCoords =
  let gaps := collectGaps yCoords in
  let std :=
    if (8 <? modeOf gaps)%Z then inject_Z (modeOf gaps) else mean gaps in
  mkStats std (std * (3 # 2)).
Proof.
  intro H. unfold calculateLineSpacingStats.
  destruct yCoords as [| a [| b tl]]; try (now elim H).
  change (length (a :: b :: tl) <? 2)%nat with false. cbv iota.
  destruct (collectGaps (a :: b :: tl)); [now elim H | reflexivity].
Qed.

(** Gaps of 12.5 and 13 both round to 13, and a gap of 4 and a gap of
    300 are dropped.  A mode of 7 gives way to the mean.  When 7 and 10
    are as frequent, the entries are visited in ascending order and 7 is
    the mode, so the mean 8.5 is returned. *)
Example stats_on_halves :
  map Num.round
      (collectGaps [100; 225 # 2; 251 # 2; 259 # 2; 859 # 2])
  = [13%Z; 13%Z] /\
  stdLineHeight (calculateLineSpacingStats [20; 13; 6]) == 7 /\
  tally (collectGaps [30; 20; 10; 3; -4]) = [(7%Z, 2%nat); (10%Z, 2%nat)] /\
  modeOf (collectGaps [30; 20; 10; 3; -4]) = 7%Z /\
  stdLineHeight (calculateLineSpacingStats [30; 20; 10; 3; -4]) == 17 # 2.
Proof. repeat split. Qed.

Lemma kept_count_pos (g : Q) (gs : list Q) :
  0 < inject_Z (Z.of_nat (length (g :: gs))).
Proof.
  change 0 with (inject_Z 0). rewrite <- Zlt_Qlt. simpl length. lia.
Qed.

(** The sum the reducer computes is the sum of the list. *)
Lemma sum_is_total (l : list Q) :
  forall acc, fold_left Qplus l acc == acc + fold_right Qplus 0 l.
Proof.
  induction l as [| g l IH]; intro acc; simpl.
  - ring.
  - rewrite IH. ring.
Qed.

Lemma mean_is_average (l : list Q) :
  mean l == fold_right Qplus 0 l / inject_Z (Z.of_nat (length l)).
Proof.
  unfold mean, Num.sum, Num.len. rewrite sum_is_total.
  apply Qmult_comp; [ring | reflexivity].
Qed.

(** C2.  The gaps kept are the consecutive absolute gaps strictly between
    5 and 300.  When none is kept the result is the defaults (14, 20), and
    the result is (14, 20) in no other case.  Otherwise [stdLineHeight]
    is the mode of the rounded kept gaps when that mode exceeds 8 and
    their arithmetic mean when it does not, that is the sum of the kept
    gaps over their number, and [paraGapThreshold] is [stdLineHeight]
    times 1.5.  The coordinates 100, 114, 140, 154 give mode 14 and
    threshold 21; the coordinates 30, 20, 10, 3, -4 give mode 7, the mean
    8.5 and threshold 12.75. *)
Theorem line_spacing_stats (yCoords : list Q) :
  let gaps := filter keepGap (consecutiveGaps yCoords) in
  let stats := calculateLineSpacingStats yCoords in
  (forall g, keepGap g = true <-> 5 < g /\ g < 300) /\
  collectGaps yCoords = gaps /\
  (gaps = [] -> stats = defaults) /\
  (gaps <> [] ->
   isMode (modeOf gaps) gaps /\
   stdLineHeight stats
   = (if (8 <? modeOf gaps)%Z then inject_Z (modeOf gaps) else mean gaps) /\
   paraGapThreshold stats = stdLineHeight stats * (3 # 2) /\
   ((8 < modeOf gaps)%Z -> stdLineHeight stats = inject_Z (modeOf gaps)) /\
   ((modeOf gaps <= 8)%Z ->
    stdLineHeight stats
    == fold_right Qplus 0 gaps / inject_Z (Z.of_nat (length gaps)) /\
    stdLineHeight stats * inject_Z (Z.of_nat (length gaps))
    == fold_right Qplus 0 gaps)) /\
  (stdLineHeight stats == 14 /\ paraGapThreshold stats == 20 <-> gaps = []) /\
  (modeOf (collectGaps [100; 114; 140; 154]) = 14%Z /\
   stdLineHeight (calculateLineSpacingStats [100; 114; 140; 154]) == 14 /\
   paraGapThreshold (calculateLineSpacingStats [100; 114; 140; 154]) == 21) /\
  (collectGaps [30; 20; 10; 3; -4] = [10; 10; 7; 7] /\
   modeOf (collectGaps [30; 20; 10; 3; -4]) = 7%Z /\
   stdLineHeight (calculateLineSpacingStats [30; 20; 10; 3; -4]) == 17 # 2 /\
   paraGapThreshold (calculateLineSpacingStats [30; 20; 10; 3; -4]) == 51 # 4).
Proof.
  intros gaps stats. subst gaps stats.
  rewrite <- collectGaps_filter.
  split; [exact keepGap_iff |]. split; [reflexivity |].
  split; [apply stats_none |]. split; [| split; [| split]].
  - intro Hne. rewrite (stats_some _ Hne). cbv zeta. simpl.
    split; [now apply modeOf_isMode |].
    split; [reflexivity |]. split; [reflexivity |]. split.
    + intro Hm. apply Z.ltb_lt in Hm. now rewrite Hm.
    + intro Hm. apply Z.ltb_ge in Hm. rewrite Hm.
      assert (Hlen : ~ inject_Z (Z.of_nat (length (collectGaps yCoords))) == 0).
      { destruct (collectGaps yCoords) as [| g gs]; [now elim Hne |].
        intro E. pose proof (kept_count_pos g gs) as L. rewrite E in L.
        revert L. apply Qlt_irrefl. }
      split; [apply mean_is_average |].
      rewrite mean_is_average. unfold Qdiv.
      rewrite <- Qmult_assoc, (Qmult_comm (/ _)), Qmult_inv_r by exact Hlen.
      ring.
  - split.
    + intros [H14 H20].
      destruct (collectGaps yCoords) as [| g gs] eqn:E; trivial.
      assert (Hne : collectGaps yCoords <> []) by (rewrite E; discriminate).
      rewrite (stats_some _ Hne) in H14, H20. cbv zeta in H14, H20.
      simpl in H14, H20. rewrite H14 in H20. discriminate H20.
    + intro H. rewrite (stats_none _ H). split; reflexivity.
  - repeat split.
  - repeat split.
Qed.

End StatsFacts.

(* ================================================================== *)
(** ** Paragraph merging *)

Module MergerFacts.

Import T Str Merger.

(** *** List markers *)

Lemma isBulletGlyph_iff c :
  isBulletGlyph c = true <-> In c [bullet; blackCircle; hyphen; asterisk].
Proof.
  unfold isBulletGlyph. rewrite !orb_true_iff, !N.eqb_eq. simpl.
  intuition congruence.
Qed.

Lemma skipDigits_split t :
  exists ds, t = ds ++ skipDigits t /\ Forall (fun c => isDigit c = true) ds.
Proof.
  induction t as [| c t (ds & E & F)]; simpl.
  - exists []. auto.
  - destruct (isDigit c) eqn:D.
    + exists (c :: ds). simpl. split; [congruence | auto].
    + exists []. auto.
Qed.

Lemma skipDigits_app ds r :
  Forall (fun c => isDigit c = true) ds -> skipDigits (ds ++ r) = skipDigits r.
Proof.
  induction 1 as [| c ds D _ IH]; simpl; trivial. now rewrite D.
Qed.

Lemma punct_not_digit p : p = dot \/ p = closeParen -> isDigit p = false.
Proof. intros [-> | ->]; reflexivity. Qed.

Lemma punct_iff p :
  ((p =? dot) || (p =? closeParen))%N = true <-> p = dot \/ p = closeParen.
Proof. now rewrite orb_true_iff, !N.eqb_eq. Qed.

Lemma bulletMarker_iff t :
  bulletMarker t = true <->
  exists c w rest,
    t = c :: w :: rest /\
    In c [bullet; blackCircle; hyphen; asterisk] /\ isSpace w = true.
Proof.
  split.
  - destruct t as [| c [| w rest]]; simpl; try discriminate.
    rewrite andb_true_iff, isBulletGlyph_iff. intros [H1 H2].
    now exists c, w, rest.
  - intros (c & w & rest & -> & H1 & H2). simpl.
    apply andb_true_iff. now rewrite isBulletGlyph_iff.
Qed.

Lemma numberMarker_iff t :
  numberMarker t = true <->
  exists digits p w rest,
    t = digits ++ p :: w :: rest /\
    digits <> [] /\ Forall (fun c => isDigit c = true) digits /\
    (p = dot \/ p = closeParen) /\ isSpace w = true.
Proof.
  split.
  - destruct t as [| d t']; simpl; [discriminate |].
    rewrite andb_true_iff. intros [D H].
    destruct (skipDigits_split t') as (ds & E & F).
    destruct (skipDigits t') as [| p [| w rest]]; try discriminate.
    apply andb_true_iff in H. destruct H as [P W]. apply punct_iff in P.
    exists (d :: ds), p, w, rest. simpl. repeat split; auto; congruence.
  - intros (digits & p & w & rest & -> & Hne & F & P & W).
    destruct digits as [| d ds]; [congruence |].
    inversion F as [| ? ? D F']; subst. simpl. rewrite D. simpl.
    rewrite (skipDigits_app _ _ F'). simpl.
    rewrite (punct_not_digit _ P). apply andb_true_iff. split; trivial.
    now apply punct_iff.
Qed.

Lemma isList_iff t : isList t = true <-> ListMarker t.
Proof.
  unfold isList, ListMarker.
  now rewrite orb_true_iff, bulletMarker_iff, numberMarker_iff.
Qed.

(** *** The fusion test *)

Lemma Str_eqb_eq a b : Str.eqb a b = true <-> a = b.
Proof.
  unfold Str.eqb. destruct (list_eq_dec N.eq_dec a b); split; congruence.
Qed.

Lemma canMerge_iff cg cp ng np :
  canMerge cg cp ng np = true <-> Mergeable cg cp ng np.
Proof.
  unfold canMerge, Mergeable.
  rewrite !andb_true_iff, orb_true_iff, !andb_true_iff, negb_true_iff.
  rewrite Str_eqb_eq, !NumFacts.ltb_lt, !NumFacts.leb_le.
  rewrite <- isList_iff, not_true_iff_false. tauto.
Qed.

Lemma mergeFrom_text cg cp ng np rest :
  mergeFrom (mkItem cg (Text cp)) (mkItem ng (Text np) :: rest)
  = if canMerge cg cp ng np
    then mergeFrom (fuse cg cp ng np) rest
    else mkItem cg (Text cp) :: mergeFrom (mkItem ng (Text np)) rest.
Proof. reflexivity. Qed.

(** C3.  Two consecutive text items are merged exactly when the five
    criteria hold: same font name, sizes less than 2.0 apart, vertical gap
    strictly between 0 and 2.5 times the first item's font size, left
    edges less than 20 apart or the second span within the first widened
    by 40 on each side, and no list marker at the start of the second
    text.  In particular a text that starts with a bullet and white space
    is never merged into what precedes it. *)
Theorem merge_criteria (cg ng : Geometry) (cp np : TextProps) :
  let current := mkItem cg (Text cp) in
  let next := mkItem ng (Text np) in
  (forall rest, Mergeable cg cp ng np ->
     mergeFrom current (next :: rest) = mergeFrom (fuse cg cp ng np) rest) /\
  (forall rest, ~ Mergeable cg cp ng np ->
     mergeFrom current (next :: rest) = current :: mergeFrom next rest) /\
  (mergeTextBlocks [current; next] = [fuse cg cp ng np]
   <-> Mergeable cg cp ng np) /\
  (mergeTextBlocks [current; next] = [current; next]
   <-> ~ Mergeable cg cp ng np) /\
  (forall w tail, isSpace w = true -> text np = bullet :: w :: tail ->
     forall rest,
       mergeFrom current (next :: rest) = current :: mergeFrom next rest).
Proof.
  intros current next. subst current next.
  assert (no : ~ Mergeable cg cp ng np -> canMerge cg cp ng np = false).
  { intro H. apply not_true_iff_false. now rewrite canMerge_iff. }
  split; [| split; [| split; [| split]]].
  - intros rest M. rewrite mergeFrom_text. apply canMerge_iff in M.
    now rewrite M.
  - intros rest M. rewrite mergeFrom_text. now rewrite (no M).
  - split.
    + intro H. apply canMerge_iff.
      destruct (canMerge cg cp ng np) eqn:E; trivial.
      simpl in H. rewrite E in H. discriminate H.
    + intro M. simpl. apply canMerge_iff in M. now rewrite M.
  - split.
    + intros H M. simpl in H. apply canMerge_iff in M. rewrite M in H.
      discriminate H.
    + intro M. simpl. now rewrite (no M).
  - intros w tail W E rest. rewrite mergeFrom_text.
    replace (canMerge cg cp ng np) with false; trivial.
    symmetry. apply no. intros (_ & _ & _ & _ & L). apply L.
    left. exists bullet, w, tail. simpl. auto.
Qed.

(** *** The merged text *)

Lemma endsWith_nonempty s c : endsWith s c = true -> s <> [].
Proof. intros H ->. discriminate H. Qed.

Lemma dropLast_length s : s <> [] -> (length (dropLast s) + 1 = length s)%nat.
Proof.
  intro H. destruct (exists_last H) as (s' & c & ->).
  unfold dropLast. rewrite removelast_last, length_app. simpl. lia.
Qed.

Lemma mergedText_spaced a b :
  endsWith (trim a) hyphen = false ->
  mergedText a b = a ++ space :: b /\
  (length (mergedText a b) = length a + length b + 1)%nat.
Proof.
  intro H. unfold mergedText. rewrite H. split; trivial.
  rewrite length_app. simpl. lia.
Qed.

Lemma mergedText_hyphen a b :
  endsWith (trim a) hyphen = true ->
  mergedText a b = dropLast (trim a) ++ b /\
  (length (mergedText a b) + 1 = length (trim a) + length b)%nat.
Proof.
  intro H. unfold mergedText. rewrite H. split; trivial.
  rewrite length_app.
  pose proof (dropLast_length _ (endsWith_nonempty _ _ H)). lia.
Qed.

(** C4, as the code has it.  The merged text of two mergeable items is
    the first text, a space and the second text, one character longer
    than both together, when the first text trimmed does not end with a
    hyphen.  When it does, the merged text is the first text trimmed,
    without its last character, followed by the second text: its length is
    that of the trimmed first text and of the second text less one, which
    is the length of both texts less one when the first has no white space
    at either end.  Merging inter- and national gives international. *)
Theorem merged_text_length :
  (forall cg cp ng np,
     canMerge cg cp ng np = true ->
     exists g p,
       mergeTextBlocks [mkItem cg (Text cp); mkItem ng (Text np)]
       = [mkItem g (Text p)] /\
       (endsWith (trim (text cp)) hyphen = false ->
        text p = text cp ++ space :: text np /\
        (length (text p) = length (text cp) + length (text np) + 1)%nat) /\
       (endsWith (trim (text cp)) hyphen = true ->
        text p = dropLast (trim (text cp)) ++ text np /\
        (length (text p) + 1
         = length (trim (text cp)) + length (text np))%nat /\
        (trim (text cp) = text cp ->
         (length (text p) + 1 = length (text cp) + length (text np))%nat))) /\
  mergeTextBlocks [line "inter-" 50 100 200 12 12;
                   line "national" 50 114 200 12 12]
  = [line "international" 50 100 200 26 12].
Proof.
  split; [| reflexivity].
  intros cg cp ng np M. simpl. rewrite M. unfold fuse.
  eexists. eexists. split; [reflexivity |]. simpl. split.
  - apply mergedText_spaced.
  - intro H. destruct (mergedText_hyphen (text cp) (text np) H) as [E L].
    repeat split; trivial. intro T. rewrite T in L. exact L.
Qed.

(** White space after the hyphen is dropped with it: the merged text is
    then more than one character shorter than both texts together. *)
Lemma merged_text_length_counterexample :
  let a := line "inter- " 50 100 200 12 12 in
  let b := line "national" 50 114 200 12 12 in
  canMerge (geom a) (mkTextProps (lit "inter- ") 12 (lit "F") None None None None None)
           (geom b) (mkTextProps (lit "national") 12 (lit "F") None None None None None)
  = true /\
  endsWith (trim (lit "inter- ")) hyphen = true /\
  mergeTextBlocks [a; b] = [line "international" 50 100 200 26 12] /\
  length (lit "international")
  <> (length (lit "inter- ") + length (lit "national") - 1)%nat.
Proof.
  repeat split. simpl. discriminate.
Qed.

(** *** The merged box *)

(** Where the merged box is the union: the second item does not start
    left of the first by 5 or less, and does not end above it. *)
Lemma merged_box_union_when cg cp ng np :
  (x cg <= x ng \/ x ng < x cg - 5) ->
  y cg + height cg <= y ng + height ng ->
  IsUnion (geom (fuse cg cp ng np)) cg ng.
Proof.
  intros Hx Hy. unfold IsUnion, fuse. simpl.
  destruct (NumFacts.min_cases (x cg) (x ng)) as [[-> ?] | [-> ?]];
    destruct (NumFacts.max_cases (x cg + width cg) (x ng + width ng))
      as [[-> ?] | [-> ?]];
    destruct (NumFacts.max_cases (y cg + height cg) (y ng + height ng))
      as [[-> ?] | [-> ?]];
    destruct (NumFacts.ltb_cases (x ng) (x cg - 5)) as [[-> ?] | [-> ?]];
    repeat split; Lqa.lra.
Qed.

(** C6 fails on the code.  A second line that starts 3 units left of the
    first is merged into a box that keeps the first line's x (10, not the
    minimum 7) and takes its width from the minimum (103): its right edge
    is 113, past both items' right edges (110 and 107).  A second line
    that ends above the first line's bottom edge gives a box that ends
    with the second line. *)
Theorem merged_box_off_union :
  (let current := line "first line" 10 100 100 12 12 in
   let next := line "second line" 7 114 100 12 12 in
   mergeTextBlocks [current; next]
   = [line "first line second line" 10 100 103 26 12] /\
   ~ IsUnion (mkGeometry 10 100 103 26) (geom current) (geom next) /\
   IsUnion (mkGeometry 7 100 103 26) (geom current) (geom next)) /\
  (let current := line "tall" 10 100 100 12 12 in
   let next := line "small" 10 (201 # 2) 100 (21 # 2) (21 # 2) in
   exists m p,
     mergeTextBlocks [current; next] = [mkItem m (Text p)] /\
     y m + height m == 111 /\
     y (geom current) + height (geom current) == 112 /\
     ~ IsUnion m (geom current) (geom next)).
Proof.
  split; cbv zeta.
  - split; [reflexivity |]. split.
    + intros [H _]. vm_compute in H. discriminate H.
    + repeat split.
  - eexists. eexists. split; [reflexivity |].
    split; [reflexivity |]. split; [reflexivity |].
    intros (_ & _ & _ & H). vm_compute in H. discriminate H.
Qed.

End MergerFacts.

(* ================================================================== *)
(** ** Auto-fit: the shrinking rule and its bounds *)

Module AutoFitFacts.

Import T Str AutoFit.
Local Open Scope R_scope.

Lemma ratio_in_unit a b : 0 <= a -> a <= b -> 0 < b -> 0 <= a / b <= 1.
Proof.
  intros Ha Hab Hb. unfold Rdiv.
  pose proof (Rinv_0_lt_compat b Hb) as Hi.
  pose proof (Rinv_r b (Rgt_not_eq _ _ Hb)) as Hr.
  split; [apply Rmult_le_pos; Lra.lra |].
  rewrite <- Hr. apply Rmult_le_compat_r; Lra.lra.
Qed.

Lemma sqrt_in_unit a : 0 <= a <= 1 -> 0 <= sqrt a <= 1.
Proof.
  intros [H0 H1]. split; [apply sqrt_pos |].
  rewrite <- sqrt_1. now apply sqrt_le_1_alt.
Qed.

(** A size scaled by a factor between 0 and 1 and floored at 60% stays
    between 60% and 100% of itself. *)
Lemma floored_scaling fs k :
  0 <= fs -> 0 <= k <= 1 -> fs * 0.6 <= Rmax (fs * k) (fs * 0.6) <= fs.
Proof.
  intros Hfs [Hk0 Hk1]. split; [apply Rmax_r |].
  apply Rmax_lub; [| Lra.lra].
  rewrite <- (Rmult_1_r fs) at 2. apply Rmult_le_compat_l; trivial.
Qed.

Section Rule.

Variable measureTextWidth : jsstring -> R -> bool -> R.
Variable userLineSpacing : R.

Let lines := estimatedLines measureTextWidth.
Let required := requiredHeight measureTextWidth userLineSpacing.
Let fit := fitFontSize measureTextWidth userLineSpacing.

(** The three cases of the rule. *)
Lemma fitFontSize_cases t bold W H fs :
  (H * 1.1 < required t bold W fs ->
   fit t bold W H fs
   = Rmax (fs * sqrt (H / required t bold W fs)) (fs * 0.6)) /\
  (~ H * 1.1 < required t bold W fs ->
   lines t bold W fs = 1%Z /\ W < measureTextWidth t fs bold ->
   fit t bold W H fs
   = Rmax (fs * (W / measureTextWidth t fs bold)) (fs * 0.6)) /\
  (~ H * 1.1 < required t bold W fs ->
   ~ (lines t bold W fs = 1%Z /\ W < measureTextWidth t fs bold) ->
   fit t bold W H fs = fs).
Proof.
  unfold fit, required, lines, fitFontSize.
  destruct (Rlt_dec (H * 1.1) (requiredHeight measureTextWidth userLineSpacing t bold W fs));
    destruct (Z.eq_dec (estimatedLines measureTextWidth t bold W fs) 1);
    destruct (Rlt_dec W (measureTextWidth t fs bold));
    repeat split; intros; tauto.
Qed.

(** The fitted size lies between 60% and 100% of the nominal size. *)
Lemma fitFontSize_bounds t bold W H fs :
  0 <= W -> 0 <= H -> 0 <= fs ->
  fs * 0.6 <= fit t bold W H fs <= fs.
Proof.
  intros HW HH Hfs. unfold fit, fitFontSize.
  destruct (Rlt_dec _ _) as [Hreq | _].
  - apply floored_scaling; trivial.
    apply sqrt_in_unit, ratio_in_unit; Lra.lra.
  - destruct (Z.eq_dec _ _) as [_ | _]; [| Lra.lra].
    destruct (Rlt_dec _ _) as [Hw | _]; [| Lra.lra].
    apply floored_scaling; trivial. apply ratio_in_unit; Lra.lra.
Qed.

(** In a box of positive width one estimated line is never wider than
    the box: the width-constrained case does not arise. *)
Lemma single_line_fits t bold W fs :
  0 < W -> lines t bold W fs = 1%Z -> measureTextWidth t fs bold <= W * 0.95.
Proof.
  intros HW Hl. unfold lines, estimatedLines in Hl.
  pose proof (Zceil_bound (measureTextWidth t fs bold / (W * 0.95))) as [_ Hb].
  rewrite Hl in Hb.
  assert (Hpos : 0 < W * 0.95) by Lra.lra.
  apply (Rmult_le_compat_r (W * 0.95)) in Hb; [| Lra.lra].
  unfold Rdiv in Hb. rewrite Rmult_assoc, Rinv_l in Hb; Lra.lra.
Qed.

End Rule.

Lemma Q2R_nonneg q : (0 <= q)%Q -> 0 <= Q2R q.
Proof. intro H. rewrite <- RMicromega.Q2R_0. now apply Qle_Rle. Qed.

Lemma scaled_nonneg scale q : 0 < scale -> (0 <= q)%Q -> 0 <= scaled scale q.
Proof.
  intros Hs Hq. unfold scaled. apply Rmult_le_pos; [now apply Q2R_nonneg | Lra.lra].
Qed.

(** C7.  For a text item of the data model in a box of positive width,
    drawn at a positive scale: the font is shrunk by the square root of
    box height over required height exactly when the required height
    exceeds the box height by more than 10%; otherwise by box width over
    measured width exactly when one line is estimated and the measured
    width exceeds the box width; otherwise it is left alone.  Either
    shrinking is floored at 60% of the nominal size, and the result is
    never below 60% of the nominal size and never above it. *)
Theorem autofit_rule (measureTextWidth : jsstring -> R -> bool -> R)
        (scale userLineSpacing : R) (g : Geometry) (p : TextProps) :
  0 < scale -> (0 < width g)%Q -> (0 <= height g)%Q -> (0 <= fontSize p)%Q ->
  let nominal := scaled scale (fontSize p) in
  let boxW := scaled scale (width g) in
  let boxH := scaled scale (height g) in
  let bold := truthy (isBold p) in
  let measured := measureTextWidth (text p) nominal bold in
  let lines := estimatedLines measureTextWidth (text p) bold boxW nominal in
  let required :=
    requiredHeight measureTextWidth userLineSpacing (text p) bold boxW nominal in
  let size := itemFontSize measureTextWidth scale userLineSpacing g p in
  (boxH * 1.1 < required ->
   size = Rmax (nominal * sqrt (boxH / required)) (nominal * 0.6)) /\
  (~ boxH * 1.1 < required -> lines = 1%Z /\ boxW < measured ->
   size = Rmax (nominal * (boxW / measured)) (nominal * 0.6)) /\
  (~ boxH * 1.1 < required -> ~ (lines = 1%Z /\ boxW < measured) ->
   size = nominal) /\
  nominal * 0.6 <= size <= nominal.
Proof.
  intros Hs Hw Hh Hf nominal boxW boxH bold measured lines required size.
  destruct (fitFontSize_cases measureTextWidth userLineSpacing
              (text p) bold boxW boxH nominal) as (C1 & C2 & C3).
  split; [exact C1 |]. split; [exact C2 |]. split; [exact C3 |].
  apply fitFontSize_bounds; apply scaled_nonneg; trivial.
  now apply Qlt_le_weak.
Qed.

Lemma autofit_rule_witness :
  let g := mkGeometry 0 0 100 12 in
  let p := mkTextProps (lit "Hello") 12 (lit "F") None None None None None in
  let size := itemFontSize halfEm 1 1.5 g p in
  (scaled 1 12 * 1.1 < requiredHeight halfEm 1.5 (lit "Hello") false
                         (scaled 1 100) (scaled 1 12) ->
   size = Rmax (scaled 1 12
                * sqrt (scaled 1 12
                        / requiredHeight halfEm 1.5 (lit "Hello") false
                            (scaled 1 100) (scaled 1 12)))
               (scaled 1 12 * 0.6)) /\
  scaled 1 12 * 0.6 <= size <= scaled 1 12.
Proof.
  destruct (autofit_rule halfEm 1 1.5
              (mkGeometry 0 0 100 12)
              (mkTextProps (lit "Hello") 12 (lit "F") None None None None None))
    as (C1 & _ & _ & B).
  - Lra.lra.
  - reflexivity.
  - discriminate.
  - discriminate.
  - split; [exact C1 | exact B].
Defined.

(** C8.  The estimated required height is the estimated line count, the
    ceiling of the measured width over 95% of the box width, times the
    font size times the line spacing.  For a box of positive width and a
    measurement that is never negative and grows with the font size, a
    smaller font size never gives a larger required height. *)
Theorem required_height_monotone
        (measureTextWidth : jsstring -> R -> bool -> R) (userLineSpacing : R)
        (t : jsstring) (bold : bool) (W fs1 fs2 : R) :
  (forall a b, 0 <= a <= b ->
     measureTextWidth t a bold <= measureTextWidth t b bold) ->
  (forall a, 0 <= a -> 0 <= measureTextWidth t a bold) ->
  0 < W -> 0 <= userLineSpacing -> 0 <= fs1 <= fs2 ->
  requiredHeight measureTextWidth userLineSpacing t bold W fs1
  = IZR (Zceil (measureTextWidth t fs1 bold / (W * 0.95)))
    * (fs1 * userLineSpacing) /\
  requiredHeight measureTextWidth userLineSpacing t bold W fs1
  <= requiredHeight measureTextWidth userLineSpacing t bold W fs2.
Proof.
  intros Hmono Hpos HW HL [H1 H12]. split; [reflexivity |].
  unfold requiredHeight, estimatedLines.
  assert (Hd : 0 < / (W * 0.95)) by (apply Rinv_0_lt_compat; Lra.lra).
  set (q1 := measureTextWidth t fs1 bold / (W * 0.95)).
  set (q2 := measureTextWidth t fs2 bold / (W * 0.95)).
  assert (Hq1 : 0 <= q1).
  { unfold q1, Rdiv. apply Rmult_le_pos; [now apply Hpos | Lra.lra]. }
  assert (Hq : q1 <= q2).
  { unfold q1, q2, Rdiv.
    apply Rmult_le_compat_r; [Lra.lra | apply Hmono; Lra.lra]. }
  pose proof (Zceil_bound q1) as [_ Hc1].
  pose proof (IZR_le _ _ (Zceil_le _ _ Hq)) as Hc.
  apply Rmult_le_compat; try Lra.lra.
  - apply Rmult_le_pos; Lra.lra.
  - apply Rmult_le_compat_r; Lra.lra.
Qed.

Lemma halfEm_monotone t bold a b : a <= b -> halfEm t a bold <= halfEm t b bold.
Proof.
  intro H. unfold halfEm. pose proof (pos_INR (length t)).
  apply Rmult_le_compat_r; trivial. Lra.lra.
Qed.

Lemma halfEm_nonneg t bold a : 0 <= a -> 0 <= halfEm t a bold.
Proof.
  intro H. unfold halfEm. pose proof (pos_INR (length t)).
  apply Rmult_le_pos; trivial. Lra.lra.
Qed.

Lemma required_height_monotone_witness :
  requiredHeight halfEm 1.5 (lit "Hello") false 100 10
  = IZR (Zceil (halfEm (lit "Hello") 10 false / (100 * 0.95))) * (10 * 1.5) /\
  requiredHeight halfEm 1.5 (lit "Hello") false 100 10
  <= requiredHeight halfEm 1.5 (lit "Hello") false 100 12.
Proof.
  apply (required_height_monotone halfEm 1.5 (lit "Hello") false 100 10 12).
  - intros a b H. apply halfEm_monotone. Lra.lra.
  - intro a. apply halfEm_nonneg.
  - Lra.lra.
  - Lra.lra.
  - Lra.lra.
Defined.

End AutoFitFacts.

(* ================================================================== *)
(** ** Line grouping: the alignment of a new item *)

Module LineGrouperFacts.

Import T Str LineGrouper.

Lemma fold_left_invariant (A B : Type) (P : A -> Prop) (f : A -> B -> A)
      (l : list B) :
  (forall a b, In b l -> P a -> P (f a b)) ->
  forall a, P a -> P (fold_left f l a).
Proof.
  induction l as [| b l IH]; intros Hstep a Ha; simpl; trivial.
  apply IH.
  - intros a' b' Hin. apply Hstep. now right.
  - apply Hstep; [now left | trivial].
Qed.

(** What the alignment of a new group is. *)
Lemma alignmentFor_cases vw gx w :
  (alignmentFor vw gx w = Some Center
   <-> Num.abs ((gx + w / 2) - vw / 2) < 15) /\
  (alignmentFor vw gx w = Some Right
   <-> ~ Num.abs ((gx + w / 2) - vw / 2) < 15 /\ vw * (65 # 100) < gx) /\
  (alignmentFor vw gx w = None
   <-> ~ Num.abs ((gx + w / 2) - vw / 2) < 15 /\ ~ vw * (65 # 100) < gx).
Proof.
  unfold alignmentFor.
  destruct (NumFacts.ltb_cases (Num.abs ((gx + w / 2) - vw / 2)) 15)
    as [[-> Hc] | [-> Hc]];
    [| destruct (NumFacts.ltb_cases (vw * (65 # 100)) gx)
        as [[-> Hr] | [-> Hr]]];
    repeat split; intros; try discriminate; try tauto;
    try (intro; Lqa.lra); try (exfalso; intuition Lqa.lra).
Qed.

(** *** Every item keeps what its first run decided *)

Lemma newGroup_started vw vh thr ky st item content :
  In item content ->
  StartedBy vw content (asItem (newGroup vw vh thr ky st item)).
Proof.
  intro Hin. unfold newGroup, asItem. simpl.
  eexists. eexists. exists item, []. simpl.
  repeat split; trivial. now rewrite app_nil_r.
Qed.

Lemma extend_started vw content g item :
  StartedBy vw content (asItem g) -> StartedBy vw content (asItem (extend g item)).
Proof.
  destruct g as [cg cp]. unfold asItem, extend. simpl.
  intros (g & p & r & suffix & E & Hin & Hx & Ht & Ha).
  injection E as <- <-.
  destruct (Num.ltb _ _);
    (eexists; eexists; exists r; eexists; split; [reflexivity |]; simpl;
     repeat split; trivial; rewrite Ht, <- !app_assoc; reflexivity).
Qed.

Lemma processRun_started vw vh thr ky content st item :
  In item content ->
  wellStarted vw content st ->
  wellStarted vw content (processRun vw vh thr ky st item).
Proof.
  unfold wellStarted, processRun, pageItems. intros Hin H.
  destruct (currentGroup st) as [g |].
  - apply Forall_app in H. destruct H as [Hp Hg].
    inversion Hg as [| ? ? Hg1 _]; subst.
    destruct (joins g item); simpl.
    + apply Forall_app. split; trivial.
      constructor; [now apply extend_started | constructor].
    + rewrite <- app_assoc. apply Forall_app. split; trivial. simpl.
      constructor; trivial.
      constructor; [now apply newGroup_started | constructor].
  - simpl. apply Forall_app. apply Forall_app in H. destruct H as [Hp _].
    split; trivial.
    constructor; [now apply newGroup_started | constructor].
Qed.

Lemma lineItems_in runs ky r : In r (lineItems runs ky) -> In r runs.
Proof.
  unfold lineItems. intro H.
  apply (Permutation_in _ (Permutation_sym (jsSort_perm _ _ _))) in H.
  apply filter_In in H. tauto.
Qed.

Lemma processLine_started vw vh thr content runs st ky :
  (forall r, In r runs -> In r content) ->
  wellStarted vw content st ->
  wellStarted vw content (processLine vw vh thr runs st ky).
Proof.
  intros Hsub H. unfold processLine.
  apply fold_left_invariant.
  - intros a b Hb. apply processRun_started. now apply Hsub, (lineItems_in _ ky).
  - unfold wellStarted, pageItems at 1. simpl. now rewrite app_nil_r.
Qed.

(** C9, as the code has it.  Every text item produced by line grouping
    starts with one run of the page and has that run's left edge.  Its
    alignment is decided when it is created, from that run alone: center
    exactly when the run's horizontal center is less than 15 from the
    page's midpoint, right exactly when it is not center and the left edge
    exceeds 65% of the page width, unset otherwise. *)
Theorem alignment_rule (vw vh : Q) (content : list Run) :
  Forall (StartedBy vw content) (groupText vw vh content) /\
  forall gx w,
    (alignmentFor vw gx w = Some Center
     <-> Num.abs ((gx + w / 2) - vw / 2) < 15) /\
    (alignmentFor vw gx w = Some Right
     <-> ~ Num.abs ((gx + w / 2) - vw / 2) < 15 /\ vw * (65 # 100) < gx) /\
    (alignmentFor vw gx w = None
     <-> ~ Num.abs ((gx + w / 2) - vw / 2) < 15 /\ ~ vw * (65 # 100) < gx).
Proof.
  split; [| apply alignmentFor_cases].
  unfold groupText.
  apply (fold_left_invariant _ _ (wellStarted vw content)).
  - intros st ky _. apply processLine_started.
    intros r Hr. apply filter_In in Hr. tauto.
  - constructor.
Qed.

(** Runs fused into an item widen it after its alignment is decided: the
    item made of the two runs of [helloWorld] is aligned center, and its
    center is 17.5 from the midpoint of the page. *)
Lemma alignment_rule_counterexample :
  exists g p,
    groupText 600 800 helloWorld = [mkItem g (Text p)] /\
    text p = lit "Hello world" /\
    alignment p = Some Center /\
    x g == 280 /\ width g == 75 /\
    Num.abs ((x g + width g / 2) - 600 / 2) == 35 # 2 /\
    Num.ltb (Num.abs ((x g + width g / 2) - 600 / 2)) 15 = false.
Proof.
  eexists. eexists. split; [vm_compute; reflexivity |].
  repeat split.
Qed.

End LineGrouperFacts.

(* ================================================================== *)
(** ** Translation: what is left alone *)

Module TranslateFacts.

Import T Str Translate.

Lemma sameFrame_refl i : sameFrame i i.
Proof.
  unfold sameFrame. repeat split. destruct (detail i); repeat split.
Qed.

Lemma sameFrame_trans a b c : sameFrame a b -> sameFrame b c -> sameFrame a c.
Proof.
  unfold sameFrame, type. intros (T1 & G1 & D1) (T2 & G2 & D2).
  split; [congruence |]. split; [congruence |].
  destruct (detail a), (detail b), (detail c);
    try discriminate; try congruence; intuition congruence.
Qed.

Lemma setText_frame t i : sameFrame i (setText t i).
Proof.
  unfold setText, sameFrame, type.
  destruct i as [g d]. simpl. destruct d; simpl; repeat split.
Qed.

Lemma setRows_frame rows i : sameFrame i (setRows rows i).
Proof.
  unfold setRows, sameFrame, type.
  destruct i as [g d]. simpl. destruct d; simpl; repeat split.
Qed.

(** An update by a frame-keeping function keeps the frame of a list, and
    its length and order with it. *)
Lemma update_frame (f : PdfItem -> PdfItem) :
  (forall i, sameFrame i (f i)) ->
  forall base l idx,
    Forall2 sameFrame base l -> Forall2 sameFrame base (update idx f l).
Proof.
  intros Hf base l idx H. revert idx.
  induction H as [| a b base l Hab H IH]; intro idx; simpl.
  - constructor.
  - destruct idx as [| n]; constructor; trivial.
    apply (sameFrame_trans _ b); trivial.
Qed.

Lemma assign_frame textIndices i limit translatedBatch base :
  forall pageItems,
    Forall2 sameFrame base pageItems ->
    Forall2 sameFrame base
            (assign textIndices i limit translatedBatch pageItems).
Proof.
  unfold assign.
  generalize (combine (seq 0 (length translatedBatch)) translatedBatch).
  intro pairs. induction pairs as [| [bIdx t] pairs IH]; intros l H; simpl.
  - exact H.
  - apply IH.
    destruct (match limit with Some n => (bIdx <? n)%nat | None => true end);
      trivial.
    destruct (nth_error textIndices (i + bIdx)); trivial.
    apply update_frame; trivial. apply setText_frame.
Qed.

Lemma bind_returned (A B : Type) (m : Outcome A) (k : A -> Outcome B) b :
  bind m k = Returned b -> exists a, m = Returned a /\ k a = Returned b.
Proof.
  destruct m as [a |]; simpl; intro H; [eauto | discriminate].
Qed.

Section Service.

Variable translateBatch : nat -> nat -> list jsstring -> TextReply.
Variable translateTable : nat -> nat -> list PdfTableRow -> TableReply.

Lemma textStep_frame pIdx textIndices textContents base pageItems i out :
  Forall2 sameFrame base pageItems ->
  textStep translateBatch pIdx textIndices textContents pageItems i
  = Returned out ->
  Forall2 sameFrame base out.
Proof.
  intros H E. unfold textStep in E.
  destruct (translateBatch pIdx i _) as [[|] | tb |]; try discriminate.
  - now injection E as <-.
  - destruct (_ =? _)%nat; injection E as <-; now apply assign_frame.
  - now injection E as <-.
Qed.

Lemma textLoop_frame pIdx textIndices textContents base starts :
  forall pageItems out,
    Forall2 sameFrame base pageItems ->
    textLoop translateBatch pIdx textIndices textContents starts pageItems
    = Returned out ->
    Forall2 sameFrame base out.
Proof.
  induction starts as [| i rest IH]; intros l out H E; simpl in E.
  - now injection E as <-.
  - apply bind_returned in E. destruct E as (l' & E1 & E2).
    apply (IH l'); trivial. now apply (textStep_frame _ _ _ _ _ _ _ H E1).
Qed.

Lemma tableStep_frame pIdx base pageItems i out :
  Forall2 sameFrame base pageItems ->
  tableStep translateTable pIdx pageItems i = Returned out ->
  Forall2 sameFrame base out.
Proof.
  intros H E. unfold tableStep in E.
  destruct (nth_error pageItems i) as [item |]; [| now injection E as <-].
  destruct (detail item); try (now injection E as <-).
  destruct (translateTable pIdx i rows) as [[|] | rows']; try discriminate.
  - now injection E as <-.
  - injection E as <-. apply update_frame; trivial. apply setRows_frame.
Qed.

Lemma tableLoop_frame pIdx base indices :
  forall pageItems out,
    Forall2 sameFrame base pageItems ->
    tableLoop translateTable pIdx indices pageItems = Returned out ->
    Forall2 sameFrame base out.
Proof.
  induction indices as [| i rest IH]; intros l out H E; simpl in E.
  - now injection E as <-.
  - apply bind_returned in E. destruct E as (l' & E1 & E2).
    apply (IH l'); trivial. now apply (tableStep_frame _ _ _ _ _ H E1).
Qed.

Lemma Forall2_sameFrame_refl l : Forall2 sameFrame l l.
Proof. induction l; constructor; trivial. apply sameFrame_refl. Qed.

Lemma translatePage_frame pIdx page page' :
  translatePage translateBatch translateTable pIdx page = Returned page' ->
  samePageFrame page page'.
Proof.
  unfold translatePage. intro E.
  apply bind_returned in E. destruct E as (items1 & E1 & E).
  apply bind_returned in E. destruct E as (items2 & E2 & E).
  injection E as <-. unfold samePageFrame. simpl. repeat split.
  apply (tableLoop_frame _ _ _ _ _ (textLoop_frame _ _ _ _ _ _ _
           (Forall2_sameFrame_refl _) E1) E2).
Qed.

Lemma translatePages_frame ps : forall pIdx ps',
  translatePages translateBatch translateTable pIdx ps = Returned ps' ->
  Forall2 samePageFrame ps ps'.
Proof.
  induction ps as [| page rest IH]; intros pIdx ps' E; simpl in E.
  - injection E as <-. constructor.
  - apply bind_returned in E. destruct E as (page' & E1 & E).
    apply bind_returned in E. destruct E as (rest' & E2 & E).
    injection E as <-. constructor.
    + now apply (translatePage_frame pIdx).
    + now apply (IH (S pIdx)).
Qed.

(** *** With no fatal failure the translation returns *)

Hypothesis NoFatal : neverFatal translateBatch translateTable.

Lemma textLoop_returns pIdx textIndices textContents starts :
  forall pageItems, exists out,
    textLoop translateBatch pIdx textIndices textContents starts pageItems
    = Returned out.
Proof.
  induction starts as [| i rest IH]; intro l; simpl; [eauto |].
  unfold textStep. pose proof (proj1 NoFatal pIdx i) as NF.
  destruct (translateBatch pIdx i _) as [[|] | tb |] eqn:E; simpl.
  - now elim (NF _ E).
  - apply IH.
  - destruct (_ =? _)%nat; simpl; apply IH.
  - apply IH.
Qed.

Lemma tableLoop_returns pIdx indices :
  forall pageItems, exists out,
    tableLoop translateTable pIdx indices pageItems = Returned out.
Proof.
  induction indices as [| i rest IH]; intro l; simpl; [eauto |].
  unfold tableStep.
  destruct (nth_error l i) as [item |]; simpl; [| apply IH].
  destruct (detail item); simpl; try apply IH.
  pose proof (proj2 NoFatal pIdx i rows) as NF.
  destruct (translateTable pIdx i rows) as [[|] | rows']; simpl.
  - now elim NF.
  - apply IH.
  - apply IH.
Qed.

Lemma translatePages_returns ps : forall pIdx, exists ps',
  translatePages translateBatch translateTable pIdx ps = Returned ps'.
Proof.
  induction ps as [| page rest IH]; intro pIdx; simpl; [eauto |].
  unfold translatePage.
  destruct (textLoop_returns pIdx
              (map fst (collectTexts 0 (items page)))
              (map snd (collectTexts 0 (items page)))
              (batchStarts (length (map snd (collectTexts 0 (items page)))))
              (items page)) as [items1 ->].
  simpl.
  destruct (tableLoop_returns pIdx (seq 0 (length items1)) items1)
    as [items2 ->].
  simpl. destruct (IH (S pIdx)) as [rest' ->]. simpl. eauto.
Qed.

End Service.

(** *** The loop bounds and two runs of the translation *)

Lemma batchStarts_spec n i :
  In i (batchStarts n) <-> (i < n /\ i mod BATCH_SIZE = 0)%nat.
Proof.
  unfold batchStarts, BATCH_SIZE. rewrite in_map_iff. split.
  - intros (k & <- & Hk). apply in_seq in Hk. split.
    + assert ((n + 40 - 1) / 40 * 40 <= n + 40 - 1)%nat
        by (rewrite Nat.mul_comm; apply Nat.Div0.mul_div_le).
      nia.
    + apply Nat.Div0.mod_mul.
  - intros [Hi Hm]. exists (i / 40)%nat. split.
    + pose proof (Nat.div_mod_eq i 40). lia.
    + apply in_seq. split; [lia |]. rewrite Nat.add_0_l.
      apply Nat.Div0.div_lt_upper_bound.
      pose proof (Nat.div_mod_eq (n + 40 - 1) 40).
      pose proof (Nat.mod_upper_bound (n + 40 - 1) 40). lia.
Qed.

Example translate_sample :
  translatePdfStructure echoBatch echoTable (mkStructure [samplePage])
  = Returned
      (mkStructure
         [mkPage
            [Merger.line "Bonjour" 50 100 200 12 12;
             mkItem (mkGeometry 0 200 90 90) (Image (lit "placeholder"));
             mkItem (mkGeometry 50 300 500 50)
                    (Table [mkRow [mkCell (lit "oui") (Some true) None None None]]
                           true);
             Merger.line "Bonjour" 50 400 200 12 12]
            600 800]).
Proof. reflexivity. Qed.

(** A reply shorter than the batch is used as far as it goes. *)
Example translate_short_reply :
  translatePdfStructure shortBatch echoTable (mkStructure [samplePage])
  = Returned
      (mkStructure
         [mkPage
            [Merger.line "Bonjour" 50 100 200 12 12;
             mkItem (mkGeometry 0 200 90 90) (Image (lit "placeholder"));
             mkItem (mkGeometry 50 300 500 50)
                    (Table [mkRow [mkCell (lit "oui") (Some true) None None None]]
                           true);
             Merger.line "World" 50 400 200 12 12]
            600 800]).
Proof. reflexivity. Qed.

(** A fatal failure is rethrown: nothing is returned. *)
Example translate_fatal :
  translatePdfStructure fatalBatch echoTable (mkStructure [samplePage])
  = Thrown.
Proof. reflexivity. Qed.

(** C10.  Whenever the translation returns, it returns as many pages, in
    order, each with its width, its height and as many items in the same
    order; every item keeps its type and geometry, a text item keeps all
    but its text, a table all but its rows, and other items are
    unchanged.  It returns whenever the service does not fail fatally; a
    fatal failure is rethrown and nothing is returned. *)
Theorem translation_keeps_frame
        (translateBatch : nat -> nat -> list jsstring -> TextReply)
        (translateTable : nat -> nat -> list PdfTableRow -> TableReply)
        (structure : PdfStructure) :
  (forall translated,
     translatePdfStructure translateBatch translateTable structure
     = Returned translated ->
     Forall2 samePageFrame (pages structure) (pages translated)) /\
  (neverFatal translateBatch translateTable ->
   exists translated,
     translatePdfStructure translateBatch translateTable structure
     = Returned translated).
Proof.
  unfold translatePdfStructure. split.
  - intros translated E. apply bind_returned in E.
    destruct E as (newPages & E1 & E). injection E as <-. simpl.
    now apply (translatePages_frame translateBatch translateTable _ 0%nat).
  - intro NF.
    destruct (translatePages_returns translateBatch translateTable NF
                (pages structure) 0%nat) as [ps' ->].
    simpl. eauto.
Qed.

End TranslateFacts.

(* ================================================================== *)
(** ** Paragraph merging: what the whole pass keeps *)

Module MergerPass.

Import T Str Merger.

Lemma fuse_wellSized cg cp ng np :
  canMerge cg cp ng np = true ->
  0 <= width cg -> 0 <= height ng ->
  wellSized (fuse cg cp ng np).
Proof.
  intros M Hw Hh. apply MergerFacts.canMerge_iff in M.
  destruct M as (_ & _ & [Hgap _] & _).
  unfold wellSized, fuse. simpl. split.
  - destruct (NumFacts.min_cases (x cg) (x ng)) as [[-> ?] | [-> ?]];
      destruct (NumFacts.max_cases (x cg + width cg) (x ng + width ng))
        as [[-> ?] | [-> ?]]; Lqa.lra.
  - Lqa.lra.
Qed.

Lemma mergeFrom_wellSized rest : forall current,
  wellSized current -> Forall wellSized rest ->
  Forall wellSized (mergeFrom current rest).
Proof.
  induction rest as [| next rest IH]; intros current Hc Hr; simpl.
  - now constructor.
  - inversion Hr as [| ? ? Hn Hr']; subst.
    destruct current as [cg cd], next as [ng nd]; simpl.
    destruct cd as [cp | | |], nd as [np | | |];
      try (constructor; [assumption | now apply IH]).
    destruct (canMerge cg cp ng np) eqn:M.
    + apply IH; trivial.
      apply fuse_wellSized; trivial; [apply Hc | apply Hn].
    + constructor; [assumption | now apply IH].
Qed.

(** X1.  The merger keeps the data model's invariant: merged boxes have
    extents that are not negative when the input boxes have. *)
Theorem mergeTextBlocks_wellSized (items : list PdfItem) :
  Forall wellSized items -> Forall wellSized (mergeTextBlocks items).
Proof.
  destruct items as [| first rest]; simpl; intro H; [constructor |].
  inversion H; subst. now apply mergeFrom_wellSized.
Qed.

Lemma mergeTextBlocks_wellSized_witness :
  Forall wellSized
    (mergeTextBlocks [line "first line" 10 100 100 12 12;
                      line "second line" 7 114 100 12 12]).
Proof.
  apply mergeTextBlocks_wellSized.
  repeat constructor; simpl; discriminate.
Defined.

Lemma mergeFrom_length rest : forall current,
  (1 <= length (mergeFrom current rest) <= S (length rest))%nat.
Proof.
  induction rest as [| next rest IH]; intro current; simpl; [lia |].
  destruct (detail current), (detail next);
    try (simpl; specialize (IH next); lia).
  destruct (canMerge _ _ _ _); simpl.
  - specialize (IH (fuse (geom current) p (geom next) p0)). lia.
  - specialize (IH next). lia.
Qed.

(** X2.  The merger never adds an item and never loses the page: the output
    is no longer than the input and is empty only for an empty input. *)
Theorem mergeTextBlocks_length (items : list PdfItem) :
  (length (mergeTextBlocks items) <= length items)%nat /\
  (mergeTextBlocks items = [] <-> items = []).
Proof.
  destruct items as [| first rest]; simpl.
  - split; [lia | tauto].
  - pose proof (mergeFrom_length rest first) as [H1 H2].
    split; [lia |]. split; [| discriminate].
    intro E. rewrite E in H1. simpl in H1. lia.
Qed.

Lemma isText_fuse cg cp ng np : isText (fuse cg cp ng np) = true.
Proof. reflexivity. Qed.

Lemma mergeFrom_others rest : forall current,
  filter (fun i => negb (isText i)) (mergeFrom current rest)
  = filter (fun i => negb (isText i)) (current :: rest).
Proof.
  induction rest as [| next rest IH]; intro current; [reflexivity |].
  destruct current as [cg cd], next as [ng nd].
  destruct cd as [cp | | |], nd as [np | | |];
    try (simpl; f_equal; exact (IH _));
    try (simpl; exact (IH _)).
  simpl mergeFrom. destruct (canMerge cg cp ng np).
  - rewrite IH. reflexivity.
  - simpl. exact (IH _).
Qed.

Lemma mergeFrom_unpaired rest : forall current,
  noTextPair (current :: rest) = true -> mergeFrom current rest = current :: rest.
Proof.
  induction rest as [| next rest IH]; intros current H; [reflexivity |].
  change (noTextPair (current :: next :: rest))
    with (negb (isText current && isText next) && noTextPair (next :: rest))
    in H.
  apply andb_true_iff in H. destruct H as [H1 H2].
  simpl. unfold isText in H1.
  destruct (detail current), (detail next); try discriminate;
    now rewrite (IH _ H2).
Qed.

(** X3.  Images, paths and tables pass through the merger untouched and in
    order, and a list in which no two neighbours are both text is
    returned as it is. *)
Theorem mergeTextBlocks_leaves_others (items : list PdfItem) :
  filter (fun i => negb (isText i)) (mergeTextBlocks items)
  = filter (fun i => negb (isText i)) items /\
  (noTextPair items = true -> mergeTextBlocks items = items).
Proof.
  destruct items as [| first rest]; simpl mergeTextBlocks.
  - split; trivial.
  - split; [apply mergeFrom_others | apply mergeFrom_unpaired].
Qed.

(** X4.  A merged box never loses the first item: it starts at the first
    item's top, not right of its left edge, and ends not left of either
    item's right edge; with a second line more than 5 further left it is
    exactly the horizontal union. *)
Theorem merged_box_covers (cg ng : Geometry) (cp np : TextProps) :
  canMerge cg cp ng np = true ->
  exists m p,
    mergeTextBlocks [mkItem cg (Text cp); mkItem ng (Text np)]
    = [mkItem m (Text p)] /\
    y m = y cg /\ x m <= x cg /\
    x cg + width cg <= x m + width m /\
    x ng + width ng <= x m + width m /\
    y m + height m == y ng + height ng /\
    (x ng < x cg - 5 \/ x cg <= x ng ->
     x m == Num.min (x cg) (x ng) /\
     x m + width m == Num.max (x cg + width cg) (x ng + width ng)).
Proof.
  intro M. simpl. rewrite M. unfold fuse.
  eexists. eexists. split; [reflexivity |]. simpl.
  destruct (NumFacts.min_cases (x cg) (x ng)) as [[-> ?] | [-> ?]];
    destruct (NumFacts.max_cases (x cg + width cg) (x ng + width ng))
      as [[-> ?] | [-> ?]];
    destruct (NumFacts.ltb_cases (x ng) (x cg - 5)) as [[-> ?] | [-> ?]];
    repeat split; try Lqa.lra; intros [? | ?]; Lqa.lra.
Qed.

Lemma merged_box_covers_witness :
  exists m p,
    mergeTextBlocks [mkItem (mkGeometry 10 100 100 12)
                       (Text (mkTextProps (lit "a") 12 (lit "F") None None None None None));
                     mkItem (mkGeometry 7 114 90 12)
                       (Text (mkTextProps (lit "b") 12 (lit "F") None None None None None))]
    = [mkItem m (Text p)] /\
    y m = 100 /\ x m <= 10 /\
    10 + 100 <= x m + width m /\
    7 + 90 <= x m + width m /\
    y m + height m == 114 + 12 /\
    (7 < 10 - 5 \/ 10 <= 7 ->
     x m == Num.min 10 7 /\
     x m + width m == Num.max (10 + 100) (7 + 90)).
Proof.
  apply (merged_box_covers (mkGeometry 10 100 100 12) (mkGeometry 7 114 90 12)
           (mkTextProps (lit "a") 12 (lit "F") None None None None None)
           (mkTextProps (lit "b") 12 (lit "F") None None None None None)).
  reflexivity.
Defined.

End MergerPass.

(* ================================================================== *)
(** ** Line-spacing statistics: the range of the result *)

Module StatsRange.

Import Stats.

Lemma len_cons (A : Type) (a : A) (l : list A) : Num.len (a :: l) == 1 + Num.len l.
Proof.
  unfold Num.len. simpl length. rewrite Nat2Z.inj_succ, <- Z.add_1_l.
  now rewrite inject_Z_plus.
Qed.

Lemma len_nonneg (A : Type) (l : list A) : 0 <= Num.len l.
Proof.
  unfold Num.len. change 0 with (inject_Z 0). rewrite <- Zle_Qle. lia.
Qed.

Lemma sum_between lo hi : forall gaps acc,
  Forall (fun g => lo < g /\ g < hi) gaps ->
  acc + lo * Num.len gaps <= fold_left Qplus gaps acc /\
  fold_left Qplus gaps acc <= acc + hi * Num.len gaps /\
  (gaps <> [] ->
   acc + lo * Num.len gaps < fold_left Qplus gaps acc /\
   fold_left Qplus gaps acc < acc + hi * Num.len gaps).
Proof.
  induction gaps as [| g gaps IH]; intros acc F.
  - simpl. unfold Num.len. simpl. unfold inject_Z.
    split; [Lqa.lra | split; [Lqa.lra | intro H; now elim H]].
  - inversion F as [| ? ? [Hlo Hhi] F']; subst.
    destruct (IH (acc + g) F') as (L & U & _).
    pose proof (len_cons _ g gaps) as E. simpl fold_left.
    assert (lo * Num.len (g :: gaps) == lo + lo * Num.len gaps)
      by (rewrite E; ring).
    assert (hi * Num.len (g :: gaps) == hi + hi * Num.len gaps)
      by (rewrite E; ring).
    repeat split; Lqa.lra.
Qed.

Lemma mean_between gaps :
  gaps <> [] -> Forall (fun g => 5 < g /\ g < 300) gaps ->
  5 < mean gaps /\ mean gaps < 300.
Proof.
  intros Hne F. unfold mean, Num.sum.
  destruct (sum_between 5 300 gaps 0 F) as (_ & _ & S).
  destruct (S Hne) as [L U].
  assert (Hlen : 0 < Num.len gaps).
  { destruct gaps as [| g gaps]; [congruence |].
    rewrite len_cons. pose proof (len_nonneg _ gaps). Lqa.lra. }
  split.
  - apply Qlt_shift_div_l; trivial. Lqa.lra.
  - apply Qlt_shift_div_r; trivial. Lqa.lra.
Qed.

Lemma collectGaps_kept yCoords :
  Forall (fun g => 5 < g /\ g < 300) (collectGaps yCoords).
Proof.
  rewrite StatsFacts.collectGaps_filter. apply Forall_forall. intros g Hg.
  apply filter_In in Hg. now apply StatsFacts.keepGap_iff.
Qed.

(** X5.  Whatever the coordinates, the statistics are usable: the line height
    is more than 5 and at most 300, the paragraph threshold more than 7.5
    and at most 450, and the threshold is 1.5 line heights except for the
    defaults (14 and 20). *)
Theorem stats_in_range (yCoords : list Q) :
  let stats := calculateLineSpacingStats yCoords in
  (5 < stdLineHeight stats /\ stdLineHeight stats <= 300) /\
  ((15 # 2) < paraGapThreshold stats /\ paraGapThreshold stats <= 450) /\
  (stats = defaults \/
   paraGapThreshold stats == stdLineHeight stats * (3 # 2)).
Proof.
  cbv zeta.
  destruct (collectGaps yCoords) as [| g gs] eqn:E.
  - rewrite (StatsFacts.stats_none _ E). simpl.
    repeat split; try discriminate; try (now left); reflexivity.
  - assert (Hne : collectGaps yCoords <> []) by (rewrite E; discriminate).
    rewrite (StatsFacts.stats_some _ Hne). cbv zeta. simpl.
    set (gaps := collectGaps yCoords) in *.
    assert (Hstd : 5 < (if (8 <? modeOf gaps)%Z
                        then inject_Z (modeOf gaps) else mean gaps) /\
                   (if (8 <? modeOf gaps)%Z
                    then inject_Z (modeOf gaps) else mean gaps) <= 300).
    { destruct (Z.ltb_spec 8 (modeOf gaps)) as [H8 | H8].
      - destruct (StatsFacts.modeOf_isMode gaps Hne) as (Hin & _).
        apply in_map_iff in Hin. destruct Hin as (g0 & Hr & Hg0).
        assert (K : keepGap g0 = true).
        { unfold gaps in Hg0. rewrite StatsFacts.collectGaps_filter in Hg0.
          apply filter_In in Hg0. tauto. }
        pose proof (StatsFacts.round_kept _ K) as [_ Hu]. rewrite Hr in Hu.
        split.
        + change 5 with (inject_Z 5). rewrite <- Zlt_Qlt. lia.
        + change 300 with (inject_Z 300). rewrite <- Zle_Qle. lia.
      - destruct (mean_between gaps Hne (collectGaps_kept yCoords)).
        split; Lqa.lra. }
    destruct Hstd as [L U].
    repeat split; Lqa.lra.
Qed.

End StatsRange.

(* ================================================================== *)
(** ** The sort orders by key *)

Section JsSortKeys.

Variable A : Type.
Variable key : A -> Q.

Lemma insertSorted_ascend a l :
  keysAscend key l -> keysAscend key (insertSorted (byKey key) a l).
Proof.
  induction l as [| b l IH]; simpl; intro H; [auto |].
  destruct H as [Hb Hl].
  destruct (Num.leb (byKey key a b) 0) eqn:E.
  - apply NumFacts.leb_le in E. unfold byKey in E. simpl. split; [| tauto].
    constructor; [Lqa.lra |].
    eapply Forall_impl; [| exact Hb]. simpl. intros c Hc. Lqa.lra.
  - simpl. split; [| now apply IH].
    assert (Hab : key b <= key a).
    { destruct (Qlt_le_dec (key a) (key b)) as [Hlt | Hle]; trivial.
      assert (Num.leb (byKey key a b) 0 = true)
        by (apply NumFacts.leb_le; unfold byKey; Lqa.lra).
      congruence. }
    apply Forall_forall. intros c Hc.
    apply (Permutation_in _ (Permutation_sym (insertSorted_perm _ (byKey key) a l)))
      in Hc.
    destruct Hc as [<- | Hc]; trivial.
    revert c Hc. now apply Forall_forall.
Qed.

Lemma jsSort_ascend l : keysAscend key (jsSort (byKey key) l).
Proof.
  induction l as [| a l IH]; simpl; [exact I |].
  now apply insertSorted_ascend.
Qed.

End JsSortKeys.

(* ================================================================== *)
(** ** Reading order: a split keeps items whole *)

Module SplitFacts.

Import T ReadingOrder.

Lemma mergeIntervals_head rest : forall current,
  exists m tl, mergeIntervals current rest = m :: tl /\ s m = s current.
Proof.
  induction rest as [| next rest IH]; intro current; simpl; [eauto |].
  destruct (Num.ltb _ _); [| eauto].
  destruct (IH (mkInterval (s current) (Num.max (e current) (e next))))
    as (m & tl & -> & E). eauto.
Qed.

Lemma ascending_tail a l : ascendingStarts (a :: l) -> ascendingStarts l.
Proof. simpl. tauto. Qed.

(** The merging loop leaves a chain. *)
Lemma mergeIntervals_chained rest : forall current,
  ascendingStarts (current :: rest) -> chained (mergeIntervals current rest).
Proof.
  induction rest as [| next rest IH]; intros current H.
  - simpl in *. tauto.
  - destruct H as (Hc & Hall & Hn & Hall' & Hrest).
    inversion Hall as [| ? ? Hcn Hcr]; subst. simpl mergeIntervals.
    destruct (NumFacts.ltb_cases (s next) (e current - (1 # 10)))
      as [[-> Hlt] | [-> Hge]].
    + apply IH. simpl. split; [| split; trivial].
      destruct (NumFacts.max_cases (e current) (e next)) as [[-> ?] | [-> ?]];
        Lqa.lra.
    + destruct (mergeIntervals_head rest next) as (m & tl & E & Es).
      assert (Hch : chained (mergeIntervals next rest))
        by (apply IH; simpl; tauto).
      rewrite E in *.
      change (s current <= e current /\
              (s current <= s m /\ e current - (1 # 10) <= s m) /\
              chained (m :: tl)).
      rewrite Es. tauto.
Qed.

(** Every input interval lies within one merged interval. *)
Lemma mergeIntervals_covers rest : forall current iv,
  ascendingStarts (current :: rest) ->
  In iv (current :: rest) ->
  exists m, In m (mergeIntervals current rest) /\ s m <= s iv /\ e iv <= e m.
Proof.
  induction rest as [| next rest IH]; intros current iv H Hin.
  - destruct Hin as [<- | []]. exists current. simpl.
    repeat split; auto; Lqa.lra.
  - destruct H as (Hc & Hall & Hn & Hall' & Hrest).
    inversion Hall as [| ? ? Hcn Hcr]; subst. simpl mergeIntervals.
    destruct (NumFacts.ltb_cases (s next) (e current - (1 # 10)))
      as [[-> Hlt] | [-> Hge]].
    + set (wide := mkInterval (s current) (Num.max (e current) (e next))).
      assert (Hw : ascendingStarts (wide :: rest)).
      { simpl. split; [| split; trivial].
        destruct (NumFacts.max_cases (e current) (e next)) as [[-> ?] | [-> ?]];
          Lqa.lra. }
      assert (Hmax : e current <= e wide /\ e next <= e wide).
      { simpl.
        destruct (NumFacts.max_cases (e current) (e next)) as [[-> ?] | [-> ?]];
          split; Lqa.lra. }
      destruct Hin as [<- | [<- | Hin]].
      * destruct (IH wide wide Hw (or_introl eq_refl)) as (m & Hm & L & U).
        exists m. simpl in L. repeat split; trivial; Lqa.lra.
      * destruct (IH wide wide Hw (or_introl eq_refl)) as (m & Hm & L & U).
        exists m. simpl in L. repeat split; trivial; Lqa.lra.
      * apply (IH wide iv Hw). now right.
    + destruct Hin as [<- | Hin].
      * exists current. simpl. repeat split; auto; Lqa.lra.
      * destruct (IH next iv) as (m & Hm & L & U); trivial.
        { simpl. tauto. }
        exists m. simpl. auto.
Qed.

(** In a chain, what comes later starts no earlier, and no more than the
    tolerance before what comes earlier ends. *)
Lemma chained_later a l :
  chained (a :: l) ->
  Forall (fun b => s a <= s b /\ e a - (1 # 10) <= s b) l.
Proof.
  revert a. induction l as [| b l IH]; intros a H; [constructor |].
  simpl in H. destruct H as (Ha & [Hs He] & Hb & Hnext & Hl).
  constructor; [tauto |].
  assert (Hbl : chained (b :: l)) by (simpl; tauto).
  specialize (IH b Hbl).
  eapply Forall_impl; [| exact IH]. simpl. intros c [? ?]. split; Lqa.lra.
Qed.

Lemma chained_split pre : forall l,
  chained (pre ++ l) ->
  chained l /\
  forall m b, In m pre -> In b l -> s m <= s b /\ e m - (1 # 10) <= s b.
Proof.
  induction pre as [| a pre IH]; intros l H.
  - split; [exact H | intros m b []].
  - change ((a :: pre) ++ l) with (a :: (pre ++ l)) in H.
    pose proof (chained_later _ _ H) as Hlater.
    assert (Htl : chained (pre ++ l)) by (simpl in H; tauto).
    destruct (IH l Htl) as [Hl Hrel]. split; trivial.
    intros m b [<- | Hm] Hb; [| now apply Hrel].
    apply (proj1 (Forall_forall _ _) Hlater). apply in_or_app. now right.
Qed.

Lemma chained_wf l m : chained l -> In m l -> s m <= e m.
Proof.
  induction l as [| a l IH]; intros H Hin; [contradiction |].
  simpl in H. destruct Hin as [<- | Hin]; [tauto | apply IH; tauto].
Qed.

(** The scan returns the midpoint of a gap between two neighbours. *)
Lemma scanGaps_neighbours minSz merged : forall best mx sp,
  scanGaps minSz merged best mx = Some sp ->
  best = Some sp \/
  exists pre a b post,
    merged = pre ++ a :: b :: post /\
    minSz < s b - e a /\ sp = (e a + s b) / 2.
Proof.
  induction merged as [| a tl IH]; intros best mx sp H; simpl in H.
  - now left.
  - destruct tl as [| b tl'].
    + now left.
    + assert (lift : forall best' mx',
                scanGaps minSz (b :: tl') best' mx' = Some sp ->
                best' = Some sp \/
                exists pre a0 b0 post,
                  a :: b :: tl' = pre ++ a0 :: b0 :: post /\
                  minSz < s b0 - e a0 /\ sp = (e a0 + s b0) / 2).
      { intros best' mx' H'. apply IH in H'.
        destruct H' as [? | (pre & a0 & b0 & post & E & G & S)]; [now left |].
        right. exists (a :: pre), a0, b0, post. simpl. rewrite E. auto. }
      destruct (Num.ltb minSz (s b - e a)) eqn:E1;
        destruct (Num.ltb mx (s b - e a)) eqn:E2; simpl in H;
        apply lift in H; destruct H as [H | H]; auto.
      right. exists [], a, b, tl'. injection H as <-.
      apply NumFacts.ltb_lt in E1. simpl. auto.
Qed.

Lemma sorted_intervals (l : list Interval) :
  Forall (fun iv => s iv <= e iv) l ->
  ascendingStarts (jsSort (fun a b => s a - s b) l).
Proof.
  intro WF.
  pose proof (jsSort_ascend _ s l) as Asc.
  change (byKey s) with (fun a b : Interval => s a - s b) in Asc.
  assert (WF' : Forall (fun iv => s iv <= e iv)
                       (jsSort (fun a b => s a - s b) l)).
  { apply Forall_forall. intros iv Hiv.
    apply (Permutation_in _ (Permutation_sym (jsSort_perm _ _ l))) in Hiv.
    revert iv Hiv. now apply Forall_forall. }
  induction (jsSort (fun a b => s a - s b) l) as [| a tl IH]; simpl; trivial.
  inversion WF'; subst. simpl in Asc. destruct Asc as [Ha Htl].
  repeat split; auto.
Qed.

(** X6.  A split point cuts through no text, image or table: on the axis
    of the split every item of one of these three types, in a list of
    well-sized items, ends before the split point or starts after it.
    Paths are not among the contributors of [getContributors] and are not
    covered: a split point may lie inside a path. *)
Theorem split_cuts_no_item (lst : list PdfItem) (axis : Axis) (sp : Q) :
  Forall wellSized lst ->
  findSplit lst axis = Some sp ->
  forall i, In i lst ->
    type i = text_t \/ type i = image_t \/ type i = table_t ->
    e (project axis i) < sp \/ sp < s (project axis i).
Proof.
  intros WS H i Hi Ht.
  assert (Hc : isContributor i = true).
  { unfold isContributor. destruct Ht as [-> | [-> | ->]]; reflexivity. }
  clear Ht. unfold findSplit in H.
  destruct (length (getContributors lst) <? 2)%nat; [discriminate |].
  set (ivs := map (project axis) (getContributors lst)) in *.
  assert (WF : Forall (fun iv => s iv <= e iv) ivs).
  { apply Forall_forall. intros iv Hiv. apply in_map_iff in Hiv.
    destruct Hiv as (j & <- & Hj). apply filter_In in Hj.
    destruct Hj as [Hj _].
    destruct (proj1 (Forall_forall _ _) WS j Hj) as [Hw Hh].
    destruct axis; simpl; Lqa.lra. }
  pose proof (sorted_intervals ivs WF) as Asc.
  assert (Hiv : In (project axis i) (jsSort (fun a b => s a - s b) ivs)).
  { apply (Permutation_in _ (jsSort_perm _ _ ivs)).
    apply in_map. now apply filter_In. }
  destruct (jsSort (fun a b => s a - s b) ivs) as [| first rest];
    [discriminate |].
  pose proof (mergeIntervals_chained rest first Asc) as Ch.
  destruct (mergeIntervals_covers rest first _ Asc Hiv) as (m & Hm & L & U).
  apply scanGaps_neighbours in H.
  destruct H as [H | (pre & a & b & post & E & G & ->)]; [discriminate |].
  rewrite E in Ch, Hm.
  pose proof (ReadingOrderFacts.minSize_pos axis) as Hpos.
  assert (Hge : 6 <= minSize axis) by (destruct axis; discriminate).
  replace (pre ++ a :: b :: post) with ((pre ++ [a]) ++ b :: post) in Ch, Hm
    by (rewrite <- app_assoc; reflexivity).
  destruct (chained_split _ _ Ch) as [Chb Rel].
  apply in_app_or in Hm. destruct Hm as [Hm | Hm].
  - left.
    assert (Hma : e m - (1 # 10) <= e a).
    { apply in_app_or in Hm. destruct Hm as [Hm | [<- | []]]; [| Lqa.lra].
      rewrite <- app_assoc in Ch.
      destruct (chained_split _ _ Ch) as [Cha Rel'].
      destruct (Rel' m a Hm (or_introl eq_refl)) as [_ He].
      pose proof (chained_wf _ a Cha (or_introl eq_refl)). Lqa.lra. }
    qhalf.
  - right.
    assert (Hbm : s b <= s m).
    { destruct Hm as [<- | Hm]; [Lqa.lra |].
      pose proof (chained_later _ _ Chb) as Hl.
      apply (proj1 (Forall_forall _ _) Hl m Hm). }
    qhalf.
Qed.

Lemma split_cuts_no_item_witness :
  e (project X (textAt 0 0 100 10)) < 250 # 2 \/
  250 # 2 < s (project X (textAt 0 0 100 10)).
Proof.
  apply (split_cuts_no_item [textAt 150 0 100 10; textAt 0 0 100 10] X (250 # 2)).
  - repeat constructor; simpl; discriminate.
  - reflexivity.
  - simpl. auto.
  - left. reflexivity.
Defined.

(** A path is no contributor: between two columns of text 50 apart the
    split point 125 lies inside a path that spans them. *)
Example split_may_cut_path :
  findSplit [textAt 0 0 100 10; textAt 150 0 100 10; pathAt 50 20 150 2] X
  = Some (250 # 2) /\
  isContributor (pathAt 50 20 150 2) = false /\
  s (project X (pathAt 50 20 150 2)) < 250 # 2 /\
  250 # 2 < e (project X (pathAt 50 20 150 2)).
Proof. repeat split. Qed.

Lemma half_ordered (half : list PdfItem) (n : nat) :
  Forall wellSized half -> (length half < n)%nat ->
  exists out, recursiveOrder n half = Some out /\ Permutation half out.
Proof.
  intros WS Hlen.
  destruct (ReadingOrderFacts.recursiveOrder_ends (length half) half WS
              (Nat.le_refl _)) as [out H].
  exists out. split.
  - apply (ReadingOrderFacts.recursiveOrder_stable (S (length half))); auto.
  - now apply (ReadingOrderFacts.recursiveOrder_perm (S (length half))).
Qed.

(** X7.  The first split decides the order of the whole output: with an
    x-split, every item whose centre is left of the split point comes
    before every other item; with no x-split and a y-split, every item
    whose centre is above the split point comes before every other
    item. *)
Theorem first_split_orders_output (lst : list PdfItem) (sp : Q) :
  Forall wellSized lst -> (1 < length lst)%nat ->
  (findSplit lst X = Some sp ->
   exists l r,
     reorderItemsByReadingFlow lst = Some (l ++ r) /\
     Permutation (before X sp lst) l /\ Permutation (after X sp lst) r) /\
  (findSplit lst X = None -> findSplit lst Y = Some sp ->
   exists t b,
     reorderItemsByReadingFlow lst = Some (t ++ b) /\
     Permutation (before Y sp lst) t /\ Permutation (after Y sp lst) b).
Proof.
  intros WS Hlen.
  assert (halves : forall axis, findSplit lst axis = Some sp ->
    exists l r,
      concat2 (recursiveOrder (length lst) (before axis sp lst))
              (recursiveOrder (length lst) (after axis sp lst))
      = Some (l ++ r) /\
      Permutation (before axis sp lst) l /\ Permutation (after axis sp lst) r).
  { intros axis Hs.
    destruct (ReadingOrderFacts.split_shorter lst axis sp WS Hs) as [Hb Ha].
    destruct (half_ordered (before axis sp lst) (length lst)) as (l & El & Pl);
      [now apply ReadingOrderFacts.wellSized_filter | trivial |].
    destruct (half_ordered (after axis sp lst) (length lst)) as (r & Er & Pr);
      [now apply ReadingOrderFacts.wellSized_filter | trivial |].
    exists l, r. rewrite El, Er. auto. }
  unfold reorderItemsByReadingFlow.
  rewrite ReadingOrderFacts.recursiveOrder_S.
  destruct (Nat.leb_spec (length lst) 1); [lia |].
  split.
  - intro HX. rewrite HX. now apply halves.
  - intros HX HY. rewrite HX, HY. now apply halves.
Qed.

Lemma first_split_orders_output_witness :
  (findSplit [textAt 150 0 100 10; textAt 0 0 100 10] X = Some (250 # 2) ->
   exists l r,
     reorderItemsByReadingFlow [textAt 150 0 100 10; textAt 0 0 100 10]
     = Some (l ++ r) /\
     Permutation
       (before X (250 # 2) [textAt 150 0 100 10; textAt 0 0 100 10]) l /\
     Permutation
       (after X (250 # 2) [textAt 150 0 100 10; textAt 0 0 100 10]) r) /\
  (findSplit [textAt 150 0 100 10; textAt 0 0 100 10] X = None ->
   findSplit [textAt 150 0 100 10; textAt 0 0 100 10] Y = Some (250 # 2) ->
   exists t b,
     reorderItemsByReadingFlow [textAt 150 0 100 10; textAt 0 0 100 10]
     = Some (t ++ b) /\
     Permutation
       (before Y (250 # 2) [textAt 150 0 100 10; textAt 0 0 100 10]) t /\
     Permutation
       (after Y (250 # 2) [textAt 150 0 100 10; textAt 0 0 100 10]) b).
Proof.
  apply (first_split_orders_output
           [textAt 150 0 100 10; textAt 0 0 100 10] (250 # 2)).
  - repeat constructor; simpl; discriminate.
  - simpl. lia.
Defined.

End SplitFacts.

(* ================================================================== *)
(** ** Line grouping: what every produced item satisfies *)

Module GrouperFacts.

Import T Str LineGrouper.

(** *** Blank strings *)

Lemma trimStart_nil s : trimStart s = [] <-> forallb isSpace s = true.
Proof.
  induction s as [| c s IH]; simpl; [tauto |].
  destruct (isSpace c); simpl; [exact IH | split; discriminate].
Qed.

Lemma trimStart_head s c r : trimStart s = c :: r -> isSpace c = false.
Proof.
  induction s as [| d s IH]; simpl; [discriminate |].
  destruct (isSpace d) eqn:E; [exact IH |]. intro H. injection H as <- _.
  exact E.
Qed.

Lemma forallb_rev (f : jschar -> bool) s : forallb f (rev s) = forallb f s.
Proof.
  induction s as [| c s IH]; simpl; trivial.
  rewrite forallb_app, IH. simpl. rewrite andb_true_r. apply andb_comm.
Qed.

Lemma trimEnd_nil s : trimEnd s = [] <-> forallb isSpace s = true.
Proof.
  unfold trimEnd. rewrite <- (forallb_rev isSpace s), <- trimStart_nil.
  split; intro H.
  - apply (f_equal (@rev jschar)) in H. now rewrite rev_involutive in H.
  - now rewrite H.
Qed.

Lemma isBlank_iff s : isBlank s = true <-> forallb isSpace s = true.
Proof.
  unfold isBlank, trim.
  destruct (trimStart s) as [| c r] eqn:E.
  - apply trimStart_nil in E. change (trimEnd []) with (@nil jschar).
    tauto.
  - pose proof (trimStart_head _ _ _ E) as Hc.
    assert (N : forallb isSpace s = false).
    { destruct (forallb isSpace s) eqn:F; trivial.
      apply trimStart_nil in F. congruence. }
    rewrite N.
    destruct (trimEnd (c :: r)) eqn:T.
    + apply trimEnd_nil in T. simpl in T. rewrite Hc in T. discriminate.
    + split; discriminate.
Qed.

(** Text added after text that is not blank leaves it not blank. *)
Lemma isBlank_app s u : isBlank s = false -> isBlank (s ++ u) = false.
Proof.
  intro H. apply not_true_iff_false. rewrite isBlank_iff, forallb_app.
  apply not_true_iff_false in H. rewrite isBlank_iff in H.
  destruct (forallb isSpace s); [now elim H | discriminate].
Qed.

(** *** The invariant of an item *)

Lemma newGroup_grouped vw vh thr ky st item :
  isBlank (str item) = false ->
  groupedText (asItem (newGroup vw vh thr ky st item)).
Proof.
  intro NB. unfold groupedText, newGroup, asItem. simpl.
  eexists. eexists. eexists. split; [reflexivity |]. simpl.
  split; [exact NB |]. split.
  - destruct (runFontName item); discriminate.
  - split; [reflexivity |].
    destruct (negb (negb (Num.eqb (previousY st) (-1)))
              || Num.ltb thr _) eqn:P; simpl; [| now left].
    destruct (negb (Num.eqb (previousX st) (-1))); simpl; [| now left].
    destruct (NumFacts.ltb_cases 10 (transform4 item - previousX st))
      as [[-> H10] | [-> _]]; simpl; [| now left].
    destruct (NumFacts.ltb_cases (transform4 item - previousX st) 80)
      as [[-> H80] | [-> _]]; simpl; [| now left].
    right. auto.
Qed.

Lemma extend_grouped g item :
  groupedText (asItem g) -> groupedText (asItem (extend g item)).
Proof.
  destruct g as [cg cp]. unfold groupedText, asItem, extend. simpl.
  intros (g & p & d & E & NB & FN & I & D). injection E as <- <-.
  eexists. eexists. exists d. split; [reflexivity |]. simpl.
  repeat split; trivial.
  destruct (Num.ltb _ _); rewrite <- ?app_assoc; now apply isBlank_app.
Qed.

Lemma processRun_grouped vw vh thr ky st item :
  isBlank (str item) = false ->
  Forall groupedText (pageItems st) ->
  Forall groupedText (pageItems (processRun vw vh thr ky st item)).
Proof.
  unfold processRun, pageItems. intros NB H.
  destruct (currentGroup st) as [g |].
  - apply Forall_app in H. destruct H as [Hp Hg].
    inversion Hg as [| ? ? Hg1 _]; subst.
    destruct (joins g item); simpl.
    + apply Forall_app. split; trivial.
      constructor; [now apply extend_grouped | constructor].
    + rewrite <- app_assoc. apply Forall_app. split; trivial. simpl.
      constructor; trivial.
      constructor; [now apply newGroup_grouped | constructor].
  - simpl. apply Forall_app. apply Forall_app in H. destruct H as [Hp _].
    split; trivial.
    constructor; [now apply newGroup_grouped | constructor].
Qed.

Lemma kept_runs content r :
  In r (filter (fun r => negb (isBlank (str r))) content) ->
  isBlank (str r) = false.
Proof.
  intro H. apply filter_In in H. destruct H as [_ H].
  now apply negb_true_iff in H.
Qed.

Lemma pageItems_closed st :
  pageItems (mkCursor (pageItems st) None (previousY st) (previousX st))
  = pageItems st.
Proof. unfold pageItems at 1. simpl. apply app_nil_r. Qed.

(** *** The first item *)

Lemma processRun_opens vw vh thr ky st item :
  opensParagraph st -> opensParagraph (processRun vw vh thr ky st item).
Proof.
  unfold opensParagraph, processRun, pageItems.
  destruct (currentGroup st) as [g |].
  - intros [[E _] | (g0 & p0 & rest & E & PS & IN)].
    { destruct (pushed st); discriminate E. }
    right. destruct (joins g item); simpl.
    + destruct (pushed st) as [| h tl]; simpl in *.
      * injection E as <- <- <-. destruct g as [cg cp].
        unfold asItem, extend. simpl. eexists. eexists. eexists.
        split; [reflexivity |]. simpl. auto.
      * injection E as -> <-. eexists. eexists. eexists.
        split; [reflexivity |]. auto.
    + rewrite E. simpl. eexists. eexists. eexists.
      split; [reflexivity |]. auto.
  - rewrite app_nil_r. intros [(E & PY & PX) | (g0 & p0 & rest & E & PS & IN)].
    + right. rewrite E. simpl. unfold newGroup, asItem. simpl.
      eexists. eexists. eexists. split; [reflexivity |]. simpl.
      rewrite PY, PX. simpl. auto.
    + right. rewrite E. simpl. eexists. eexists. eexists.
      split; [reflexivity |]. auto.
Qed.

Lemma processLine_opens vw vh thr runs st ky :
  opensParagraph st -> opensParagraph (processLine vw vh thr runs st ky).
Proof.
  intro H. unfold processLine.
  apply (LineGrouperFacts.fold_left_invariant _ _ opensParagraph).
  - intros a b _. apply processRun_opens.
  - unfold opensParagraph in *. rewrite pageItems_closed. exact H.
Qed.

Lemma groupText_grouped vw vh content :
  Forall groupedText (groupText vw vh content).
Proof.
  unfold groupText.
  apply (LineGrouperFacts.fold_left_invariant _ _
           (fun st => Forall groupedText (pageItems st))).
  - intros st ky _ H. unfold processLine.
    apply (LineGrouperFacts.fold_left_invariant _ _
             (fun st => Forall groupedText (pageItems st))).
    + intros a b Hb. apply processRun_grouped.
      apply (kept_runs content). now apply (LineGrouperFacts.lineItems_in _ ky).
    + now rewrite pageItems_closed.
  - constructor.
Qed.

(** X8.  Every item the line grouper produces is a text item whose text is
    not blank, with a font name, and with an indent that is 0 or strictly
    between 10 and 80 on a paragraph start; the first item of the page
    starts a paragraph and has no indent. *)
Theorem grouped_items (vw vh : Q) (content : list Run) :
  Forall groupedText (groupText vw vh content) /\
  (groupText vw vh content = [] \/
   exists g p rest,
     groupText vw vh content = mkItem g (Text p) :: rest /\
     isParagraphStart p = Some true /\ indent p = Some 0).
Proof.
  split; [apply groupText_grouped |]. unfold groupText.
  - set (final := fold_left _ _ _).
    assert (H : opensParagraph final).
    { apply (LineGrouperFacts.fold_left_invariant _ _ opensParagraph).
      - intros st ky _. apply processLine_opens.
      - left. repeat split. }
    destruct H as [[E _] | H]; [now left | now right].
Qed.

End GrouperFacts.

(* ================================================================== *)
(** ** One page: the pipeline completes *)

Module PipelineFacts.

Import T Str LineGrouper PagePipeline.

Lemma line_sized vw vh thr ky : forall l st,
  keysAscend transform4 l ->
  (forall r, In r l -> plainRun r) ->
  Forall wellSized (pageItems st) ->
  (forall g, currentGroup st = Some g ->
             Forall (fun r => x (fst g) <= transform4 r) l) ->
  Forall wellSized (pageItems (fold_left (processRun vw vh thr ky) l st)).
Proof.
  induction l as [| r l IH]; intros st Asc Plain WS Left; simpl; trivial.
  destruct Asc as [Hr Asc]. destruct (Plain r (or_introl eq_refl)) as [Pw Ps].
  assert (New : forall st0, wellSized (asItem (newGroup vw vh thr ky st0 r))).
  { intro st0. unfold wellSized, newGroup, asItem. simpl. tauto. }
  apply IH; trivial.
  - intros r' Hr'. apply Plain. now right.
  - unfold processRun, pageItems in *.
    destruct (currentGroup st) as [g |].
    + apply Forall_app in WS. destruct WS as [Wp Wg].
      inversion Wg as [| ? ? [Wgw Wgh] _]; subst.
      specialize (Left g eq_refl). inversion Left as [| ? ? Lr Ll]; subst.
      destruct (joins g r); simpl.
      * apply Forall_app. split; trivial. constructor; [| constructor].
        destruct g as [cg cp]. unfold wellSized, asItem, extend. simpl in *.
        split; [Lqa.lra | trivial].
      * rewrite <- app_assoc. apply Forall_app. split; trivial. simpl.
        constructor; [split; trivial |]. constructor; [apply New | constructor].
    + simpl. apply Forall_app. apply Forall_app in WS. destruct WS as [Wp _].
      split; trivial. constructor; [apply New | constructor].
  - unfold processRun. intros g' Hg'.
    destruct (currentGroup st) as [g |].
    + specialize (Left g eq_refl). inversion Left as [| ? ? Lr Ll]; subst.
      destruct (joins g r); simpl in Hg'; injection Hg' as <-.
      * destruct g as [cg cp]. unfold extend. simpl in *. exact Ll.
      * unfold newGroup. simpl. exact Hr.
    + simpl in Hg'. injection Hg' as <-. unfold newGroup. simpl. exact Hr.
Qed.

Lemma groupText_sized vw vh content :
  (forall r, In r content -> plainRun r) ->
  Forall wellSized (groupText vw vh content).
Proof.
  intro Plain. unfold groupText.
  apply (LineGrouperFacts.fold_left_invariant _ _
           (fun st => Forall wellSized (pageItems st))).
  - intros st ky _ WS. unfold processLine. apply line_sized.
    + unfold lineItems. apply (jsSort_ascend _ transform4).
    + intros r Hr. apply Plain.
      apply LineGrouperFacts.lineItems_in in Hr. apply filter_In in Hr. tauto.
    + now rewrite GrouperFacts.pageItems_closed.
    + simpl. discriminate.
  - constructor.
Qed.

Lemma imageItems_sized vh : forall ops t, Forall wellSized (imageItems vh t ops).
Proof.
  induction ops as [| op ops IH]; intro t; simpl; [constructor |].
  destruct op; trivial.
  constructor; trivial. split; simpl; apply NumFacts.abs_nonneg.
Qed.

Lemma imageItems_images vh : forall ops t,
  filter (fun i => negb (Merger.isText i)) (imageItems vh t ops)
  = imageItems vh t ops.
Proof.
  induction ops as [| op ops IH]; intro t; simpl; trivial.
  destruct op; trivial. simpl. now rewrite IH.
Qed.

Lemma grouped_no_others l :
  Forall groupedText l -> filter (fun i => negb (Merger.isText i)) l = [].
Proof.
  induction 1 as [| it l (g & p & d & -> & _) _ IH]; simpl; trivial.
Qed.

Lemma others_permuted (l l' : list PdfItem) :
  Permutation l l' ->
  Permutation (filter (fun i => negb (Merger.isText i)) l)
              (filter (fun i => negb (Merger.isText i)) l').
Proof.
  induction 1 as [| a l l' _ IH | a b l | l l' l'' _ IH1 _ IH2]; simpl.
  - constructor.
  - destruct (negb (Merger.isText a)); [now constructor | trivial].
  - destruct (negb (Merger.isText a)), (negb (Merger.isText b));
      try apply Permutation_refl. apply perm_swap.
  - now apply (perm_trans IH1).
Qed.

(** X9.  The pipeline of a page always completes on runs of the extractor
    (width and font size not negative), whatever the operator list.  The
    page keeps the viewport's size, all its boxes have extents that are not
    negative, its items that are not text are exactly the images painted,
    each once, and it holds no more items than the grouper and the
    operator list produced. *)
Theorem page_pipeline_completes (vw vh : Q) (content : list Run)
        (ops : list Op) :
  (forall r, In r content -> plainRun r) ->
  exists page,
    extractPage vw vh content ops = Some page /\
    pageWidth page = vw /\ pageHeight page = vh /\
    Forall wellSized (items page) /\
    Permutation (filter (fun i => negb (Merger.isText i)) (items page))
                (imageItems vh identity ops) /\
    (length (items page)
     <= length (groupText vw vh content)
        + length (imageItems vh identity ops))%nat.
Proof.
  intro Plain. unfold extractPage.
  set (pageItems := groupText vw vh content ++ imageItems vh identity ops).
  assert (WS : Forall wellSized pageItems).
  { apply Forall_app. split;
      [now apply groupText_sized | apply imageItems_sized]. }
  unfold ReadingOrder.reorderItemsByReadingFlow.
  destruct (ReadingOrderFacts.recursiveOrder_ends (length pageItems) pageItems
              WS (Nat.le_refl _)) as [sorted E].
  rewrite E.
  pose proof (ReadingOrderFacts.recursiveOrder_perm _ _ _ E) as P.
  eexists. split; [reflexivity |]. simpl.
  assert (WS' : Forall wellSized sorted).
  { apply Forall_forall. intros i Hi.
    apply (Permutation_in _ (Permutation_sym P)) in Hi.
    revert i Hi. now apply Forall_forall. }
  split; [reflexivity |]. split; [reflexivity |].
  assert (Len : length sorted
                = (length (groupText vw vh content)
                   + length (imageItems vh identity ops))%nat).
  { rewrite <- (Permutation_length P). apply length_app. }
  destruct sorted as [| first rest]; simpl Merger.mergeTextBlocks.
  - split; [constructor |]. split; [| simpl; lia].
    apply Permutation_sym, Permutation_nil in P.
    destruct (groupText vw vh content); [| discriminate P].
    simpl in P. unfold pageItems in P. simpl in P. rewrite P. constructor.
  - inversion WS'; subst.
    split; [now apply MergerPass.mergeFrom_wellSized |]. split.
    + rewrite MergerPass.mergeFrom_others.
      eapply perm_trans;
        [apply Permutation_sym, others_permuted, P |].
      unfold pageItems. rewrite filter_app, imageItems_images.
      rewrite (grouped_no_others _
                 (GrouperFacts.groupText_grouped vw vh content)).
      apply Permutation_refl.
    + pose proof (MergerPass.mergeFrom_length rest first). simpl in Len. lia.
Qed.

Lemma page_pipeline_completes_witness :
  exists page,
    extractPage 600 800 helloWorld [OpTransform 100 0 0 50 20 30; OpPaintImage]
    = Some page /\
    pageWidth page = 600 /\ pageHeight page = 800 /\
    Forall wellSized (items page) /\
    Permutation (filter (fun i => negb (Merger.isText i)) (items page))
                (imageItems 800 identity
                   [OpTransform 100 0 0 50 20 30; OpPaintImage]) /\
    (length (items page)
     <= length (groupText 600 800 helloWorld)
        + length (imageItems 800 identity
                    [OpTransform 100 0 0 50 20 30; OpPaintImage]))%nat.
Proof.
  apply (page_pipeline_completes 600 800 helloWorld
           [OpTransform 100 0 0 50 20 30; OpPaintImage]).
  intros r [<- | [<- | []]]; split; discriminate.
Defined.

End PipelineFacts.

(* ================================================================== *)
(** ** Translation: batches, failures, and what a service does *)

Module TranslateRuns.

Import T Str Translate.

(** *** The batches *)

Lemma firstn_more (A : Type) (n m : nat) : forall l : list A,
  firstn (n + m) l = firstn n l ++ firstn m (skipn n l).
Proof.
  induction n as [| n IH]; intro l; [reflexivity |].
  destruct l as [| a l]; simpl.
  - now rewrite firstn_nil.
  - now rewrite IH.
Qed.

Lemma blocks_upto (A : Type) (l : list A) (k : nat) :
  concat (map (fun i => firstn BATCH_SIZE (skipn i l))
              (map (fun j => j * BATCH_SIZE)%nat (seq 0 k)))
  = firstn (k * BATCH_SIZE) l.
Proof.
  induction k as [| k IH]; [reflexivity |].
  rewrite seq_S, !map_app, concat_app, IH.
  change (concat (map (fun i => firstn BATCH_SIZE (skipn i l))
                      (map (fun j => j * BATCH_SIZE)%nat [(0 + k)%nat])))
    with (firstn BATCH_SIZE (skipn (k * BATCH_SIZE) l) ++ []).
  rewrite app_nil_r.
  replace (S k * BATCH_SIZE)%nat with (k * BATCH_SIZE + BATCH_SIZE)%nat
    by (unfold BATCH_SIZE; lia).
  symmetry. apply firstn_more.
Qed.

Lemma starts_reach n : (n <= (n + BATCH_SIZE - 1) / BATCH_SIZE * BATCH_SIZE)%nat.
Proof.
  unfold BATCH_SIZE.
  pose proof (Nat.div_mod_eq (n + 40 - 1) 40).
  pose proof (Nat.mod_upper_bound (n + 40 - 1) 40). lia.
Qed.

Lemma blocks_all (A : Type) (l : list A) :
  concat (map (fun i => firstn BATCH_SIZE (skipn i l))
              (batchStarts (length l))) = l.
Proof.
  unfold batchStarts. rewrite blocks_upto.
  apply firstn_all2, starts_reach.
Qed.

(** X10.  The batches of a page hold every text to translate exactly once and
    in order; no batch is empty and none holds more than 40 texts. *)
Theorem batches_partition (textContents : list jsstring) :
  concat (batches textContents) = textContents /\
  Forall (fun batch => (1 <= length batch <= BATCH_SIZE)%nat)
         (batches textContents).
Proof.
  split; [apply blocks_all |].
  unfold batches. apply Forall_forall. intros batch H.
  apply in_map_iff in H. destruct H as (i & <- & Hi).
  apply TranslateFacts.batchStarts_spec in Hi. destruct Hi as [Hi _].
  rewrite length_firstn, length_skipn. unfold BATCH_SIZE. lia.
Qed.

(** *** Failures that are not fatal *)

Section Failing.

Variable translateBatch : nat -> nat -> list jsstring -> TextReply.
Variable translateTable : nat -> nat -> list PdfTableRow -> TableReply.

Hypothesis noText : forall pIdx i batch,
  translateBatch pIdx i batch = TextThrows false \/
  translateBatch pIdx i batch = TextNotArray.
Hypothesis noTable : forall pIdx i rows,
  translateTable pIdx i rows = TableThrows false.

Lemma textLoop_fails pIdx textIndices textContents starts pageItems :
  textLoop translateBatch pIdx textIndices textContents starts pageItems
  = Returned pageItems.
Proof.
  induction starts as [| i rest IH]; simpl; trivial.
  unfold textStep. destruct (noText pIdx i
    (firstn BATCH_SIZE (skipn i textContents))) as [-> | ->]; exact IH.
Qed.

Lemma tableLoop_fails pIdx indices pageItems :
  tableLoop translateTable pIdx indices pageItems = Returned pageItems.
Proof.
  induction indices as [| i rest IH]; simpl; trivial.
  unfold tableStep. destruct (nth_error pageItems i) as [item |]; trivial.
  destruct (detail item); trivial. now rewrite noTable.
Qed.

Lemma translatePages_fails ps : forall pIdx,
  translatePages translateBatch translateTable pIdx ps = Returned ps.
Proof.
  induction ps as [| page rest IH]; intro pIdx; simpl; trivial.
  unfold translatePage. rewrite textLoop_fails. simpl.
  rewrite tableLoop_fails. simpl. rewrite IH. simpl. now destruct page.
Qed.

End Failing.

(** X11.  When every call for a batch of texts fails without a fatal
    error or answers something that is not an array, and every call for a
    table fails without a fatal error, the translation returns the
    document as it was.  (A table call that answers is not covered: its
    parsed answer is written into the rows without any test.) *)
Theorem failed_translation_keeps_document
        (translateBatch : nat -> nat -> list jsstring -> TextReply)
        (translateTable : nat -> nat -> list PdfTableRow -> TableReply)
        (structure : PdfStructure) :
  (forall pIdx i batch,
     translateBatch pIdx i batch = TextThrows false \/
     translateBatch pIdx i batch = TextNotArray) ->
  (forall pIdx i rows, translateTable pIdx i rows = TableThrows false) ->
  translatePdfStructure translateBatch translateTable structure
  = Returned structure.
Proof.
  intros H1 H2. unfold translatePdfStructure.
  rewrite (translatePages_fails translateBatch translateTable H1 H2).
  simpl. now destruct structure.
Qed.

Lemma failed_translation_keeps_document_witness :
  translatePdfStructure (fun _ _ _ => TextThrows false)
                        (fun _ _ _ => TableThrows false)
                        (mkStructure [samplePage])
  = Returned (mkStructure [samplePage]).
Proof.
  apply (failed_translation_keeps_document
           (fun _ _ _ => TextThrows false) (fun _ _ _ => TableThrows false)
           (mkStructure [samplePage])).
  - intros. now left.
  - reflexivity.
Defined.

(** *** Items the translation skips *)







Section AnyService.

Variable translateBatch : nat -> nat -> list jsstring -> TextReply.
Variable translateTable : nat -> nat -> list PdfTableRow -> TableReply.




End AnyService.



(** *** A service that answers every call *)

Lemma update_at (f : PdfItem -> PdfItem) it rest : forall pre,
  update (length pre) f (pre ++ it :: rest) = pre ++ f it :: rest.
Proof.
  induction pre as [| a pre IH]; simpl; [reflexivity | now rewrite IH].
Qed.

Lemma snoc_length (pre : list PdfItem) it : length (pre ++ [it]) = S (length pre).
Proof. rewrite length_app. simpl. lia. Qed.

Section Each.

Variable f : jsstring -> jsstring.
Variable g : list PdfTableRow -> list PdfTableRow.

(** Writing every collected text through [f] is a map over the items. *)
Lemma applyAll_collect items : forall pre,
  applyAll f (collectTexts (length pre) items) (pre ++ items)
  = pre ++ map (textThrough f) items.
Proof.
  induction items as [| it rest IH]; intro pre; [reflexivity |].
  assert (step : forall it',
            applyAll f (collectTexts (S (length pre)) rest) (pre ++ it' :: rest)
            = pre ++ it' :: map (textThrough f) rest).
  { intro it'.
    replace (pre ++ it' :: rest) with ((pre ++ [it']) ++ rest)
      by (now rewrite <- app_assoc).
    rewrite <- (snoc_length pre it'), IH. now rewrite <- app_assoc. }
  change (map (textThrough f) (it :: rest))
    with (textThrough f it :: map (textThrough f) rest).
  destruct it as [ig d].
  destruct d as [p | | |]; try apply step.
  assert (E : textThrough f (mkItem ig (Text p))
              = match trim (text p) with
                | [] => mkItem ig (Text p)
                | _ => setText (f (text p)) (mkItem ig (Text p))
                end) by reflexivity.
  rewrite E. simpl collectTexts.
  destruct (trim (text p)); [apply step |].
  unfold applyAll. simpl fold_left. fold (applyAll f).
  rewrite update_at. apply step.
Qed.

Lemma applyAll_app ps qs l :
  applyAll f (ps ++ qs) l = applyAll f qs (applyAll f ps l).
Proof. unfold applyAll. apply fold_left_app. Qed.

(** One reply of the right length writes its block of texts. *)
Lemma assign_run textIndices i : forall block s cur,
  (forall b, (b < length block)%nat ->
     nth_error textIndices (i + (s + b)) = nth_error (map fst block) b) ->
  fold_left
    (fun items '(bIdx, t) =>
       match nth_error textIndices (i + bIdx) with
       | Some originalIdx => update originalIdx (setText t) items
       | None => items
       end)
    (combine (seq s (length block)) (map f (map snd block))) cur
  = applyAll f block cur.
Proof.
  induction block as [| [idx t] block IH]; intros s cur H; [reflexivity |].
  simpl. pose proof (H 0%nat) as H0. simpl in H0.
  rewrite Nat.add_0_r in H0. rewrite H0 by lia.
  apply IH. intros b Hb. specialize (H (S b)). simpl in H.
  rewrite <- H by lia. f_equal. lia.
Qed.

Lemma block_indices (texts : list (nat * jsstring)) i b :
  (b < length (firstn BATCH_SIZE (skipn i texts)))%nat ->
  nth_error (map fst texts) (i + (0 + b))
  = nth_error (map fst (firstn BATCH_SIZE (skipn i texts))) b.
Proof.
  intro Hb. rewrite length_firstn in Hb.
  rewrite <- firstn_map, <- skipn_map, nth_error_firstn, nth_error_skipn.
  destruct (Nat.ltb_spec b BATCH_SIZE); [reflexivity | lia].
Qed.

Lemma textLoop_each pIdx (texts : list (nat * jsstring)) starts :
  forall cur,
    textLoop (eachText f) pIdx (map fst texts) (map snd texts) starts cur
    = Returned
        (applyAll f
           (concat (map (fun i => firstn BATCH_SIZE (skipn i texts)) starts))
           cur).
Proof.
  induction starts as [| i rest IH]; intro cur; [reflexivity |].
  cbn [textLoop]. unfold textStep, eachText.
  rewrite length_map, Nat.eqb_refl. cbn [bind]. rewrite IH. f_equal.
  cbn [map concat]. rewrite applyAll_app. f_equal.
  unfold assign. rewrite length_map, skipn_map, firstn_map, length_map.
  apply assign_run. apply block_indices.
Qed.

Lemma tableLoop_each pIdx rest : forall pre,
  tableLoop (eachTable g) pIdx (seq (length pre) (length rest)) (pre ++ rest)
  = Returned (pre ++ map (tableThrough g) rest).
Proof.
  induction rest as [| it rest IH]; intro pre; [reflexivity |].
  cbn [length seq tableLoop]. unfold tableStep.
  rewrite nth_error_app2, Nat.sub_diag by lia. cbn [nth_error].
  change (map (tableThrough g) (it :: rest))
    with (tableThrough g it :: map (tableThrough g) rest).
  assert (next : forall it',
            tableLoop (eachTable g) pIdx (seq (S (length pre)) (length rest))
                      (pre ++ it' :: rest)
            = Returned (pre ++ it' :: map (tableThrough g) rest)).
  { intro it'.
    replace (pre ++ it' :: rest) with ((pre ++ [it']) ++ rest)
      by (now rewrite <- app_assoc).
    rewrite <- (snoc_length pre it'), IH. now rewrite <- app_assoc. }
  destruct it as [ig d].
  destruct d as [p | | | rows hb]; cbn [detail]; unfold eachTable;
    cbn [bind]; try apply next.
  rewrite update_at. apply next.
Qed.

Lemma translatePages_each ps : forall pIdx,
  translatePages (eachText f) (eachTable g) pIdx ps
  = Returned (map (pageThrough f g) ps).
Proof.
  induction ps as [| page rest IH]; intro pIdx; [reflexivity |].
  cbn [translatePages]. unfold translatePage.
  rewrite length_map, textLoop_each.
  rewrite (blocks_all _ (collectTexts 0 (items page))).
  pose proof (applyAll_collect (items page) []) as A.
  cbn [length app] in A. rewrite A. cbn [bind].
  pose proof (tableLoop_each pIdx (map (textThrough f) (items page)) []) as B.
  cbn [length app] in B. rewrite B.
  cbn [bind]. rewrite IH. cbn [bind map]. unfold pageThrough.
  now rewrite map_map.
Qed.

End Each.

(** X13.  With a service that answers every batch with the translation [f] of
    each of its texts, and every table with the rows [g] makes of it, the
    translated document is the original with every text that is not blank
    replaced by its translation and every table by its translated rows,
    across batches and pages; nothing else differs. *)
Theorem translation_by_service
        (f : jsstring -> jsstring)
        (g : list PdfTableRow -> list PdfTableRow)
        (structure : PdfStructure) :
  translatePdfStructure (eachText f) (eachTable g) structure
  = Returned (mkStructure (map (pageThrough f g) (pages structure))).
Proof.
  unfold translatePdfStructure. now rewrite translatePages_each.
Qed.

End TranslateRuns.

(* ================================================================== *)
(** ** Calls with retries *)

Module RetryFacts.

Import Retry.

Section Loop.

Variable A : Type.
Variable fn : nat -> Attempt A.
Variable maxRetries : nat.

Lemma retryFrom_S (r i : nat) (lastError : option ApiError) :
  retryFrom fn maxRetries (S r) i lastError
  = match fn i with
    | Resolved a => (Value a, 1%nat)
    | Rejected e =>
        if isFatal e then (Raised FATAL e, 1%nat)
        else if isRetryable e then
          if (i =? maxRetries - 1)%nat
          then (limitExceeded (Some e), 1%nat)
          else let (ending, calls) := retryFrom fn maxRetries r (S i) (Some e) in
               (ending, S calls)
        else if (2 <=? i)%nat then (Raised ERROR e, 1%nat)
        else let (ending, calls) := retryFrom fn maxRetries r (S i) (Some e) in
             (ending, S calls)
    end.
Proof. reflexivity. Qed.

Lemma retriedBefore_step (i k : nat) (e : ApiError) :
  fn i = Rejected e -> isFatal e = false ->
  isRetryable e = true \/ (i < 2)%nat ->
  retriedBefore fn (S i) k -> retriedBefore fn i k.
Proof.
  intros F NF R H j Hj.
  destruct (Nat.eq_dec j i) as [->|N].
  - exists e. auto.
  - apply H. lia.
Qed.

Lemma loopSpec_again (i r : nat) (lastError : option ApiError) (e : ApiError) :
  (i + S r = maxRetries)%nat ->
  fn i = Rejected e -> isFatal e = false ->
  isRetryable e = true \/ (i < 2)%nat ->
  loopSpec fn maxRetries (S i) r (Some e)
           (retryFrom fn maxRetries r (S i) (Some e)) ->
  loopSpec fn maxRetries i (S r) lastError
    (let (ending, calls) := retryFrom fn maxRetries r (S i) (Some e) in
     (ending, S calls)).
Proof.
  intros E F NF R H.
  destruct (retryFrom fn maxRetries r (S i) (Some e)) as [ending calls].
  unfold loopSpec in *. cbn [fst snd] in *.
  destruct calls as [|k].
  - destruct H as (-> & ->). cbn [limitExceeded endsAt].
    rewrite Nat.add_0_r. split; [lia|]. split; [intros j Hj; lia|].
    repeat split; auto. lia.
  - destruct H as (B & Q & M).
    replace (i + S k)%nat with (S i + k)%nat by lia.
    split; [lia|]. split; [|exact M].
    eapply retriedBefore_step; eauto.
Qed.

(** What the loop does from iteration [i]. *)
Lemma retryFrom_spec (remaining : nat) :
  forall (i : nat) (lastError : option ApiError),
    (i + remaining = maxRetries)%nat ->
    loopSpec fn maxRetries i remaining lastError
             (retryFrom fn maxRetries remaining i lastError).
Proof.
  induction remaining as [|r IH]; intros i lastError E.
  - cbn [retryFrom]. unfold loopSpec. cbn [fst snd]. auto.
  - rewrite retryFrom_S.
    assert (one : forall ending,
               endsAt fn maxRetries i ending ->
               loopSpec fn maxRetries i (S r) lastError (ending, 1%nat)).
    { intros ending H. unfold loopSpec. cbn [fst snd].
      rewrite Nat.add_0_r. split; [lia|]. split; [intros j Hj; lia|exact H]. }
    destruct (fn i) as [a|e] eqn:F.
    + apply one. exact F.
    + destruct (isFatal e) eqn:NF.
      * apply one. cbn. auto.
      * destruct (isRetryable e) eqn:R.
        -- destruct (i =? maxRetries - 1)%nat eqn:Last.
           ++ apply Nat.eqb_eq in Last. apply one. cbn.
              repeat split; auto. lia.
           ++ apply loopSpec_again; auto. apply IH. lia.
        -- destruct (2 <=? i)%nat eqn:T.
           ++ apply Nat.leb_le in T. apply one. cbn. auto.
           ++ apply Nat.leb_gt in T.
              apply loopSpec_again; auto. apply IH. lia.
Qed.

(** The converse for a call that succeeds: retried errors, then a value. *)
Lemma retryFrom_value (k : nat) :
  forall (i remaining : nat) (lastError : option ApiError) (a : A),
    (i + remaining = maxRetries)%nat -> (k < remaining)%nat ->
    retriedBefore fn i (i + k) -> fn (i + k)%nat = Resolved a ->
    retryFrom fn maxRetries remaining i lastError = (Value a, S k).
Proof.
  induction k as [|k IH]; intros i remaining lastError a E B Q F.
  - destruct remaining as [|r]; [lia|]. rewrite retryFrom_S.
    rewrite Nat.add_0_r in F. now rewrite F.
  - destruct remaining as [|r]; [lia|]. rewrite retryFrom_S.
    destruct (Q i ltac:(lia)) as (e & Fi & NF & R).
    rewrite Fi, NF.
    assert (next : retryFrom fn maxRetries r (S i) (Some e) = (Value a, S k)).
    { apply IH; try lia.
      - intros j Hj. apply Q. lia.
      - now replace (S i + k)%nat with (i + S k)%nat by lia. }
    rewrite next.
    destruct (isRetryable e).
    + replace (i =? maxRetries - 1)%nat with false
        by (symmetry; apply Nat.eqb_neq; lia).
      reflexivity.
    + destruct R as [R|R]; [discriminate R|].
      replace (2 <=? i)%nat with false by (symmetry; apply Nat.leb_gt; lia).
      reflexivity.
Qed.

(** Transient errors only: the budget is used up. *)
Lemma retryFrom_transient (e : nat -> ApiError) (r : nat) :
  (forall i, fn i = Rejected (e i) /\ isFatal (e i) = false
             /\ isRetryable (e i) = true) ->
  forall (i : nat) (lastError : option ApiError),
    (i + S r = maxRetries)%nat ->
    retryFrom fn maxRetries (S r) i lastError
    = (Raised RETRY_LIMIT_EXCEEDED (e (maxRetries - 1)%nat), S r).
Proof.
  intros H. induction r as [|r IH]; intros i lastError E;
    rewrite retryFrom_S; destruct (H i) as (F & NF & R); rewrite F, NF, R.
  - replace (i =? maxRetries - 1)%nat with true
      by (symmetry; apply Nat.eqb_eq; lia).
    cbn [limitExceeded]. replace (maxRetries - 1)%nat with i by lia.
    reflexivity.
  - replace (i =? maxRetries - 1)%nat with false
      by (symmetry; apply Nat.eqb_neq; lia).
    rewrite (IH (S i) (Some (e i))) by lia. reflexivity.
Qed.

End Loop.

(** X14.  A call through [callGeminiWithRetry] returns a value exactly when
    some call of [fn] within the budget resolves to it and every call before
    it was rejected with an error that is retried: one that is not fatal and
    that is transient (rate limit, server, network) or among the first two
    calls.  The value is that of the first call that resolves, and the number
    of calls made is its position. *)
Theorem retry_returns_first_success
        (A : Type) (fn : nat -> Attempt A) (maxRetries : nat) (a : A) (k : nat) :
  callGeminiWithRetry fn maxRetries = (Value a, S k)
  <-> ((k < maxRetries)%nat /\ fn k = Resolved a
       /\ forall j, (j < k)%nat ->
            exists e, fn j = Rejected e /\ isFatal e = false
                      /\ (isRetryable e = true \/ (j < 2)%nat)).
Proof.
  unfold callGeminiWithRetry. split.
  - intros H.
    pose proof (retryFrom_spec A fn maxRetries maxRetries 0 None eq_refl) as S.
    rewrite H in S. unfold loopSpec in S. cbn [fst snd endsAt] in S.
    destruct S as (B & Q & M). cbn [Nat.add] in *.
    split; [lia|]. split; [exact M|].
    intros j Hj. apply Q. lia.
  - intros (B & F & Q).
    apply retryFrom_value; auto.
    intros j Hj. apply Q. cbn [Nat.add] in Hj. lia.
Qed.

(** X15.  The loop calls [fn] at most [maxRetries] times, and every call
    before the last was rejected by an error that is not fatal: a fatal error
    ends the loop at once.  It ends with a [GeminiError] of code FATAL exactly
    on a fatal error of the last call made (status 400, 401 or 403, or a
    message with "safety" or "blocked"), of code ERROR only on an error of the
    third or a later call that is not transient, of code RETRY_LIMIT_EXCEEDED
    only when the budget is used up; the original error is that of the last
    call.  With a budget of 0, and only then, no call is made and the ending
    is the TypeError of [mapGeminiError(undefined)]. *)
Theorem retry_stops_on_fatal
        (A : Type) (fn : nat -> Attempt A) (maxRetries : nat) :
  let ending := fst (callGeminiWithRetry fn maxRetries) in
  let calls := snd (callGeminiWithRetry fn maxRetries) in
  (calls <= maxRetries)%nat
  /\ (calls = 0%nat <-> maxRetries = 0%nat)
  /\ (ending = TypeError <-> maxRetries = 0%nat)
  /\ (forall j, (S j < calls)%nat ->
        exists e, fn j = Rejected e /\ isFatal e = false)
  /\ (forall code e, ending = Raised code e ->
        fn (calls - 1)%nat = Rejected e
        /\ (code = FATAL <-> isFatal e = true)
        /\ (code = ERROR -> isRetryable e = false /\ (3 <= calls)%nat)
        /\ (code = RETRY_LIMIT_EXCEEDED -> calls = maxRetries)).
Proof.
  cbv zeta. unfold callGeminiWithRetry.
  pose proof (retryFrom_spec A fn maxRetries maxRetries 0 None eq_refl) as S.
  destruct (retryFrom fn maxRetries maxRetries 0 None) as [ending calls].
  unfold loopSpec in S. cbn [fst snd] in *.
  destruct calls as [|k].
  - destruct S as (-> & ->). cbn [limitExceeded].
    split; [lia|]. split; [tauto|]. split; [tauto|].
    split; [intros j Hj; lia|]. intros code e H. discriminate H.
  - destruct S as (B & Q & M). cbn [Nat.add] in *.
    replace (S k - 1)%nat with k by lia.
    split; [lia|]. split; [split; intros; lia|].
    split.
    { split; [|intros; lia]. intros ->. destruct M. }
    split.
    { intros j Hj. destruct (Q j ltac:(lia)) as (e & F & NF & _). eauto. }
    intros code e ->. destruct code; cbn [endsAt] in M.
    + destruct M as (F & Fat). repeat split; auto; discriminate.
    + destruct M as (F & NF & NR & T).
      repeat split; auto; try discriminate; try lia.
      intros C. rewrite C in NF. discriminate NF.
    + destruct M as (F & NF & R & L).
      repeat split; auto; try discriminate; try lia.
      intros C. rewrite C in NF. discriminate NF.
Qed.

(** X16.  Errors that stay.  When every call is rejected by a transient
    error that is not fatal, the budget is used up: [maxRetries] calls, then
    RETRY_LIMIT_EXCEEDED with the error of the last call.  When every call is
    rejected by an error that is neither fatal nor transient, the loop gives
    up after three calls with code ERROR, whatever the budget from three
    on. *)
Theorem retry_lasting_errors
        (A : Type) (fn : nat -> Attempt A) (e : nat -> ApiError) (budget : nat) :
  (forall i, fn i = Rejected (e i) /\ isFatal (e i) = false) ->
  ((forall i, isRetryable (e i) = true) ->
   callGeminiWithRetry fn (S budget)
   = (Raised RETRY_LIMIT_EXCEEDED (e budget), S budget))
  /\ ((forall i, isRetryable (e i) = false) ->
      callGeminiWithRetry fn (3 + budget) = (Raised ERROR (e 2%nat), 3%nat)).
Proof.
  intros H. split; intros R.
  - unfold callGeminiWithRetry.
    rewrite (retryFrom_transient A fn (S budget) e budget).
    + now replace (S budget - 1)%nat with budget by lia.
    + intros i. destruct (H i). auto.
    + lia.
  - unfold callGeminiWithRetry. cbn [Nat.add].
    destruct (H 0%nat) as (F0 & N0). destruct (H 1%nat) as (F1 & N1).
    destruct (H 2%nat) as (F2 & N2).
    rewrite retryFrom_S, F0, N0, (R 0%nat). cbn [Nat.leb].
    rewrite retryFrom_S, F1, N1, (R 1%nat). cbn [Nat.leb].
    rewrite retryFrom_S, F2, N2, (R 2%nat). reflexivity.
Qed.

Lemma retry_lasting_errors_witness :
  callGeminiWithRetry (alwaysRejects nat overloaded) 5
  = (Raised RETRY_LIMIT_EXCEEDED overloaded, 5%nat)
  /\ callGeminiWithRetry (alwaysRejects nat oddError) 5
     = (Raised ERROR oddError, 3%nat).
Proof.
  split.
  - apply (retry_lasting_errors nat (alwaysRejects nat overloaded)
             (fun _ => overloaded) 4).
    + intros i. split; reflexivity.
    + intros i. reflexivity.
  - apply (retry_lasting_errors nat (alwaysRejects nat oddError)
             (fun _ => oddError) 2).
    + intros i. split; reflexivity.
    + intros i. reflexivity.
Defined.

End RetryFacts.

(* ================================================================== *)
(** ** Language detection *)

Module DetectFacts.

Import Str T Detect.

Lemma script_tally (sample : jsstring) :
  forall scs : list Script,
    fold_left (fun scs c => map (bump c) scs) sample scs
    = map (counted sample) scs.
Proof.
  induction sample as [|c sample IH]; intros scs; cbn [fold_left].
  - unfold counted. cbn [filter length]. rewrite <- (map_id scs) at 1.
    apply map_ext. intros [n r k]. cbn. now rewrite Nat.add_0_r.
  - rewrite IH, map_map. apply map_ext. intros [n r k].
    unfold counted, bump. cbn [name regex count filter].
    destruct (r c); cbn [name regex count length]; f_equal; lia.
Qed.

Lemma tally_counts (text : jsstring) (b : Script) :
  In b (tally (cleaned text)) ->
  exists s, In s scripts /\ name b = name s /\ count b = countIn s text.
Proof.
  unfold tally. rewrite script_tally. intros H.
  apply in_map_iff in H. destruct H as (s & <- & I).
  exists s. split; [exact I|]. split; [reflexivity|].
  unfold counted, countIn. cbn [count].
  assert (Z : count s = 0%nat).
  { unfold scripts in I. cbn [In] in I.
    repeat (destruct I as [<-|I]; [reflexivity|]). destruct I. }
  now rewrite Z.
Qed.

Lemma counts_tallied (text : jsstring) (s : Script) :
  In s scripts ->
  exists b, In b (tally (cleaned text)) /\ count b = countIn s text.
Proof.
  intros I. unfold tally. rewrite script_tally.
  exists (counted (cleaned text) s). split; [now apply in_map|].
  unfold counted, countIn. cbn [count].
  assert (Z : count s = 0%nat).
  { unfold scripts in I. cbn [In] in I.
    repeat (destruct I as [<-|I]; [reflexivity|]). destruct I. }
  now rewrite Z.
Qed.

Lemma byCount_le (a b : Script) :
  Num.leb (byCount a b) 0 = true <-> (count b <= count a)%nat.
Proof.
  unfold Num.leb, byCount. rewrite Qle_bool_iff.
  split; intros H.
  - assert (Q : inject_Z (Z.of_nat (count b)) <= inject_Z (Z.of_nat (count a)))
      by Lqa.lra.
    rewrite <- Zle_Qle in Q. lia.
  - assert (Q : inject_Z (Z.of_nat (count b)) <= inject_Z (Z.of_nat (count a)))
      by (rewrite <- Zle_Qle; lia).
    Lqa.lra.
Qed.

Lemma insertSorted_headGreatest (a : Script) (l : list Script) :
  headGreatest l -> headGreatest (insertSorted byCount a l).
Proof.
  destruct l as [|b l]; intros H; cbn [insertSorted].
  - constructor.
  - destruct (Num.leb (byCount a b) 0) eqn:E.
    + apply byCount_le in E. cbn [headGreatest] in *.
      constructor; [exact E|].
      eapply Forall_impl; [|exact H]. cbn. intros s Hs. lia.
    + assert (L : (count a < count b)%nat).
      { destruct (Nat.le_gt_cases (count b) (count a)) as [C|C]; trivial.
        apply byCount_le in C. congruence. }
      cbn [headGreatest] in *.
      apply Forall_forall. intros s Hs.
      apply (Permutation_in _ (Permutation_sym (insertSorted_perm _ byCount a l)))
        in Hs.
      destruct Hs as [<-|Hs]; [lia|].
      rewrite Forall_forall in H. now apply H.
Qed.

Lemma jsSort_headGreatest (l : list Script) : headGreatest (jsSort byCount l).
Proof.
  induction l as [|a l IH]; cbn [jsSort fold_right].
  - exact I.
  - apply insertSorted_headGreatest. exact IH.
Qed.

(** The best script: in the table, with the greatest count. *)
Lemma best_script (text : jsstring) :
  exists (best : Script) (rest : list Script) (s : Script),
    jsSort byCount (tally (cleaned text)) = best :: rest
    /\ In s scripts /\ name best = name s /\ count best = countIn s text
    /\ forall s', In s' scripts -> (countIn s' text <= countIn s text)%nat.
Proof.
  pose proof (jsSort_perm _ byCount (tally (cleaned text))) as P.
  pose proof (jsSort_headGreatest (tally (cleaned text))) as G.
  destruct (jsSort byCount (tally (cleaned text))) as [|best rest] eqn:E.
  - apply Permutation_sym, Permutation_nil in P.
    unfold tally in P. rewrite script_tally in P. discriminate P.
  - destruct (tally_counts text best) as (s & I & N & C).
    { apply (Permutation_in _ (Permutation_sym P)). now left. }
    exists best, rest, s. repeat split; auto.
    intros s' I'. destruct (counts_tallied text s' I') as (b & Ib & Cb).
    rewrite <- Cb, <- C.
    apply (Permutation_in _ P) in Ib. destruct Ib as [<-|Ib]; [lia|].
    cbn [headGreatest] in G. rewrite Forall_forall in G. now apply G.
Qed.

Lemma names_known (s : Script) : In s scripts -> eqb (name s) unknown = false.
Proof.
  unfold scripts. cbn [In]. intros I.
  repeat (destruct I as [<-|I]; [reflexivity|]). destruct I.
Qed.

Lemma eqb_eq (a b : jsstring) : eqb a b = true <-> a = b.
Proof.
  unfold eqb. destruct (list_eq_dec N.eq_dec a b); split; congruence.
Qed.

Lemma detect_unknown (text : jsstring) :
  detectScriptBasedLanguage text = unknown
  <-> forall s, In s scripts -> (countIn s text <= 5)%nat.
Proof.
  destruct (best_script text) as (best & rest & s & E & I & N & C & G).
  unfold detectScriptBasedLanguage. rewrite E.
  destruct (5 <? count best)%nat eqn:T.
  - apply Nat.ltb_lt in T. split.
    + intros H. rewrite N in H. apply eqb_eq in H.
      rewrite (names_known s I) in H. discriminate H.
    + intros H. specialize (H s I). lia.
  - apply Nat.ltb_ge in T. split; [|reflexivity].
    intros _ s' I'. specialize (G s' I'). lia.
Qed.

(** Every character looked at is of one of the scripts. *)
Lemma between_true (lo hi c : N) :
  (lo <= c)%N -> (c <= hi)%N -> between lo hi c = true.
Proof.
  intros L H. unfold between.
  apply andb_true_intro. split; now apply N.leb_le.
Qed.

Lemma relevant_script (c : jschar) :
  isRelevant c = true -> exists s, In s scripts /\ regex s c = true.
Proof.
  unfold isRelevant. intros H. apply orb_prop in H. destruct H as [H|H].
  - exists (mkScript (lit "English") isLatin 0). split; [|exact H].
    unfold scripts. cbn [In]. tauto.
  - unfold between in H. apply andb_prop in H. destruct H as (L & U).
    apply N.leb_le in L. apply N.leb_le in U.
    assert (pick : forall n lo hi,
               In (mkScript n (between lo hi) 0) scripts ->
               (lo <= c)%N -> (c <= hi)%N ->
               exists s, In s scripts /\ regex s c = true).
    { intros n lo hi I A B. exists (mkScript n (between lo hi) 0).
      split; [exact I|]. cbn [regex]. now apply between_true. }
    destruct (N.le_gt_cases c 0x097F);
      [apply (pick (lit "Hindi") 0x0900%N 0x097F%N);
       [unfold scripts; cbn [In]; tauto|lia|lia]|].
    destruct (N.le_gt_cases c 0x09FF);
      [apply (pick (lit "Bengali") 0x0980%N 0x09FF%N);
       [unfold scripts; cbn [In]; tauto|lia|lia]|].
    destruct (N.le_gt_cases c 0x0A7F);
      [apply (pick (lit "Punjabi") 0x0A00%N 0x0A7F%N);
       [unfold scripts; cbn [In]; tauto|lia|lia]|].
    destruct (N.le_gt_cases c 0x0AFF);
      [apply (pick (lit "Gujarati") 0x0A80%N 0x0AFF%N);
       [unfold scripts; cbn [In]; tauto|lia|lia]|].
    destruct (N.le_gt_cases c 0x0B7F);
      [apply (pick (lit "Odia") 0x0B00%N 0x0B7F%N);
       [unfold scripts; cbn [In]; tauto|lia|lia]|].
    destruct (N.le_gt_cases c 0x0BFF);
      [apply (pick (lit "Tamil") 0x0B80%N 0x0BFF%N);
       [unfold scripts; cbn [In]; tauto|lia|lia]|].
    destruct (N.le_gt_cases c 0x0C7F);
      [apply (pick (lit "Telugu") 0x0C00%N 0x0C7F%N);
       [unfold scripts; cbn [In]; tauto|lia|lia]|].
    destruct (N.le_gt_cases c 0x0CFF);
      [apply (pick (lit "Kannada") 0x0C80%N 0x0CFF%N);
       [unfold scripts; cbn [In]; tauto|lia|lia]|].
    apply (pick (lit "Malayalam") 0x0D00%N 0x0D7F%N);
      [unfold scripts; cbn [In]; tauto|lia|lia].
Qed.

Lemma relevant_counted (c : jschar) :
  isRelevant c = true ->
  (1 <= list_sum (map (fun s => if regex s c then 1 else 0) scripts))%nat.
Proof.
  intros H. destruct (relevant_script c H) as (s & I & R).
  unfold list_sum.
  revert I. generalize scripts. induction l as [|s' l IH]; intros I.
  - destruct I.
  - cbn [map fold_right]. destruct I as [->|I].
    + rewrite R. lia.
    + specialize (IH I). destruct (regex s' c); lia.
Qed.

Lemma counts_cover (l : jsstring) :
  forallb isRelevant l = true ->
  (length l <= list_sum (map (fun s => length (filter (regex s) l)) scripts))%nat.
Proof.
  unfold list_sum.
  induction l as [|c l IH]; intros H.
  - cbn. lia.
  - cbn [forallb] in H. apply andb_prop in H. destruct H as (Hc & Hl).
    specialize (IH Hl). pose proof (relevant_counted c Hc) as R.
    unfold list_sum in R.
    assert (S : forall scs : list Script,
               fold_right Nat.add 0%nat
                 (map (fun s => length (filter (regex s) (c :: l))) scs)
               = (fold_right Nat.add 0%nat
                    (map (fun s => if regex s c then 1 else 0) scs)
                  + fold_right Nat.add 0%nat
                      (map (fun s => length (filter (regex s) l)) scs))%nat).
    { induction scs as [|s scs IHs]; [reflexivity|].
      cbn [map fold_right]. rewrite IHs. cbn [filter].
      destruct (regex s c); cbn [length]; lia. }
    rewrite S. cbn [length]. lia.
Qed.

Lemma cleaned_relevant (text : jsstring) :
  forallb isRelevant (cleaned text) = true.
Proof.
  unfold cleaned. apply forallb_forall. intros c H.
  apply In_nth with (d := 0%N) in H. destruct H as (n & B & <-).
  rewrite length_firstn in B.
  assert (I : In (nth n (firstn 1000 (filter isRelevant text)) 0%N)
                 (filter isRelevant text)).
  { rewrite <- (firstn_skipn 1000 (filter isRelevant text)) at 2.
    apply in_or_app. left. apply nth_In. rewrite length_firstn. exact B. }
  apply filter_In in I. tauto.
Qed.

(** Fewer letters than scripts times five are needed for "Unknown". *)
Lemma rich_sample_known (text : jsstring) :
  (51 <= length (filter isRelevant text))%nat ->
  eqb (detectScriptBasedLanguage text) unknown = false.
Proof.
  intros H.
  destruct (eqb (detectScriptBasedLanguage text) unknown) eqn:E; trivial.
  apply eqb_eq in E. rewrite detect_unknown in E.
  pose proof (counts_cover (cleaned text) (cleaned_relevant text)) as C.
  assert (L : (51 <= length (cleaned text))%nat).
  { unfold cleaned. rewrite length_firstn. lia. }
  unfold list_sum in C.
  assert (B : forall scs : list Script,
             (forall s, In s scs -> (countIn s text <= 5)%nat) ->
             (fold_right Nat.add 0%nat
                (map (fun s => length (filter (regex s) (cleaned text))) scs)
              <= 5 * length scs)%nat).
  { induction scs as [|s scs IHs]; intros A; [cbn; lia|].
    cbn [map fold_right length].
    pose proof (A s (or_introl eq_refl)) as A1. unfold countIn in A1.
    assert (A2 := IHs (fun s' I => A s' (or_intror I))). lia. }
  specialize (B scripts E). cbn [scripts length] in B.
  change (length scripts) with 10%nat in B. lia.
Qed.

Lemma poor_sample_unknown (text : jsstring) :
  (length text <= 5)%nat -> detectScriptBasedLanguage text = unknown.
Proof.
  intros H. apply detect_unknown. intros s _.
  unfold countIn, cleaned.
  pose proof (filter_length_le (regex s) (firstn 1000 (filter isRelevant text))).
  pose proof (filter_length_le isRelevant text).
  rewrite length_firstn in *. lia.
Qed.

(** X17.  [detectScriptBasedLanguage] looks at the first 1000 characters of
    the text that are Latin letters or in U+0900..U+0D7F and counts those of
    each script of its table.  It answers "Unknown" exactly when no script
    has more than 5 of them; otherwise it answers the name of a script of the
    table whose count is greater than 5 and not less than that of any other
    script. *)
Theorem script_detection (text : jsstring) :
  (detectScriptBasedLanguage text = unknown
   <-> forall s, In s scripts -> (countIn s text <= 5)%nat)
  /\ (detectScriptBasedLanguage text = unknown
      \/ exists s, In s scripts
           /\ detectScriptBasedLanguage text = name s
           /\ (5 < countIn s text)%nat
           /\ forall s', In s' scripts ->
                (countIn s' text <= countIn s text)%nat).
Proof.
  split; [apply detect_unknown|].
  destruct (best_script text) as (best & rest & s & E & I & N & C & G).
  unfold detectScriptBasedLanguage. rewrite E.
  destruct (5 <? count best)%nat eqn:T.
  - right. apply Nat.ltb_lt in T. exists s. repeat split; auto. lia.
  - now left.
Qed.

(** X18.  When the sample gathered from the document has fewer than 5
    characters, [detectLanguageFromStructure] answers "Unknown" with
    confidence 0 without asking the service: the script detection it tries
    needs more than 5 characters of a script, so its answer of confidence
    0.5 is never given. *)
Theorem short_sample_is_unknown
        (ai : jsstring -> Reply) (structure : PdfStructure) :
  (length (sampleText structure) < 5)%nat ->
  detectLanguageFromStructure ai structure = mkDetection unknown 0.
Proof.
  intros H. unfold detectLanguageFromStructure. cbv zeta.
  replace (length (sampleText structure) <? 5)%nat with true
    by (symmetry; apply Nat.ltb_lt; exact H).
  unfold orScript. cbv zeta.
  rewrite poor_sample_unknown by lia. reflexivity.
Qed.

Lemma short_sample_is_unknown_witness :
  detectLanguageFromStructure unsureService (pageOf (lit " Hi "))
  = mkDetection unknown 0.
Proof.
  apply (short_sample_is_unknown unsureService (pageOf (lit " Hi "))).
  vm_compute. lia.
Defined.

(** X19.  When the sample gathered from the document has at least 51
    characters that are Latin letters or in U+0900..U+0D7F, the language
    answered is never "Unknown", whatever the service does: an answer of the
    service that is "Unknown" or of confidence below 0.4, and a failure of
    the service, are replaced by the script detection, which finds more than
    5 characters of one of its 10 scripts. *)
Theorem rich_sample_is_known
        (ai : jsstring -> Reply) (structure : PdfStructure) :
  (51 <= length (filter isRelevant (sampleText structure)))%nat ->
  eqb (language (detectLanguageFromStructure ai structure)) unknown = false.
Proof.
  intros H. pose proof (rich_sample_known _ H) as K.
  unfold detectLanguageFromStructure. cbv zeta.
  pose proof (filter_length_le isRelevant (sampleText structure)) as L.
  replace (length (sampleText structure) <? 5)%nat with false
    by (symmetry; apply Nat.ltb_ge; lia).
  unfold orScript. cbv zeta. rewrite K. cbn [negb].
  destruct (ai (firstn 4000 (sampleText structure))) as [|l c].
  - cbn [language]. exact K.
  - destruct (eqb l unknown) eqn:U; cbn [orb].
    + cbn [language]. exact K.
    + destruct (Num.ltb c (4 # 10)); cbn [language]; assumption.
Qed.

Lemma rich_sample_is_known_witness :
  eqb (language (detectLanguageFromStructure unsureService
                   (pageOf (repeat 2357%N 60))))
      unknown = false.
Proof.
  apply (rich_sample_is_known unsureService (pageOf (repeat 2357%N 60))).
  vm_compute. lia.
Defined.

End DetectFacts.

(* ================================================================== *)
(** ** The text of a response *)

Module ResponseFacts.

Import Str Response.

Lemma trimStart_blank (ws s : jsstring) :
  blank ws = true -> trimStart (ws ++ s) = trimStart s.
Proof.
  unfold blank. induction ws as [|c ws IH]; intros H; [reflexivity|].
  cbn [forallb] in H. apply andb_prop in H. destruct H as (Hc & Hw).
  cbn [app trimStart]. rewrite Hc. now apply IH.
Qed.

Lemma trimEnd_blank (s ws : jsstring) :
  blank ws = true -> trimEnd (s ++ ws) = trimEnd s.
Proof.
  intros H. unfold trimEnd. rewrite rev_app_distr, trimStart_blank; trivial.
  unfold blank. now rewrite GrouperFacts.forallb_rev.
Qed.

Lemma trimEnd_last (s : jsstring) (c : jschar) :
  isSpace c = false -> trimEnd (s ++ [c]) = s ++ [c].
Proof.
  intros H. unfold trimEnd. rewrite rev_app_distr. cbn [rev app trimStart].
  rewrite H. cbn [rev]. now rewrite rev_involutive.
Qed.

Lemma tight_start (s u : jsstring) :
  tight s = true -> s <> [] -> trimStart (s ++ u) = s ++ u.
Proof.
  unfold tight. destruct s as [|c s]; [congruence|]. intros H _.
  apply andb_prop in H. destruct H as (H & _).
  cbn [app trimStart]. now destruct (isSpace c).
Qed.

Lemma tight_end (u s : jsstring) :
  tight s = true -> s <> [] -> trimEnd (u ++ s) = u ++ s.
Proof.
  unfold tight. intros H N. apply andb_prop in H. destruct H as (_ & H).
  destruct (rev s) as [|c r] eqn:E.
  - apply (f_equal (@rev jschar)) in E. rewrite rev_involutive in E.
    cbn [rev] in E. congruence.
  - apply (f_equal (@rev jschar)) in E. rewrite rev_involutive in E.
    cbn [rev] in E. subst s. rewrite app_assoc. apply trimEnd_last.
    now destruct (isSpace c).
Qed.

Lemma tight_trim (s : jsstring) : tight s = true -> trim s = s.
Proof.
  intros H. destruct s as [|c s]; [reflexivity|].
  unfold trim.
  rewrite <- (app_nil_r (c :: s)) at 1.
  rewrite tight_start by (trivial; discriminate). rewrite app_nil_r.
  apply (tight_end [] (c :: s)); trivial; discriminate.
Qed.

Lemma trim_tight (s : jsstring) : tight (trim s) = true.
Proof.
  unfold tight, trim. apply andb_true_intro. split.
  - destruct (trimEnd (trimStart s)) as [|c r] eqn:E; [reflexivity|].
    destruct (trimStart s) as [|d u] eqn:S; [discriminate E|].
    pose proof (GrouperFacts.trimStart_head _ _ _ S) as Hd.
    unfold trimEnd in E.
    destruct (trimStart (rev (d :: u))) as [|x y] eqn:R; [discriminate E|].
    assert (P : exists pre, rev (d :: u) = pre ++ x :: y).
    { clear -R. induction (rev (d :: u)) as [|a l IH]; [discriminate R|].
      cbn [trimStart] in R. destruct (isSpace a).
      - destruct (IH R) as (pre & ->). now exists (a :: pre).
      - exists []. exact R. }
    destruct P as (pre & P).
    apply (f_equal (@rev jschar)) in P. rewrite rev_involutive in P.
    rewrite rev_app_distr in P. rewrite E in P.
    cbn [app] in P. injection P as <- _. now rewrite Hd.
  - unfold trimEnd. rewrite rev_involutive.
    destruct (trimStart (rev (trimStart s))) as [|c r] eqn:E; [reflexivity|].
    now rewrite (GrouperFacts.trimStart_head _ _ _ E).
Qed.

Lemma blank_not_j (c : jschar) : isSpace c = true -> isLetter 106 c = false.
Proof.
  intros H. unfold isLetter.
  destruct (N.eqb_spec c 106) as [->|_]; [discriminate H|].
  destruct (N.eqb_spec c (106 - 32)) as [->|_]; [discriminate H|].
  reflexivity.
Qed.

Lemma dropJson_opening (tag after : jsstring) :
  opening tag after = true -> dropJson (tag ++ after) = after.
Proof.
  unfold opening, dropJson. intros H. apply orb_prop in H.
  destruct H as [H|H].
  - destruct tag as [|j [|s [|o [|n [|x tag]]]]]; try discriminate H.
    cbn [app firstn skipn]. now rewrite H.
  - destruct tag; [|discriminate H]. cbn [app].
    destruct after as [|c after]; [reflexivity|].
    destruct after as [|c1 [|c2 [|c3 after]]]; try reflexivity.
    cbn [firstn isJsonTag].
    apply negb_true_iff in H. now rewrite H.
Qed.

(** X20.  [sanitizeJsonResponse] always gives a string without white space
    at either end, and trims only when the trimmed response does not start
    with a fence; it unwraps a fenced response: for a body without white
    space at its ends, put between an opening fence with the tag [json], in
    any case, or with no tag (the body then not beginning with a j), and a
    closing fence, with any white space around and inside the fences, the
    result is the body. *)
Theorem fenced_response_unwrapped
        (ws0 tag ws1 body ws2 ws3 : jsstring) :
  blank ws0 = true -> blank ws1 = true -> blank ws2 = true ->
  blank ws3 = true -> tight body = true ->
  opening tag (ws1 ++ body) = true ->
  sanitizeJsonResponse
    (ws0 ++ fence ++ tag ++ ws1 ++ body ++ ws2 ++ fence ++ ws3) = body.
Proof.
  intros B0 B1 B2 B3 T O.
  unfold sanitizeJsonResponse. cbv zeta.
  assert (X : trim (ws0 ++ fence ++ tag ++ ws1 ++ body ++ ws2 ++ fence ++ ws3)
              = fence ++ tag ++ ws1 ++ body ++ ws2 ++ fence).
  { unfold trim. rewrite trimStart_blank by exact B0.
    change (trimStart (fence ++ tag ++ ws1 ++ body ++ ws2 ++ fence ++ ws3))
      with (fence ++ tag ++ ws1 ++ body ++ ws2 ++ fence ++ ws3).
    replace (fence ++ tag ++ ws1 ++ body ++ ws2 ++ fence ++ ws3)
      with ((fence ++ tag ++ ws1 ++ body ++ ws2 ++ fence) ++ ws3)
      by (now rewrite <- !app_assoc).
    rewrite trimEnd_blank by exact B3.
    replace (fence ++ tag ++ ws1 ++ body ++ ws2 ++ fence)
      with ((fence ++ tag ++ ws1 ++ body ++ ws2 ++ [backtick; backtick])
              ++ [backtick])
      by (rewrite <- !app_assoc; reflexivity).
    now apply trimEnd_last. }
  rewrite X.
  change (Retry.startsWith fence (fence ++ tag ++ ws1 ++ body ++ ws2 ++ fence))
    with true. cbv iota.
  assert (Y : exists w, blank w = true
                /\ stripOpening (fence ++ tag ++ ws1 ++ body ++ ws2 ++ fence)
                   = body ++ w ++ fence).
  { unfold stripOpening.
    change (Retry.startsWith fence (fence ++ tag ++ ws1 ++ body ++ ws2 ++ fence))
      with true. cbv iota.
    change (skipn 3 (fence ++ tag ++ ws1 ++ body ++ ws2 ++ fence))
      with (tag ++ ws1 ++ body ++ ws2 ++ fence).
    assert (O' : opening tag (ws1 ++ body ++ ws2 ++ fence) = true).
    { unfold opening in *. destruct (isJsonTag tag); [reflexivity|].
      cbn [orb] in *. destruct tag; [|discriminate O].
      destruct (ws1 ++ body) as [|c r] eqn:E.
      - apply app_eq_nil in E. destruct E as (-> & ->). cbn [app].
        destruct ws2 as [|c ws2]; [reflexivity|].
        cbn [blank forallb] in B2. apply andb_prop in B2.
        cbn [app]. rewrite blank_not_j; tauto.
      - rewrite app_assoc, E. exact O. }
    rewrite (dropJson_opening tag _ O').
    rewrite trimStart_blank by exact B1.
    destruct body as [|c body].
    - exists []. split; [reflexivity|]. cbn [app].
      rewrite trimStart_blank by exact B2. reflexivity.
    - exists ws2. split; [exact B2|].
      apply tight_start; [exact T|discriminate]. }
  destruct Y as (w & Bw & ->).
  unfold stripClosing.
  assert (R : Retry.startsWith fence (rev (body ++ w ++ fence)) = true).
  { now rewrite !rev_app_distr. }
  rewrite R.
  replace (firstn (length (body ++ w ++ fence) - 3) (body ++ w ++ fence))
    with (body ++ w).
  2:{ rewrite app_assoc, length_app. cbn [fence length].
      replace (length (body ++ w) + 3 - 3)%nat
        with (length (body ++ w) + 0)%nat by lia.
      rewrite firstn_app_2. cbn [firstn]. now rewrite app_nil_r. }
  rewrite trimEnd_blank by exact Bw.
  assert (E : trimEnd body = body).
  { destruct body as [|c body]; [reflexivity|].
    apply (tight_end [] (c :: body)); [exact T|discriminate]. }
  rewrite E. now apply tight_trim.
Qed.

Lemma fenced_response_unwrapped_witness :
  sanitizeJsonResponse
    (lit " " ++ fence ++ lit "JSON" ++ [10%N] ++ lit "[1, 2]" ++ [10%N]
         ++ fence ++ [10%N])
  = lit "[1, 2]".
Proof.
  apply (fenced_response_unwrapped (lit " ") (lit "JSON") [10%N]
           (lit "[1, 2]") [10%N] [10%N]); reflexivity.
Defined.

(** X21.  The result of [sanitizeJsonResponse] never begins or ends with
    white space, so that trimming it again changes nothing; a response that,
    once trimmed, does not start with a fence is only trimmed. *)
Theorem sanitized_is_trimmed (text : jsstring) :
  tight (sanitizeJsonResponse text) = true
  /\ trim (sanitizeJsonResponse text) = sanitizeJsonResponse text
  /\ (Retry.startsWith fence (trim text) = false ->
      sanitizeJsonResponse text = trim text).
Proof.
  split; [apply trim_tight|]. split.
  - apply tight_trim, trim_tight.
  - intros H. unfold sanitizeJsonResponse. cbv zeta. rewrite H.
    apply tight_trim, trim_tight.
Qed.

End ResponseFacts.

(* ================================================================== *)
(** ** The preview's page and zoom *)

Module PreviewFacts.

Import T Preview.

Lemma nmin_cases (a b : Q) :
  (a <= b /\ Num.min a b = a) \/ (b < a /\ Num.min a b = b).
Proof.
  unfold Num.min, Num.ltb. destruct (Qle_bool a b) eqn:E; cbn [negb].
  - left. split; [now apply Qle_bool_iff|reflexivity].
  - right. split; [|reflexivity].
    apply Qnot_le_lt. intros C. apply Qle_bool_iff in C. congruence.
Qed.

Lemma nmax_cases (a b : Q) :
  (a < b /\ Num.max a b = b) \/ (b <= a /\ Num.max a b = a).
Proof.
  unfold Num.max, Num.ltb. destruct (Qle_bool b a) eqn:E; cbn [negb].
  - right. split; [now apply Qle_bool_iff|reflexivity].
  - left. split; [|reflexivity].
    apply Qnot_le_lt. intros C. apply Qle_bool_iff in C. congruence.
Qed.

Lemma handle_inRange (totalPages : Z) (v : View) (h : Handler) :
  (1 <= totalPages)%Z -> inRange totalPages v ->
  inRange totalPages (handle totalPages v h).
Proof.
  intros T (P & k & K & Z). destruct h; cbn [handle]; split;
    cbn [currentPage zoom]; try lia; try (exists k; split; [lia|exact Z]).
  - destruct (nmin_cases 3 (zoom v + (25 # 100))) as [(L & ->)|(L & ->)].
    + exists 12%Z. split; [lia|]. reflexivity.
    + exists (k + 1)%Z. split.
      * assert (Q : inject_Z k < inject_Z 11).
        { rewrite Z in L. change (inject_Z 11) with (11 # 1). Lqa.lra. }
        rewrite <- Zlt_Qlt in Q. lia.
      * rewrite inject_Z_plus, Z. change (inject_Z 1) with 1. Lqa.lra.
  - destruct (nmax_cases (5 # 10) (zoom v - (25 # 100))) as [(L & ->)|(L & ->)].
    + exists (k - 1)%Z. split.
      * assert (Q : inject_Z 3 < inject_Z k).
        { rewrite Z in L. change (inject_Z 3) with (3 # 1). Lqa.lra. }
        rewrite <- Zlt_Qlt in Q. lia.
      * unfold Z.sub. rewrite inject_Z_plus, Z.
        change (inject_Z (- (1))) with (- (1)). Lqa.lra.
    + exists 2%Z. split; [lia|]. reflexivity.
Qed.

Lemma after_inRange (totalPages : Z) (clicks : list Handler) :
  (1 <= totalPages)%Z -> inRange totalPages (after totalPages clicks).
Proof.
  intros T. unfold after.
  assert (I : inRange totalPages initial).
  { split; [cbn; lia|]. exists 4%Z. split; [lia|]. reflexivity. }
  revert I. generalize initial.
  induction clicks as [|h clicks IH]; intros v I; cbn [fold_left].
  - exact I.
  - apply IH. now apply handle_inRange.
Qed.

Lemma pageAt_some (l : list PdfPage) (i : Z) :
  (0 <= i < Z.of_nat (length l))%Z ->
  exists page, pageAt l i = Some page /\ In page l.
Proof.
  intros H. unfold pageAt.
  replace (i <? 0)%Z with false by (symmetry; apply Z.ltb_ge; lia).
  destruct (nth_error l (Z.to_nat i)) as [page|] eqn:E.
  - exists page. split; [reflexivity|]. eapply nth_error_In; eauto.
  - apply nth_error_None in E. lia.
Qed.

Lemma last_page (l : list PdfPage) :
  hd_error (rev l) = nth_error l (length l - 1).
Proof.
  induction l as [|x l _] using rev_ind; [reflexivity|].
  rewrite rev_app_distr, length_app. cbn [rev app hd_error length].
  rewrite nth_error_app2 by lia.
  now replace (length l + 1 - 1 - length l)%nat with 0%nat by lia.
Qed.

(** X22.  On a document with at least one page, whatever the sequence of
    clicks on next, previous, zoom in and zoom out from the initial view, the
    current page is a page of the document (so that the guard [safePage]
    leaves it as it is) and the zoom is a whole number of quarters between
    50% and 300%. *)
Theorem preview_stays_in_range (totalPages : Z) (clicks : list Handler) :
  (1 <= totalPages)%Z ->
  let v := after totalPages clicks in
  (1 <= currentPage v <= totalPages)%Z
  /\ safePage totalPages (currentPage v) = currentPage v
  /\ (5 # 10) <= zoom v /\ zoom v <= 3
  /\ exists k : Z, zoom v == inject_Z k * (25 # 100).
Proof.
  intros T v. destruct (after_inRange totalPages clicks T) as (P & k & K & Z).
  fold v in P, Z. split; [exact P|]. split; [unfold safePage; lia|].
  assert (L : inject_Z 2 <= inject_Z k) by (rewrite <- Zle_Qle; lia).
  assert (U : inject_Z k <= inject_Z 12) by (rewrite <- Zle_Qle; lia).
  change (inject_Z 2) with (2 # 1) in L. change (inject_Z 12) with (12 # 1) in U.
  split; [rewrite Z; Lqa.lra|]. split; [rewrite Z; Lqa.lra|].
  now exists k.
Qed.

Lemma preview_stays_in_range_witness :
  let v := after 3 [goToNext; goToNext; goToNext; goToNext; zoomOut; zoomOut;
                    zoomOut; goToPrev] in
  (1 <= currentPage v <= 3)%Z
  /\ safePage 3 (currentPage v) = currentPage v
  /\ (5 # 10) <= zoom v /\ zoom v <= 3
  /\ exists k : Z, zoom v == inject_Z k * (25 # 100).
Proof.
  apply (preview_stays_in_range 3
           [goToNext; goToNext; goToNext; goToNext; zoomOut; zoomOut;
            zoomOut; goToPrev]).
  lia.
Defined.

(** X23.  The page shown in single-page view.  Whatever the number in
    [currentPage], the page shown is a page of the document when the document
    has one: the page of that number when there is one, the first page below
    1 and the last page above the number of pages.  For a document without
    pages the page shown is [undefined].  In scroll view all pages are
    shown. *)
Theorem shown_page_exists (structure : PdfStructure) (n : Z) :
  let total := Z.of_nat (length (pages structure)) in
  (pages structure = [] -> displayStructure structure single n = [None])
  /\ (pages structure = [] \/
      exists page,
        displayStructure structure single n = [Some page]
        /\ In page (pages structure)
        /\ nth_error (pages structure)
             (Z.to_nat (Z.min (Z.max 1 n) total - 1)) = Some page
        /\ ((1 <= n <= total)%Z ->
            nth_error (pages structure) (Z.to_nat (n - 1)) = Some page)
        /\ ((n < 1)%Z -> hd_error (pages structure) = Some page)
        /\ ((total < n)%Z -> hd_error (rev (pages structure)) = Some page))
  /\ displayStructure structure scroll n = map Some (pages structure).
Proof.
  cbv zeta. split; [|split; [|reflexivity]].
  - intros E. unfold displayStructure. rewrite E. cbn [length Z.of_nat].
    unfold safePage, pageAt.
    replace (Z.min (Z.max 1 n) 0 - 1 <? 0)%Z with true
      by (symmetry; apply Z.ltb_lt; lia).
    reflexivity.
  - destruct (pages structure) as [|p l] eqn:E; [now left|right].
    unfold displayStructure. rewrite E. cbv zeta.
    set (total := Z.of_nat (length (p :: l))).
    assert (T : (1 <= total)%Z) by (unfold total; cbn [length]; lia).
    assert (R : (0 <= safePage total n - 1 < total)%Z)
      by (unfold safePage; lia).
    destruct (pageAt_some (p :: l) _ R) as (page & P & I).
    exists page. rewrite P. split; [reflexivity|]. split; [exact I|].
    unfold pageAt in P.
    replace (safePage total n - 1 <? 0)%Z with false in P
      by (symmetry; apply Z.ltb_ge; lia).
    unfold safePage in P. split; [exact P|]. split; [|split].
    + intros B. now replace (Z.min (Z.max 1 n) total) with n in P by lia.
    + intros B. replace (Z.min (Z.max 1 n) total) with 1%Z in P by lia.
      exact P.
    + intros B. replace (Z.min (Z.max 1 n) total) with total in P by lia.
      replace (Z.to_nat (total - 1)) with (length l) in P
        by (unfold total; cbn [length]; lia).
      rewrite last_page.
      now replace (length (p :: l) - 1)%nat with (length l)
        by (cbn [length]; lia).
Qed.

Lemma toGrid_rounds : rounds toGrid.
Proof.
  split; [|split; reflexivity].
  intros a b H. unfold toGrid.
  assert (F : (Qfloor (a * 1024 + (1 # 2)) <= Qfloor (b * 1024 + (1 # 2)))%Z)
    by (apply Qfloor_resp_le; Lqa.lra).
  rewrite Zle_Qle in F. unfold Qdiv.
  apply Qmult_le_compat_r; [exact F|]. discriminate.
Qed.

Lemma rounds_compat (fl : Q -> Q) (a b : Q) :
  rounds fl -> a == b -> fl a == fl b.
Proof.
  intros (M & _) E. apply Qle_antisym; apply M; rewrite E; apply Qle_refl.
Qed.

Lemma rounds_nonneg (fl : Q -> Q) (a : Q) : rounds fl -> 0 <= a -> 0 <= fl a.
Proof.
  intros (M & Z & _) H. rewrite <- Z. now apply M.
Qed.

(** X24.  The scale of the preview, on doubles.  Each operation gives its
    exact result rounded, by a rounding that keeps the order and leaves 0
    and 1 alone.  For a page of positive natural width in a wrapper at
    least as wide as its padding, at a positive zoom that is a double: the
    scale applied is between 0 and the zoom (the fit to the width never
    enlarges), and it is the zoom itself when the page is not wider than
    the space available; the visual width and the left margin are never
    negative, and the margin is 0 unless the visual width is less than the
    space available.  (That the scaled page fits the space available is
    not stated: rounding can leave it wider, as [fit_may_overshoot]
    shows.) *)
Theorem preview_scale_bounded (fl : Q -> Q) (naturalWidth clientWidth zoom : Q) :
  rounds fl -> fl zoom == zoom ->
  0 < naturalWidth -> 32 <= clientWidth -> 0 < zoom ->
  let layout := calculateScale fl naturalWidth clientWidth zoom in
  let availableWidth := fl (clientWidth - 32) in
  0 <= finalScale layout /\ finalScale layout <= zoom
  /\ (naturalWidth <= availableWidth -> finalScale layout == zoom)
  /\ 0 <= visualWidth layout
  /\ 0 <= marginLeft layout
  /\ (availableWidth <= visualWidth layout -> marginLeft layout = 0).
Proof.
  intros R Zd N C Z. pose proof R as (M & R0 & R1).
  unfold calculateScale. cbv zeta.
  cbn [finalScale visualWidth marginLeft].
  set (avail := fl (clientWidth - 32)).
  assert (A : 0 <= avail).
  { unfold avail. apply rounds_nonneg; [exact R|]. Lqa.lra. }
  assert (D0 : 0 <= fl (avail / naturalWidth)).
  { apply rounds_nonneg; [exact R|].
    apply Qle_shift_div_l; [exact N|]. Lqa.lra. }
  set (base := Num.min 1 (fl (avail / naturalWidth))).
  assert (B : 0 <= base /\ base <= 1).
  { unfold base.
    destruct (nmin_cases 1 (fl (avail / naturalWidth))) as [(L & ->)|(L & ->)];
      split; Lqa.lra. }
  destruct B as (B0 & B1).
  assert (F0 : 0 <= fl (base * zoom)).
  { apply rounds_nonneg; [exact R|]. apply Qmult_le_0_compat; Lqa.lra. }
  assert (F1 : fl (base * zoom) <= zoom).
  { rewrite <- Zd at 2. apply M.
    assert (P : base * zoom <= 1 * zoom)
      by (apply Qmult_le_compat_r; Lqa.lra).
    Lqa.lra. }
  split; [exact F0|]. split; [exact F1|]. split; [|split; [|split]].
  - intros W.
    assert (Q1 : 1 <= avail / naturalWidth).
    { apply Qle_shift_div_l; [exact N|]. Lqa.lra. }
    assert (Q2 : 1 <= fl (avail / naturalWidth)).
    { rewrite <- R1. now apply M. }
    assert (E : base = 1).
    { unfold base.
      destruct (nmin_cases 1 (fl (avail / naturalWidth))) as [(L & ->)|(L & _)];
        [reflexivity|Lqa.lra]. }
    rewrite E. rewrite <- Zd at 2. apply rounds_compat; [exact R|]. ring.
  - apply rounds_nonneg; [exact R|]. apply Qmult_le_0_compat; Lqa.lra.
  - unfold Num.ltb.
    destruct (Qle_bool avail (fl (naturalWidth * fl (base * zoom)))) eqn:E;
      cbn [negb]; [Lqa.lra|].
    assert (L : fl (naturalWidth * fl (base * zoom)) < avail).
    { apply Qnot_le_lt. intros X. apply Qle_bool_iff in X. congruence. }
    apply rounds_nonneg; [exact R|].
    assert (P : 0 <= fl (avail - fl (naturalWidth * fl (base * zoom)))).
    { apply rounds_nonneg; [exact R|]. Lqa.lra. }
    unfold Qdiv. change (/ 2) with (1 # 2). Lqa.lra.
  - intros W. unfold Num.ltb.
    apply Qle_bool_iff in W. now rewrite W.
Qed.

Lemma preview_scale_bounded_witness :
  let layout := calculateScale toGrid 1800 432 1 in
  let availableWidth := toGrid (432 - 32) in
  0 <= finalScale layout /\ finalScale layout <= 1
  /\ (1800 <= availableWidth -> finalScale layout == 1)
  /\ 0 <= visualWidth layout
  /\ 0 <= marginLeft layout
  /\ (availableWidth <= visualWidth layout -> marginLeft layout = 0).
Proof.
  apply (preview_scale_bounded toGrid 1800 432 1).
  - exact toGrid_rounds.
  - reflexivity.
  - reflexivity.
  - discriminate.
  - reflexivity.
Defined.

(** Rounding can leave the scaled page wider than the space available:
    with the quotient 400/530 rounded up to the grid, the product with 530
    exceeds 400, and the margin is 0. *)
Example fit_may_overshoot :
  400 < visualWidth (calculateScale toGrid 530 432 1)
  /\ marginLeft (calculateScale toGrid 530 432 1) = 0.
Proof. split; reflexivity. Qed.

End PreviewFacts.

(* ================================================================== *)
(** ** Word documents *)

Module DocxFacts.

Import Str T Docx.

(** Induction on a node with its children. *)
Lemma Node_induction (P : Node -> Prop) :
  (forall data, P (TextNode data)) ->
  (forall name colspan rowspan childNodes,
      Forall P childNodes -> P (Element name colspan rowspan childNodes)) ->
  forall node, P node.
Proof.
  intros HT HE. fix IH 1. intros [name colspan rowspan childNodes|data].
  - apply HE. induction childNodes as [|child rest IHl]; constructor.
    + apply IH.
    + exact IHl.
  - apply HT.
Qed.

Section Parsing.

Variable parseInt : jsstring -> Q.

(** What [processNode] keeps, when adding a paragraph and adding a table
    keep it. *)
Lemma processNode_keeps (P : DocState -> Prop) :
  (forall txt st, txt <> [] -> trim txt = txt -> P st ->
                  P (addParagraph "P"%string txt st)) ->
  (forall rows st, rows <> [] -> P st -> P (addTable rows st)) ->
  forall node st, P st -> P (processNode parseInt st node).
Proof.
  intros HP HT node. induction node as [data|name colspan rowspan childNodes IH]
    using Node_induction; intros st H; cbn [processNode].
  - exact H.
  - destruct (String.eqb name "P"%string) eqn:E.
    + apply String.eqb_eq in E. subst name.
      destruct (trim (textContent (Element "P"%string colspan rowspan childNodes)))
        as [|c txt] eqn:T; [exact H|].
      apply HP; trivial; [discriminate|].
      rewrite <- T. apply ResponseFacts.tight_trim, ResponseFacts.trim_tight.
    + destruct (String.eqb name "TABLE"%string).
      * destruct (rowsOf parseInt (Element name colspan rowspan childNodes))
          as [|r rows] eqn:R; [exact H|].
        apply HT; trivial. discriminate.
      * revert st H. induction IH as [|child rest Hc _ IHl]; intros st H.
        -- exact H.
        -- cbn [fold_left]. apply IHl. now apply Hc.
Qed.

Lemma body_keeps (P : DocState -> Prop) :
  (forall txt st, txt <> [] -> trim txt = txt -> P st ->
                  P (addParagraph "P"%string txt st)) ->
  (forall rows st, rows <> [] -> P st -> P (addTable rows st)) ->
  forall body st, P st -> P (fold_left (processNode parseInt) body st).
Proof.
  intros HP HT body. induction body as [|node body IH]; intros st H.
  - exact H.
  - cbn [fold_left]. apply IH. now apply processNode_keeps.
Qed.

End Parsing.

(** *** Placement *)

Lemma placed_snoc (l : list PdfItem) :
  forall (top bottom : Q) (it : PdfItem),
    placed top l bottom -> y (geom it) == bottom ->
    placed top (l ++ [it]) (bottom + advance it).
Proof.
  induction l as [|a l IH]; intros top bottom it H Y; cbn [app placed] in *.
  - split; [now rewrite Y, H|]. now rewrite H.
  - destruct H as (Ya & H). split; [exact Ya|]. now apply IH.
Qed.

Lemma placed_bottom (l : list PdfItem) :
  forall top bottom b', placed top l bottom -> b' == bottom -> placed top l b'.
Proof.
  induction l as [|a l IH]; intros top bottom b' H E; cbn [placed] in *.
  - now rewrite E.
  - destruct H as (Ya & H). split; [exact Ya|]. eapply IH; eauto.
Qed.

Lemma makeRoom_steady (extent : Q) (st : DocState) :
  steady st ->
  steady (makeRoom extent st)
  /\ (currentY (makeRoom extent st) + extent <= pageHeight - margin
      \/ currentY (makeRoom extent st) = margin).
Proof.
  intros (Pg & Fr & Pl & My). unfold makeRoom, Num.ltb.
  destruct (Qle_bool (currentY st + extent) (pageHeight - margin)) eqn:E;
    cbn [negb].
  - apply Qle_bool_iff in E. split; [|now left].
    repeat split; assumption.
  - split; [|now right]. unfold pushNewPage, steady.
    cbn [pages currentPageItems currentY].
    split; [|split; [constructor|split; [reflexivity|apply Qle_refl]]].
    apply Forall_app. split; [exact Pg|]. constructor; [|constructor].
    unfold wellPaged. cbn [items T.pageWidth T.pageHeight].
    repeat split; trivial. now exists (currentY st).
Qed.

Lemma addParagraph_steady (txt : jsstring) (st : DocState) :
  txt <> [] -> trim txt = txt -> steady st ->
  steady (addParagraph "P"%string txt st).
Proof.
  intros N T S. unfold addParagraph. cbv zeta.
  destruct (makeRoom_steady lineHeight st S) as ((Pg & Fr & Pl & My) & Room).
  set (st' := makeRoom lineHeight st) in *.
  unfold steady. cbn [pages currentPageItems currentY].
  split; [exact Pg|].
  assert (L : 0 < lineHeight) by reflexivity.
  split; [|split].
  - apply Forall_app. split; [exact Fr|]. constructor; [|constructor].
    unfold framed, textItem. cbn [geom detail x y width height text
      T.fontSize isBold isParagraphStart].
    repeat split; trivial.
    destruct Room as [R|R]; [exact R|]. rewrite R. discriminate.
  - apply (placed_snoc _ _ _ (textItem "P"%string txt (currentY st'))); trivial.
    reflexivity.
  - Lqa.lra.
Qed.

Lemma rows_extent (rows : list PdfTableRow) :
  0 <= inject_Z (Z.of_nat (length rows)) * 25.
Proof.
  assert (H : inject_Z 0 <= inject_Z (Z.of_nat (length rows)))
    by (rewrite <- Zle_Qle; lia).
  change (inject_Z 0) with 0 in H. Lqa.lra.
Qed.

Lemma addTable_steady (rows : list PdfTableRow) (st : DocState) :
  rows <> [] -> steady st -> steady (addTable rows st).
Proof.
  intros N S. unfold addTable. cbv zeta.
  set (h := inject_Z (Z.of_nat (length rows)) * 25).
  destruct (makeRoom_steady h st S) as ((Pg & Fr & Pl & My) & Room).
  set (st' := makeRoom h st) in *.
  pose proof (rows_extent rows) as H. fold h in H.
  unfold steady. cbn [pages currentPageItems currentY].
  split; [exact Pg|]. split; [|split].
  - apply Forall_app. split; [exact Fr|]. constructor; [|constructor].
    unfold framed, tableItem. cbn [geom detail x y width height].
    repeat split; trivial.
    destruct Room as [R|R]; [now left|right]. now rewrite R.
  - apply (placed_snoc _ _ _ (tableItem rows (currentY st') h)); trivial.
    reflexivity.
  - Lqa.lra.
Qed.

Lemma body_steady (parseInt : jsstring -> Q) (body : list Node) :
  steady (fold_left (processNode parseInt) body (mkDocState [] [] margin)).
Proof.
  apply body_keeps.
  - intros txt st N T S. now apply addParagraph_steady.
  - intros rows st N S. now apply addTable_steady.
  - unfold steady. cbn [pages currentPageItems currentY].
    split; [constructor|]. split; [constructor|].
    split; [reflexivity|apply Qle_refl].
Qed.

(** In a placement, an item ends above the next. *)
Lemma placed_apart (pre : list PdfItem) :
  forall (top bottom : Q) (a b : PdfItem) (post : list PdfItem),
    placed top (pre ++ a :: b :: post) bottom ->
    y (geom b) == y (geom a) + advance a.
Proof.
  induction pre as [|c pre IH]; intros top bottom a b post H;
    cbn [app placed] in H.
  - destruct H as (Ya & Yb & _). now rewrite Yb, Ya.
  - destruct H as (_ & H). eapply IH; eauto.
Qed.

(** *** Content *)

Lemma content_makeRoom (extent : Q) (st : DocState) :
  content (makeRoom extent st) = content st.
Proof.
  unfold makeRoom. destruct (Num.ltb _ _); [|reflexivity].
  unfold content, pushNewPage. cbn [pages currentPageItems].
  rewrite flat_map_app. cbn [flat_map items]. now rewrite !app_nil_r.
Qed.

Lemma content_addParagraph (name : string) (txt : jsstring) (st : DocState) :
  map blockOf (content (addParagraph name txt st))
  = map blockOf (content st) ++ [Some (Paragraph txt)].
Proof.
  rewrite <- (content_makeRoom lineHeight st).
  unfold addParagraph, content. cbv zeta. cbn [pages currentPageItems].
  now rewrite app_assoc, map_app.
Qed.

Lemma content_addTable (rows : list PdfTableRow) (st : DocState) :
  map blockOf (content (addTable rows st))
  = map blockOf (content st) ++ [Some (Grid rows)].
Proof.
  rewrite <- (content_makeRoom (inject_Z (Z.of_nat (length rows)) * 25) st).
  unfold addTable, content. cbv zeta. cbn [pages currentPageItems].
  now rewrite app_assoc, map_app.
Qed.

Lemma content_processNode (parseInt : jsstring -> Q) (node : Node) :
  forall st,
    map blockOf (content (processNode parseInt st node))
    = map blockOf (content st) ++ map Some (blocksOf parseInt node).
Proof.
  induction node as [data|name colspan rowspan childNodes IH]
    using Node_induction; intros st; cbn [processNode blocksOf].
  - cbn [map]. now rewrite app_nil_r.
  - destruct (String.eqb name "P"%string).
    + destruct (trim (textContent (Element name colspan rowspan childNodes)))
        as [|c txt].
      * cbn [map]. now rewrite app_nil_r.
      * apply content_addParagraph.
    + destruct (String.eqb name "TABLE"%string).
      * destruct (rowsOf parseInt (Element name colspan rowspan childNodes))
          as [|r rows].
        -- cbn [map]. now rewrite app_nil_r.
        -- apply content_addTable.
      * revert st. induction IH as [|child rest Hc _ IHl]; intros st.
        -- cbn [fold_left flat_map map]. now rewrite app_nil_r.
        -- cbn [fold_left flat_map]. rewrite IHl, Hc, map_app.
           now rewrite app_assoc.
Qed.

Lemma content_body (parseInt : jsstring -> Q) (body : list Node) :
  forall st,
    map blockOf (content (fold_left (processNode parseInt) body st))
    = map blockOf (content st) ++ map Some (flat_map (blocksOf parseInt) body).
Proof.
  induction body as [|node body IH]; intros st; cbn [fold_left flat_map].
  - cbn [map]. now rewrite app_nil_r.
  - rewrite IH, content_processNode, map_app. now rewrite app_assoc.
Qed.

(** *** Empty pages *)

Lemma tall_table (cy : Q) (n : nat) :
  cy == margin ->
  Num.ltb (pageHeight - margin) (cy + inject_Z (Z.of_nat n) * 25)
  = (30 <=? n)%nat.
Proof.
  intros E. unfold Num.ltb.
  destruct (Nat.leb_spec 30 n) as [L|L].
  - apply negb_true_iff.
    destruct (Qle_bool (cy + inject_Z (Z.of_nat n) * 25) (pageHeight - margin))
      eqn:B; trivial.
    apply Qle_bool_iff in B. rewrite E in B.
    assert (H : inject_Z 30 <= inject_Z (Z.of_nat n))
      by (rewrite <- Zle_Qle; lia).
    change (inject_Z 30) with 30 in H. unfold pageHeight, margin in B.
    Lqa.lra.
  - apply negb_false_iff. apply Qle_bool_iff. rewrite E.
    assert (H : inject_Z (Z.of_nat n) <= inject_Z 29)
      by (rewrite <- Zle_Qle; lia).
    change (inject_Z 29) with 29 in H. unfold pageHeight, margin.
    Lqa.lra.
Qed.

Lemma firstTall_snoc (l : list PdfItem) (it : PdfItem) :
  l <> [] -> firstTall (l ++ [it]) = firstTall l.
Proof. destruct l; [congruence|reflexivity]. Qed.

Lemma snoc_not_nil (l : list PdfItem) (it : PdfItem) : l ++ [it] <> [].
Proof. destruct l; discriminate. Qed.

Lemma addParagraph_paging (txt : jsstring) (st : DocState) :
  paging st -> paging (addParagraph "P"%string txt st).
Proof.
  intros (E1 & E2 & E3). unfold addParagraph. cbv zeta.
  assert (R : makeRoom lineHeight st = st
              \/ (makeRoom lineHeight st = pushNewPage st
                  /\ currentPageItems st <> [])).
  { unfold makeRoom.
    destruct (Num.ltb (pageHeight - margin) (currentY st + lineHeight)) eqn:B;
      [right|now left].
    split; [reflexivity|]. intros C. destruct (E1 C) as (_ & Y).
    unfold Num.ltb in B. apply negb_true_iff in B.
    assert (L : currentY st + lineHeight <= pageHeight - margin)
      by (rewrite Y; discriminate).
    apply Qle_bool_iff in L. congruence. }
  destruct R as [->|(-> & N)]; unfold paging;
    cbn [pages currentPageItems currentY pushNewPage].
  - split; [intros C; now apply snoc_not_nil in C|]. split; [exact E2|].
    destruct (pages st) as [|first rest] eqn:P.
    + destruct (currentPageItems st) as [|a l] eqn:C; [reflexivity|exact E3].
    + unfold content in *. cbn [pages currentPageItems] in *.
      rewrite P in *. rewrite app_assoc.
      destruct (flat_map items (first :: rest) ++ currentPageItems st)
        as [|a l] eqn:C.
      * apply app_eq_nil in C. destruct C as (_ & C).
        destruct (E1 C) as (X & _). discriminate X.
      * rewrite firstTall_snoc by discriminate. exact E3.
  - split; [intros C; now apply snoc_not_nil in C|].
    destruct (pages st) as [|first rest] eqn:P; cbn [app tl].
    + split; [constructor|].
      cbn [items]. unfold content. cbn [pages currentPageItems flat_map items].
      rewrite app_nil_r. cbn [app].
      destruct (currentPageItems st) as [|a l] eqn:C; [congruence|].
      cbn [app]. cbn [firstTall] in *. rewrite E3.
      split; intros X; discriminate X.
    + split.
      * apply Forall_app. split; [exact E2|].
        constructor; [exact N|constructor].
      * unfold content in *. cbn [pages currentPageItems] in *.
        rewrite P in *. cbn [app].
        change (first :: rest ++ [mkPage (currentPageItems st) pageWidth pageHeight])
          with ((first :: rest) ++ [mkPage (currentPageItems st) pageWidth pageHeight]).
        rewrite flat_map_app. cbn [flat_map items]. rewrite app_nil_r.
        cbn [app]. rewrite firstTall_snoc; [exact E3|].
        intros C. apply app_eq_nil in C. tauto.
Qed.

Lemma addTable_paging (rows : list PdfTableRow) (st : DocState) :
  paging st -> paging (addTable rows st).
Proof.
  intros (E1 & E2 & E3). unfold addTable. cbv zeta.
  set (h := inject_Z (Z.of_nat (length rows)) * 25).
  unfold makeRoom.
  destruct (Num.ltb (pageHeight - margin) (currentY st + h)) eqn:B;
    unfold paging; cbn [pages currentPageItems currentY pushNewPage].
  - split; [intros C; discriminate C|].
    destruct (pages st) as [|first rest] eqn:P; cbn [app tl].
    + split; [constructor|].
      cbn [items]. unfold content. cbn [pages currentPageItems flat_map items].
      rewrite app_nil_r. cbn [app].
      destruct (currentPageItems st) as [|a l] eqn:C.
      * destruct (E1 eq_refl) as (_ & Y).
        unfold h in B. rewrite (tall_table _ _ Y) in B.
        cbn [app firstTall tableItem detail]. tauto.
      * cbn [app]. cbn [firstTall] in *. rewrite E3.
        split; intros X; discriminate X.
    + assert (N : currentPageItems st <> []).
      { intros C. destruct (E1 C) as (X & _). discriminate X. }
      split.
      * apply Forall_app. split; [exact E2|].
        constructor; [exact N|constructor].
      * unfold content in *. cbn [pages currentPageItems] in *.
        rewrite P in *. cbn [app].
        change (first :: rest ++ [mkPage (currentPageItems st) pageWidth pageHeight])
          with ((first :: rest) ++ [mkPage (currentPageItems st) pageWidth pageHeight]).
        rewrite flat_map_app. cbn [flat_map items]. rewrite app_nil_r.
        cbn [app]. rewrite firstTall_snoc; [exact E3|].
        intros C. apply app_eq_nil in C. tauto.
  - split; [intros C; now apply snoc_not_nil in C|]. split; [exact E2|].
    destruct (pages st) as [|first rest] eqn:P.
    + destruct (currentPageItems st) as [|a l] eqn:C; [|exact E3].
      destruct (E1 eq_refl) as (_ & Y).
      unfold h in B. rewrite (tall_table _ _ Y) in B.
      cbn [app firstTall tableItem detail]. exact B.
    + unfold content in *. cbn [pages currentPageItems] in *.
      rewrite P in *. rewrite app_assoc.
      destruct (flat_map items (first :: rest) ++ currentPageItems st)
        as [|a l] eqn:C.
      * apply app_eq_nil in C. destruct C as (_ & C).
        destruct (E1 C) as (X & _). discriminate X.
      * rewrite firstTall_snoc by discriminate. exact E3.
Qed.

Lemma body_paging (parseInt : jsstring -> Q) (body : list Node) :
  paging (fold_left (processNode parseInt) body (mkDocState [] [] margin)).
Proof.
  apply body_keeps.
  - intros txt st _ _ S. now apply addParagraph_paging.
  - intros rows st _ S. now apply addTable_paging.
  - unfold paging. cbn [pages currentPageItems currentY tl].
    split; [intros _; split; reflexivity|]. split; [constructor|reflexivity].
Qed.

(** X25.  The pages made from a Word document.  Whatever the document,
    there is at least one page; every page is 595.28 by 841.89; every item is
    a text or a table, at the left margin 50 and as wide as the page between
    its margins, not above the top margin; a text is 12 high, not empty,
    trimmed, starts a paragraph, is never bold, and its line of 18 ends above
    the bottom margin; a table is 25 high for each row and ends above the
    bottom margin unless it is the first item of its page; the items of a
    page are one below the other from the top margin, each ending above the
    next. *)
Theorem docx_pages_layout (parseInt : jsstring -> Q) (body : list Node) :
  let structure := extractDocxStructure parseInt body in
  (1 <= length (T.pages structure))%nat
  /\ Forall wellPaged (T.pages structure)
  /\ forall page pre a b post,
       In page (T.pages structure) ->
       items page = pre ++ a :: b :: post ->
       y (geom a) + height (geom a) < y (geom b).
Proof.
  cbv zeta. unfold extractDocxStructure. cbv zeta. cbn [T.pages].
  destruct (body_steady parseInt body) as (Pg & Fr & Pl & My).
  set (st := fold_left (processNode parseInt) body (mkDocState [] [] margin))
    in *.
  assert (Last : wellPaged (mkPage (currentPageItems st) pageWidth pageHeight)).
  { unfold wellPaged. cbn [items T.pageWidth T.pageHeight].
    repeat split; trivial. now exists (currentY st). }
  assert (All : Forall wellPaged
                  (pages st ++ [mkPage (currentPageItems st) pageWidth pageHeight])).
  { apply Forall_app. split; [exact Pg|]. constructor; [exact Last|constructor]. }
  assert (W : Forall wellPaged
                (match currentPageItems st, pages st with
                 | [], _ :: _ => pages st
                 | _, _ => pages st ++ [mkPage (currentPageItems st) pageWidth
                                               pageHeight]
                 end)).
  { destruct (currentPageItems st); destruct (pages st); trivial. }
  split; [|split; [exact W|]].
  - destruct (currentPageItems st); destruct (pages st);
      try rewrite length_app; cbn [length]; lia.
  - intros page pre a b post I E.
    rewrite Forall_forall in W. destruct (W page I) as (_ & _ & F & bottom & P).
    rewrite E in F, P. pose proof (placed_apart _ _ _ _ _ _ P) as Y.
    rewrite Forall_forall in F.
    assert (Fa : framed a) by (apply F, in_or_app; right; now left).
    destruct Fa as (_ & _ & _ & D). unfold advance in Y. rewrite Y.
    destruct (detail a) as [p|data|m lw sc|rows hb]; try contradiction.
    + destruct D as (-> & _).
      apply Qplus_lt_r. reflexivity.
    + apply Qplus_lt_r. Lqa.lra.
Qed.

(** X26.  The pages of a Word document hold, in the order of the document,
    one text item for each paragraph element whose trimmed text is not empty
    and one table item for each table element with a row that has a cell,
    with that text and those rows; text outside paragraphs and tables, and
    what is nested in a paragraph or in a table, gives no item of its own;
    the break into pages drops, repeats and reorders nothing. *)
Theorem docx_keeps_order (parseInt : jsstring -> Q) (body : list Node) :
  map blockOf (flat_map items (T.pages (extractDocxStructure parseInt body)))
  = map Some (flat_map (blocksOf parseInt) body).
Proof.
  unfold extractDocxStructure. cbv zeta. cbn [T.pages].
  pose proof (content_body parseInt body (mkDocState [] [] margin)) as C.
  cbn [content pages currentPageItems flat_map app map] in C.
  rewrite <- C. clear C.
  set (st := fold_left (processNode parseInt) body (mkDocState [] [] margin)).
  unfold content.
  destruct (currentPageItems st) as [|it l]; destruct (pages st) as [|pg ps];
    try rewrite flat_map_app; cbn [flat_map items]; now rewrite ?app_nil_r.
Qed.

Lemma firstTall_blocks (l : list PdfItem) (blocks : list Block) :
  map blockOf l = map Some blocks ->
  (firstTall l = true <-> l <> [] /\ startsTall blocks).
Proof.
  destruct l as [|it l]; destruct blocks as [|b blocks]; cbn [map];
    intros H; try discriminate H.
  - cbn [firstTall]. split; [discriminate|]. intros (C & _). congruence.
  - injection H as H _. unfold blockOf in H. cbn [firstTall startsTall].
    destruct (detail it) as [p|data|m lw sc|rows hb]; try discriminate H;
      injection H as <-.
    + split; [discriminate|]. tauto.
    + rewrite Nat.leb_le. split; [intros L; split; [discriminate|exact L]|tauto].
Qed.

(** X27.  Empty pages of a Word document.  Only the first page can be
    without item, and it is exactly when the document has no paragraph and no
    table at all, or begins with a table of 30 rows or more: such a table
    does not fit below the top margin, so a page is closed before it, with
    nothing on it. *)
Theorem docx_empty_first_page (parseInt : jsstring -> Q) (body : list Node) :
  exists first rest,
    T.pages (extractDocxStructure parseInt body) = first :: rest
    /\ Forall (fun page => items page <> []) rest
    /\ (items first = []
        <-> startsTall (flat_map (blocksOf parseInt) body)).
Proof.
  unfold extractDocxStructure. cbv zeta. cbn [T.pages].
  pose proof (content_body parseInt body (mkDocState [] [] margin)) as C.
  cbn [content pages currentPageItems flat_map app map] in C.
  destruct (body_paging parseInt body) as (E1 & E2 & E3).
  set (st := fold_left (processNode parseInt) body (mkDocState [] [] margin))
    in *.
  pose proof (firstTall_blocks _ _ C) as F.
  unfold content in *.
  destruct (pages st) as [|first rest] eqn:P.
  - exists (mkPage (currentPageItems st) pageWidth pageHeight), [].
    cbn [flat_map app] in *.
    split; [now destruct (currentPageItems st)|]. split; [constructor|].
    cbn [items]. rewrite E3 in F.
    destruct (currentPageItems st) as [|it l] eqn:Cu.
    + destruct (flat_map (blocksOf parseInt) body); [|discriminate C].
      cbn [startsTall]. tauto.
    + split; [discriminate|]. intros S.
      assert (X : false = true) by (apply F; split; [discriminate|exact S]).
      discriminate X.
  - assert (N : currentPageItems st <> []).
    { intros Cu. destruct (E1 Cu) as (X & _). discriminate X. }
    exists first, (rest ++ [mkPage (currentPageItems st) pageWidth pageHeight]).
    split; [destruct (currentPageItems st); [congruence|reflexivity]|].
    split.
    + apply Forall_app. split; [exact E2|]. constructor; [exact N|constructor].
    + rewrite E3, F. split; [tauto|]. intros S. split; [|exact S].
      intros X. apply app_eq_nil in X. tauto.
Qed.

(** A table of 30 rows at the start leaves the first page empty. *)
Example docx_tall_table_first :
  map (fun page => length (items page))
      (T.pages (extractDocxStructure (fun _ => 1) (tableOf 30)))
  = [0%nat; 1%nat]
  /\ map (fun page => length (items page))
         (T.pages (extractDocxStructure (fun _ => 1) (tableOf 29)))
     = [1%nat].
Proof. split; vm_compute; reflexivity. Qed.

End DocxFacts.

(* ================================================================== *)
(** ** The line grouper keeps the text *)

Module GrouperText.

Import T Str LineGrouper.

(** *** Segments *)

Lemma gluedFrom_snoc (rs : list Run) :
  forall (acc t : jsstring) (r : Run),
    gluedFrom acc rs t ->
    gluedFrom acc (rs ++ [r]) (t ++ str r)
    /\ gluedFrom acc (rs ++ [r]) ((t ++ [space]) ++ str r).
Proof.
  induction rs as [|a rs IH]; intros acc t r H; cbn [app gluedFrom] in *.
  - subst t. split; [now left|now right].
  - destruct H as [H|H]; destruct (IH _ _ r H) as (A & B); split; auto.
Qed.

Lemma madeOf_extend (seg : list Run) (g : Geometry * TextProps) (item : Run) :
  madeOf seg (asItem g) -> madeOf (seg ++ [item]) (asItem (extend g item)).
Proof.
  destruct g as [cg cp]. unfold madeOf, asItem, extend.
  cbn [fst snd geom detail x text].
  destruct seg as [|r rest]; [tauto|]. intros (X & G). cbn [app].
  split; [exact X|].
  destruct (gluedFrom_snoc rest _ _ item G) as (A & B).
  destruct (Num.ltb _ _); assumption.
Qed.

Lemma madeOf_newGroup (vw vh thr ky : Q) (st : Cursor) (item : Run) :
  madeOf [item] (asItem (newGroup vw vh thr ky st item)).
Proof.
  unfold madeOf, asItem, newGroup. cbv zeta.
  cbn [fst snd geom detail x text gluedFrom]. split; reflexivity.
Qed.

Lemma segmented_snoc (pushed : list PdfItem) (g : Geometry * TextProps)
      (taken : list Run) :
  (exists segs, concat segs = taken
                /\ Forall2 madeOf segs (pushed ++ [asItem g])) ->
  exists segs0 seg,
    concat segs0 ++ seg = taken /\ Forall2 madeOf segs0 pushed
    /\ madeOf seg (asItem g).
Proof.
  intros (segs & C & F).
  apply Forall2_app_inv_r in F. destruct F as (segs0 & last & F0 & F1 & ->).
  inversion F1 as [|seg it l l' M N]; subst. inversion N; subst.
  exists segs0, seg. rewrite concat_app in *. cbn [concat] in *.
  rewrite app_nil_r in *. auto.
Qed.

Lemma processRun_segmented (vw vh thr ky : Q) (st : Cursor) (item : Run)
      (taken : list Run) :
  segmented st taken ->
  segmented (processRun vw vh thr ky st item) (taken ++ [item]).
Proof.
  unfold segmented, processRun, pageItems. intros H.
  destruct (currentGroup st) as [g|].
  - destruct (segmented_snoc _ _ _ H) as (segs0 & seg & C & F0 & M).
    destruct (joins g item); cbn [pushed currentGroup].
    + exists (segs0 ++ [seg ++ [item]]). split.
      * rewrite concat_app. cbn [concat]. rewrite app_nil_r, <- C.
        now rewrite app_assoc.
      * apply Forall2_app; [exact F0|].
        constructor; [now apply madeOf_extend|constructor].
    + exists ((segs0 ++ [seg]) ++ [[item]]). split.
      * rewrite !concat_app. cbn [concat]. rewrite !app_nil_r, <- C.
        reflexivity.
      * apply Forall2_app.
        -- apply Forall2_app; [exact F0|]. constructor; [exact M|constructor].
        -- constructor; [apply madeOf_newGroup|constructor].
  - destruct H as (segs & C & F). rewrite app_nil_r in F.
    cbn [pushed currentGroup].
    exists (segs ++ [[item]]). split.
    + rewrite concat_app. cbn [concat]. now rewrite app_nil_r, C.
    + apply Forall2_app; [exact F|].
      constructor; [apply madeOf_newGroup|constructor].
Qed.

Lemma processLine_segmented (vw vh thr : Q) (runs : list Run) (st : Cursor)
      (y : Q) (taken : list Run) :
  segmented st taken ->
  segmented (processLine vw vh thr runs st y) (taken ++ lineItems runs y).
Proof.
  intros H. unfold processLine.
  assert (S : segmented (mkCursor (pageItems st) None (previousY st)
                                  (previousX st)) taken).
  { unfold segmented in *. unfold pageItems at 1.
    cbn [pushed currentGroup]. now rewrite app_nil_r. }
  revert S. generalize (mkCursor (pageItems st) None (previousY st)
                                 (previousX st)).
  generalize taken. clear H.
  induction (lineItems runs y) as [|item l IH]; intros tk c S.
  - cbn [fold_left]. now rewrite app_nil_r.
  - cbn [fold_left].
    replace (tk ++ item :: l) with ((tk ++ [item]) ++ l)
      by (now rewrite <- app_assoc).
    apply IH. now apply processRun_segmented.
Qed.

Lemma lines_segmented (vw vh thr : Q) (runs : list Run) (keys : list Q) :
  forall (st : Cursor) (taken : list Run),
    segmented st taken ->
    segmented (fold_left (processLine vw vh thr runs) keys st)
              (taken ++ flat_map (lineItems runs) keys).
Proof.
  induction keys as [|y keys IH]; intros st taken H.
  - cbn [fold_left flat_map]. now rewrite app_nil_r.
  - cbn [fold_left flat_map]. rewrite app_assoc.
    apply IH. now apply processLine_segmented.
Qed.

(** *** Every run is on one line *)

Lemma eqb_sym (a b : Q) : Num.eqb a b = Num.eqb b a.
Proof.
  unfold Num.eqb.
  destruct (Qeq_bool a b) eqn:E; destruct (Qeq_bool b a) eqn:F; trivial.
  - apply Qeq_bool_iff in E. symmetry in E. apply Qeq_bool_iff in E.
    congruence.
  - apply Qeq_bool_iff in F. symmetry in F. apply Qeq_bool_iff in F.
    congruence.
Qed.

Lemma eqb_trans (a b c : Q) :
  Num.eqb a b = true -> Num.eqb a c = true -> Num.eqb b c = true.
Proof.
  unfold Num.eqb. rewrite !Qeq_bool_iff. intros H1 H2.
  now rewrite <- H1, <- H2.
Qed.

Lemma apart_snoc (keys : list Q) (k : Q) :
  apart keys -> existsb (Num.eqb k) keys = false -> apart (keys ++ [k]).
Proof.
  induction keys as [|a keys IH]; intros A E; cbn [app apart].
  - split; [constructor|exact I].
  - cbn [existsb] in E. apply orb_false_iff in E. destruct E as (E1 & E2).
    destruct A as (A1 & A2). split; [|now apply IH].
    apply Forall_app. split; [exact A1|].
    constructor; [|constructor]. now rewrite eqb_sym.
Qed.

Lemma lineKeys_snoc (runs : list Run) (r : Run) :
  lineKeys (runs ++ [r]) = addKey (lineKeys runs) (lineKey r).
Proof. unfold lineKeys. now rewrite fold_left_app. Qed.

Lemma lineKeys_apart (runs : list Run) : apart (lineKeys runs).
Proof.
  induction runs as [|r runs IH] using rev_ind; [exact I|].
  rewrite lineKeys_snoc. unfold addKey.
  destruct (existsb (Num.eqb (lineKey r)) (lineKeys runs)) eqn:E; trivial.
  now apply apart_snoc.
Qed.

Lemma onLines_more (keys : list Q) (k : Q) (r : Run) :
  onLines keys r = true -> onLines (addKey keys k) r = true.
Proof.
  unfold onLines, addKey. intros H.
  destruct (existsb (Num.eqb k) keys); trivial.
  rewrite existsb_app, H. reflexivity.
Qed.

Lemma lineKeys_cover (runs : list Run) :
  forallb (onLines (lineKeys runs)) runs = true.
Proof.
  induction runs as [|r runs IH] using rev_ind; [reflexivity|].
  rewrite lineKeys_snoc, forallb_app. apply andb_true_intro. split.
  - apply forallb_forall. intros r' I.
    apply onLines_more. rewrite forallb_forall in IH. now apply IH.
  - cbn [forallb]. rewrite andb_true_r. unfold onLines, addKey.
    destruct (existsb (Num.eqb (lineKey r)) (lineKeys runs)) eqn:E; trivial.
    rewrite existsb_app. cbn [existsb].
    assert (Num.eqb (lineKey r) (lineKey r) = true) as ->
      by (apply Qeq_bool_iff; reflexivity).
    now rewrite orb_true_r.
Qed.

(** The runs of one line and the runs of other lines make up the runs of
    all these lines. *)
Lemma byLine_cons (k : Q) (keys : list Q) (runs : list Run) :
  Forall (fun k' => Num.eqb k k' = false) keys ->
  Permutation
    (filter (fun r => Num.eqb (lineKey r) k) runs ++ filter (onLines keys) runs)
    (filter (onLines (k :: keys)) runs).
Proof.
  intros A. induction runs as [|r runs IH]; [constructor|].
  cbn [filter].
  assert (O : onLines (k :: keys) r
              = Num.eqb (lineKey r) k || onLines keys r) by reflexivity.
  rewrite O.
  destruct (Num.eqb (lineKey r) k) eqn:E; cbn [orb].
  - assert (N : onLines keys r = false).
    { unfold onLines. destruct (existsb (Num.eqb (lineKey r)) keys) eqn:X;
        trivial.
      apply existsb_exists in X. destruct X as (k' & I & X).
      rewrite Forall_forall in A. specialize (A k' I).
      rewrite (eqb_trans _ _ _ E X) in A. discriminate A. }
    rewrite N. cbn [app]. now apply perm_skip.
  - destruct (onLines keys r).
    + eapply perm_trans; [apply Permutation_sym, Permutation_middle|].
      now apply perm_skip.
    + exact IH.
Qed.

Lemma byLine_perm (keys : list Q) (runs : list Run) :
  apart keys ->
  Permutation (byLine keys runs) (filter (onLines keys) runs).
Proof.
  induction keys as [|k keys IH]; intros A.
  - unfold byLine. cbn [flat_map].
    induction runs as [|r runs IHr]; [constructor|exact IHr].
  - destruct A as (A1 & A2). unfold byLine. cbn [flat_map].
    eapply perm_trans; [|now apply byLine_cons].
    apply Permutation_app_head. now apply IH.
Qed.

Lemma filter_all (runs : list Run) (p : Run -> bool) :
  forallb p runs = true -> filter p runs = runs.
Proof.
  induction runs as [|r runs IH]; [reflexivity|].
  cbn [forallb filter]. intros H. apply andb_prop in H.
  destruct H as (-> & H). now rewrite IH.
Qed.

Lemma lines_perm (runs : list Run) (keys : list Q) :
  Permutation (flat_map (lineItems runs) keys) (byLine keys runs).
Proof.
  induction keys as [|k keys IH]; [constructor|].
  unfold byLine. cbn [flat_map]. apply Permutation_app; [|exact IH].
  unfold lineItems. apply Permutation_sym, jsSort_perm.
Qed.

Lemma processed_perm (content : list Run) :
  Permutation (processed content) (kept content).
Proof.
  unfold processed.
  apply perm_trans with (flat_map (lineItems (kept content))
                                  (lineKeys (kept content))).
  { apply Permutation_flat_map, Permutation_sym.
    unfold sortedKeys. apply jsSort_perm. }
  apply perm_trans with (byLine (lineKeys (kept content)) (kept content)).
  { apply lines_perm. }
  apply perm_trans with (filter (onLines (lineKeys (kept content)))
                                (kept content)).
  { apply byLine_perm, lineKeys_apart. }
  rewrite filter_all by apply lineKeys_cover. apply Permutation_refl.
Qed.

(** *** The order in which the runs are taken *)

Lemma leb_compat (a b : Q) : a == b -> Num.leb a 0 = Num.leb b 0.
Proof.
  intros E. unfold Num.leb.
  destruct (Qle_bool a 0) eqn:A; destruct (Qle_bool b 0) eqn:B; trivial.
  - apply Qle_bool_iff in A. rewrite E in A. apply Qle_bool_iff in A.
    congruence.
  - apply Qle_bool_iff in B. rewrite <- E in B. apply Qle_bool_iff in B.
    congruence.
Qed.

(** The comparator [(a, b) => b - a] orders by the opposite of the key. *)
Lemma sortedKeys_byKey (runs : list Run) :
  sortedKeys runs = jsSort (byKey Qopp) (lineKeys runs).
Proof.
  assert (ins : forall k l,
             insertSorted (fun a b : Q => b - a) k l
             = insertSorted (byKey Qopp) k l).
  { intros k l. induction l as [|c l IHl]; [reflexivity|].
    cbn [insertSorted].
    rewrite (leb_compat (c - k) (byKey Qopp k c)) by (unfold byKey; ring).
    now rewrite IHl. }
  unfold sortedKeys. induction (lineKeys runs) as [|k keys IH];
    [reflexivity|].
  unfold jsSort in *. cbn [fold_right]. rewrite IH. apply ins.
Qed.

Lemma apart_perm (l l' : list Q) :
  Permutation l l' -> apart l -> apart l'.
Proof.
  induction 1 as [|x l l' P IH|x y l|l l' l'' P1 IH1 P2 IH2]; intros A.
  - exact I.
  - destruct A as (A1 & A2). split; [|now apply IH].
    now apply (Permutation_Forall P).
  - destruct A as (A1 & A2 & A3).
    inversion A1 as [|? ? Ayx A1']; subst.
    split; [|split; assumption].
    constructor; [now rewrite eqb_sym|assumption].
  - auto.
Qed.

Lemma sortedKeys_descending (runs : list Run) :
  descending (sortedKeys runs).
Proof.
  pose proof (apart_perm _ _ (jsSort_perm _ (fun a b : Q => b - a)
                                (lineKeys runs)) (lineKeys_apart runs)) as A.
  fold (sortedKeys runs) in A.
  pose proof (jsSort_ascend _ Qopp (lineKeys runs)) as S.
  rewrite <- sortedKeys_byKey in S.
  induction (sortedKeys runs) as [|k keys IH]; [exact I|].
  destruct A as (A1 & A2). destruct S as (S1 & S2).
  split; [|now apply IH].
  rewrite Forall_forall in *. intros k' I.
  specialize (A1 k' I). specialize (S1 k' I). cbn beta in S1.
  destruct (Qlt_le_dec k' k) as [L|L]; trivial.
  assert (E : k == k') by Lqa.lra.
  apply Qeq_bool_iff in E. unfold Num.eqb in A1. congruence.
Qed.

Lemma lineItems_key (runs : list Run) (y : Q) :
  Forall (fun r => lineKey r == y) (lineItems runs y).
Proof.
  apply Forall_forall. intros r I. unfold lineItems in I.
  apply (Permutation_in _ (Permutation_sym (jsSort_perm _ _ _))) in I.
  apply filter_In in I. destruct I as (_ & E).
  now apply Qeq_bool_iff in E.
Qed.

Lemma line_inReadingOrder (l : list Run) (y : Q) :
  keysAscend transform4 l -> Forall (fun r => lineKey r == y) l ->
  inReadingOrder l.
Proof.
  induction l as [|a l IH]; intros S K; [exact I|].
  destruct S as (S1 & S2). inversion K as [|? ? Ka Kl]; subst.
  split; [|now apply IH].
  rewrite Forall_forall in *. intros b I. right. split.
  - rewrite Ka. symmetry. now apply Kl.
  - now apply S1.
Qed.

Lemma inReadingOrder_app (l1 l2 : list Run) :
  inReadingOrder l1 -> inReadingOrder l2 ->
  (forall a b, In a l1 -> In b l2 -> precedes a b) ->
  inReadingOrder (l1 ++ l2).
Proof.
  induction l1 as [|a l1 IH]; intros O1 O2 C; [exact O2|].
  destruct O1 as (F & O1). cbn [app inReadingOrder]. split.
  - apply Forall_app. split; [exact F|].
    apply Forall_forall. intros b I. apply C; [now left|exact I].
  - apply IH; trivial. intros a' b Ia Ib. apply C; [now right|exact Ib].
Qed.

Lemma lines_inReadingOrder (runs : list Run) (keys : list Q) :
  descending keys -> inReadingOrder (flat_map (lineItems runs) keys).
Proof.
  induction keys as [|y keys IH]; intros D; [exact I|].
  destruct D as (D1 & D2). cbn [flat_map].
  apply inReadingOrder_app; [| now apply IH |].
  - apply (line_inReadingOrder _ y); [|apply lineItems_key].
    exact (jsSort_ascend _ transform4 _).
  - intros a b Ia Ib. left.
    apply in_flat_map in Ib. destruct Ib as (y' & Iy & Ib).
    pose proof (lineItems_key runs y) as Ka.
    pose proof (lineItems_key runs y') as Kb.
    rewrite Forall_forall in Ka, Kb, D1.
    rewrite (Ka a Ia), (Kb b Ib). now apply D1.
Qed.

(** X28.  The line grouping loses, repeats and reorders no text.  The runs
    of the page that are not blank are each taken once, in reading order:
    a run taken before another is on a line with a greater key, or on the
    same line and not right of it.  The text items produced are, in that
    order, made of consecutive runs: each item starts at the left edge of
    its first run and its text is the texts of its runs in order, each
    after one space or none. *)
Theorem grouper_keeps_text (vw vh : Q) (content : list Run) :
  Permutation (processed content) (kept content)
  /\ inReadingOrder (processed content)
  /\ exists segs,
       concat segs = processed content
       /\ Forall2 madeOf segs (groupText vw vh content).
Proof.
  split; [apply processed_perm|].
  split; [apply lines_inReadingOrder, sortedKeys_descending|].
  unfold groupText. cbv zeta. fold (kept content).
  pose proof (lines_segmented vw vh
                (Stats.paraGapThreshold
                   (Stats.calculateLineSpacingStats (sortedKeys (kept content))))
                (kept content) (sortedKeys (kept content))
                (mkCursor [] None (-1) (-1)) []) as H.
  cbn [app] in H. apply H.
  exists []. split; [reflexivity|]. constructor.
Qed.

End GrouperText.
